(** * a4s: AWS Signature Version 4 signing — a shallow embedding

    The development follows the published build of the package
    ([dist/http.js], which also carries [core.js]; [dist/s3.js];
    [dist/s3_chunked.js]; [dist/util/request.js]; [dist/util/endpoint.js]).

    Conventions.
    - A JavaScript string is the list of its UTF-16 code units ([jsstring]).
    - A [Buffer] is a list of bytes ([list byte]).
    - A JavaScript number that the program only uses as a length or a count
      is an integer [Z]; the doubles of the runtime are exact on integers of
      magnitude below 2^53, which is the range the embedding speaks about.
    - The runtime's cryptographic primitives (SHA-256, HMAC-SHA256), its
      Unicode case mappings, the clock and its URL parser are variables of
      the section that holds the program.
    - Code that throws returns [Throw e]; code that mutates threads a state. *)

From Stdlib Require Import ZArith NArith Lia Ascii String.
From Stdlib.Strings Require Import Byte.
From stdpp Require Import base list sorting gmap.

Local Open Scope Z_scope.

(** ** JavaScript strings *)

Definition codeunit := N.
Definition jsstring := list codeunit.

(** [lit s] is the JavaScript string literal written with the ASCII text [s]. *)
Definition lit (s : string) : jsstring := map N_of_ascii (list_ascii_of_string s).

Definition CRLF : jsstring := [13; 10]%N.

(** [String.prototype.length] as a number. *)
Definition jslength (s : jsstring) : Z := Z.of_nat (length s).

(** [Array.prototype.join] on strings. *)
Fixpoint join (sep : jsstring) (parts : list jsstring) : jsstring :=
  match parts with
  | [] => []
  | [p] => p
  | p :: rest => p ++ sep ++ join sep rest
  end.

(** [String.prototype.split] with a one-code-unit separator: the pieces
    between the separators, always at least one piece. *)
Fixpoint split (sep : codeunit) (s : jsstring) : list jsstring :=
  match s with
  | [] => [[]]
  | c :: s' =>
      if N.eqb c sep then [] :: split sep s'
      else match split sep s' with
           | p :: ps => (c :: p) :: ps
           | [] => [[c]]
           end
  end.

Fixpoint find_index (c : codeunit) (s : jsstring) : option nat :=
  match s with
  | [] => None
  | d :: s' => if N.eqb d c then Some O else option_map S (find_index c s')
  end.

(** [String.prototype.indexOf] with a one-code-unit token; -1 when absent. *)
Definition indexOf (s : jsstring) (token : codeunit) : Z :=
  match find_index token s with
  | Some i => Z.of_nat i
  | None => -1
  end.

(** [String.prototype.substring(a, b)] and [substring(a)], for indices
    already clamped by the caller to [0 .. length]. *)
Definition substring (s : jsstring) (a b : Z) : jsstring :=
  take (Z.to_nat b - Z.to_nat a)%nat (drop (Z.to_nat a) s).
Definition substring_from (s : jsstring) (a : Z) : jsstring :=
  drop (Z.to_nat a) s.

(** White space and line terminators of ECMAScript: what [trim], [trimLeft]
    and the regular-expression class [\s] recognise. *)
Definition is_space (c : codeunit) : bool :=
  ((9 <=? c) && (c <=? 13) || (c =? 32) || (c =? 160) || (c =? 5760)
   || (8192 <=? c) && (c <=? 8202) || (c =? 8232) || (c =? 8233)
   || (c =? 8239) || (c =? 8287) || (c =? 12288) || (c =? 65279))%N.

Fixpoint trimLeft (s : jsstring) : jsstring :=
  match s with
  | [] => []
  | c :: s' => if is_space c then trimLeft s' else s
  end.

Definition trimRight (s : jsstring) : jsstring := rev (trimLeft (rev s)).
Definition trim (s : jsstring) : jsstring := trimRight (trimLeft s).

(** [x.replace(/\s+/g, ' ')]: every maximal run of white space becomes one
    space. *)
Fixpoint collapse_spaces (s : jsstring) : jsstring :=
  match s with
  | [] => []
  | c :: s' =>
      if is_space c
      then match s' with
           | d :: _ => if is_space d then collapse_spaces s'
                       else 32%N :: collapse_spaces s'
           | [] => [32%N]
           end
      else c :: collapse_spaces s'
  end.

(** Comparison of two strings by UTF-16 code units, the order of
    [Array.prototype.sort] without a comparator and of [<] on strings. *)
Fixpoint jsleb (s t : jsstring) : bool :=
  match s, t with
  | [], _ => true
  | _ :: _, [] => false
  | c :: s', d :: t' => (c <? d)%N || (c =? d)%N && jsleb s' t'
  end.

Definition jsle (s t : jsstring) : Prop := jsleb s t = true.

#[global] Instance jsle_dec : RelDecision jsle.
Proof. intros s t. unfold jsle. apply bool_eq_dec. Defined.

(** [Array.prototype.sort()] on an array of strings. Two strings that
    compare equal are the same string, so the result does not depend on the
    algorithm; merge sort stands for the runtime's. *)
Definition sort (l : list jsstring) : list jsstring := merge_sort jsle l.

(** ** Buffers *)

Definition byte_of_N (n : N) : byte :=
  match Byte.of_N n with Some b => b | None => x00 end.

(** [Buffer.from(str)]: the UTF-8 encoding of a string; a surrogate that is
    not part of a pair is encoded as U+FFFD. *)
Definition utf8_1 (c : N) : list byte := [byte_of_N c].
Definition utf8_2 (c : N) : list byte :=
  [byte_of_N (N.lor 192 (N.shiftr c 6));
   byte_of_N (N.lor 128 (N.land c 63))].
Definition utf8_3 (c : N) : list byte :=
  [byte_of_N (N.lor 224 (N.shiftr c 12));
   byte_of_N (N.lor 128 (N.land (N.shiftr c 6) 63));
   byte_of_N (N.lor 128 (N.land c 63))].
Definition utf8_4 (c : N) : list byte :=
  [byte_of_N (N.lor 240 (N.shiftr c 18));
   byte_of_N (N.lor 128 (N.land (N.shiftr c 12) 63));
   byte_of_N (N.lor 128 (N.land (N.shiftr c 6) 63));
   byte_of_N (N.lor 128 (N.land c 63))].

Definition is_high_surrogate (c : N) : bool := ((55296 <=? c) && (c <=? 56319))%N.
Definition is_low_surrogate (c : N) : bool := ((56320 <=? c) && (c <=? 57343))%N.

Fixpoint utf8 (s : jsstring) : list byte :=
  match s with
  | [] => []
  | c :: s' =>
      if (c <? 128)%N then utf8_1 c ++ utf8 s'
      else if (c <? 2048)%N then utf8_2 c ++ utf8 s'
      else if is_high_surrogate c then
        match s' with
        | d :: s'' =>
            if is_low_surrogate d
            then utf8_4 (65536 + N.shiftl (c - 55296) 10 + (d - 56320))%N ++ utf8 s''
            else utf8_3 65533 ++ utf8 s'
        | [] => utf8_3 65533
        end
      else if is_low_surrogate c then utf8_3 65533 ++ utf8 s'
      else utf8_3 c ++ utf8 s'
  end.

Definition hex_digit_lower (n : N) : codeunit :=
  (if n <? 10 then 48 + n else 87 + n)%N.
Definition hex_digit_upper (n : N) : codeunit :=
  (if n <? 10 then 48 + n else 55 + n)%N.

(** [buf.toString('hex')]: two lower-case digits per byte. *)
Definition hex_of_byte (b : byte) : jsstring :=
  [hex_digit_lower (N.shiftr (Byte.to_N b) 4); hex_digit_lower (N.land (Byte.to_N b) 15)].

Definition toHex (buf : list byte) : jsstring := flat_map hex_of_byte buf.

Definition is_lower_hex (c : codeunit) : bool :=
  ((48 <=? c) && (c <=? 57) || (97 <=? c) && (c <=? 102))%N.

Definition hex_value (c : codeunit) : option N :=
  (if (48 <=? c) && (c <=? 57) then Some (c - 48)
   else if (97 <=? c) && (c <=? 102) then Some (c - 87)
   else if (65 <=? c) && (c <=? 70) then Some (c - 55)
   else None)%N.

(** [Buffer.from(str, 'hex')]: decodes pairs of digits and stops at the
    first pair that is not hexadecimal (or at a single trailing digit). *)
Fixpoint fromHex (s : jsstring) : list byte :=
  match s with
  | c :: d :: s' =>
      match hex_value c, hex_value d with
      | Some h, Some l => byte_of_N (16 * h + l) :: fromHex s'
      | _, _ => []
      end
  | _ => []
  end.

(** [Number.prototype.toString(16)] on an integer. *)
Fixpoint hex_digits (fuel : nat) (n : N) (acc : jsstring) : jsstring :=
  match fuel with
  | O => acc
  | S fuel' =>
      let acc' := hex_digit_lower (n mod 16) :: acc in
      if (n / 16 =? 0)%N then acc' else hex_digits fuel' (n / 16)%N acc'
  end.

Definition toString16 (n : Z) : jsstring :=
  let m := Z.to_N (Z.abs n) in
  (if n <? 0 then [45%N] else []) ++ hex_digits (S (N.size_nat m)) m [].

(** [Number.prototype.toString()] on an integer. *)
Fixpoint dec_digits (fuel : nat) (n : N) (acc : jsstring) : jsstring :=
  match fuel with
  | O => acc
  | S fuel' =>
      let acc' := (48 + n mod 10)%N :: acc in
      if (n / 10 =? 0)%N then acc' else dec_digits fuel' (n / 10)%N acc'
  end.

Definition toString10 (n : Z) : jsstring :=
  let m := Z.to_N (Z.abs n) in
  (if n <? 0 then [45%N] else []) ++ dec_digits (S (N.size_nat m)) m [].

(** ** Objects used as dictionaries

    An object with string keys: its own properties in insertion order, each
    key once. (Keys that look like array indices, which the runtime lists
    first, do not occur among header and parameter names.) *)
Section JSObject.
Context {V : Type}.

Fixpoint obj_get (k : jsstring) (o : list (jsstring * V)) : option V :=
  match o with
  | [] => None
  | (k', v) :: o' => if bool_decide (k' = k) then Some v else obj_get k o'
  end.

Definition obj_has (k : jsstring) (o : list (jsstring * V)) : bool :=
  bool_decide (k ∈ o.*1).

(** [o[k] = v] *)
Fixpoint obj_set (k : jsstring) (v : V) (o : list (jsstring * V)) : list (jsstring * V) :=
  match o with
  | [] => [(k, v)]
  | (k', v') :: o' =>
      if bool_decide (k' = k) then (k, v) :: o' else (k', v') :: obj_set k v o'
  end.

(** [delete o[k]] *)
Definition obj_delete (k : jsstring) (o : list (jsstring * V)) : list (jsstring * V) :=
  filter (fun p => p.1 <> k) o.

(** [Object.keys(o)] *)
Definition obj_keys (o : list (jsstring * V)) : list jsstring := o.*1.

(** [{ ...target, ...source }], and [Object.keys(source).forEach(k =>
    { target[k] = source[k] })]. *)
Definition obj_assign (target source : list (jsstring * V)) : list (jsstring * V) :=
  foldl (fun o p => obj_set p.1 p.2 o) target source.
End JSObject.

(** The value of a header or of a returned parameter:
    [string | string[] | number | undefined]. *)
Inductive Value : Type :=
  | VString (s : jsstring)
  | VArray (l : list jsstring)
  | VNumber (n : Z)
  | VUndefined.

Definition JSObject : Type := list (jsstring * Value).

(** [value + ''] and [String(value)] for a value that is not an array. *)
Definition toStr (v : Value) : jsstring :=
  match v with
  | VString s => s
  | VArray l => join (lit ",") l
  | VNumber n => toString10 n
  | VUndefined => lit "undefined"
  end.

(** [!s] for a string that may be [undefined] or [null]. *)
Definition falsy (s : option jsstring) : bool :=
  match s with
  | None | Some [] => true
  | Some (_ :: _) => false
  end.

(** ** URLSearchParams: the list of its name-value pairs *)

Definition URLSearchParams : Type := list (jsstring * jsstring).

Definition usp_get (k : jsstring) (q : URLSearchParams) : option jsstring :=
  obj_get k q.
Definition usp_getAll (k : jsstring) (q : URLSearchParams) : list jsstring :=
  (filter (fun p => p.1 = k) q).*2.
Definition usp_has (k : jsstring) (q : URLSearchParams) : bool :=
  bool_decide (k ∈ q.*1).
Definition usp_keys (q : URLSearchParams) : list jsstring := q.*1.
Definition usp_delete (k : jsstring) (q : URLSearchParams) : URLSearchParams :=
  filter (fun p => p.1 <> k) q.
(** [set]: the first pair of that name gets the value and the others are
    removed; without such a pair one is appended. *)
Fixpoint usp_set (k v : jsstring) (q : URLSearchParams) : URLSearchParams :=
  match q with
  | [] => [(k, v)]
  | (k', v') :: q' =>
      if bool_decide (k' = k) then (k, v) :: usp_delete k q'
      else (k', v') :: usp_set k v q'
  end.

(** [Array.from(new Set(xs))]: the elements in the order of their first
    occurrence. *)
Definition newSet (xs : list jsstring) : list jsstring :=
  reverse (remove_dups (reverse xs)).

(** ** Exceptions and state *)

Inductive Error : Type :=
  | InvalidChunkLength
  | InvalidBodyLength
  | PayloadComplete
  | UnexpectedChunkSize (got : option Z) (expected : Z)
  | InvalidAuthorizationStructure
  | InvalidAuthorizationFields
  | InvalidSignatureFormat
  | DuplicateHeaders (name : jsstring)
  | NoHostNorService
  | UnparsableHost (host : option jsstring)
  | UnexpectedISOString
  | TypeError (what : string).

Inductive Res (A : Type) : Type :=
  | Ok (a : A)
  | Throw (e : Error).
Arguments Ok {A} a.
Arguments Throw {A} e.

Definition is_ok {A} (r : Res A) : bool :=
  match r with Ok _ => true | Throw _ => false end.

(** Pure code that may throw. *)
#[global] Instance Res_ret : MRet Res := fun A a => Ok a.
#[global] Instance Res_bind : MBind Res := fun A B f r =>
  match r with Ok a => f a | Throw e => Throw e end.

(** Code that reads and assigns variables of type [S] and may throw: an
    exception leaves the variables as they are at the [throw]. *)
Definition M (S A : Type) : Type := S -> Res A * S.

#[global] Instance M_ret {S} : MRet (M S) := fun A a s => (Ok a, s).
#[global] Instance M_bind {S} : MBind (M S) := fun A B f m s =>
  match m s with
  | (Ok a, s') => f a s'
  | (Throw e, s') => (Throw e, s')
  end.

#[global] Instance M_fmap {S} : FMap (M S) := fun A B f m s =>
  match m s with
  | (Ok a, s') => (Ok (f a), s')
  | (Throw e, s') => (Throw e, s')
  end.

Definition throw {S A} (e : Error) : M S A := fun s => (Throw e, s).
Definition get {S} : M S S := fun s => (Ok s, s).
Definition gets {S A} (f : S -> A) : M S A := fun s => (Ok (f s), s).
Definition put {S} (s : S) : M S unit := fun _ => (Ok tt, s).
Definition modify {S} (f : S -> S) : M S unit := fun s => (Ok tt, f s).
Definition lift {S A} (r : Res A) : M S A := fun s => (r, s).

(** ** The program *)

Record SigningData : Type := { key : list byte; scope : jsstring }.

Definition GetSigningData : Type :=
  jsstring -> jsstring -> jsstring -> jsstring -> SigningData.

(** A request body: a [Buffer], a string, or the descriptor
    [{ hash: '<hex>' }]. *)
Inductive Body : Type :=
  | BodyBuffer (data : list byte)
  | BodyString (s : jsstring)
  | BodyHash (hash : jsstring).

(** What the chunk signer is called with: a [Buffer], or the descriptor
    [{ hash, length }]; [None] stands for a call without an argument. *)
Inductive Chunk : Type :=
  | ChunkBuffer (data : list byte)
  | ChunkDescription (hash : jsstring) (length : Z).

Definition chunk_body (c : Chunk) : Body :=
  match c with
  | ChunkBuffer data => BodyBuffer data
  | ChunkDescription hash _ => BodyHash hash
  end.

(** [chunk.length] *)
Definition chunk_length (c : Chunk) : Z :=
  match c with
  | ChunkBuffer data => Z.of_nat (length data)
  | ChunkDescription _ len => len
  end.

(** The variables the chunk signer closes over and assigns. *)
Record SignerState : Type := {
  signature : jsstring;
  dataCount : Z;
  done : bool;
}.

(** The constants the chunk signer closes over. *)
Record SignerEnv : Type := {
  bodyLength : Z;
  chunkLength : Z;
  lastLength : Z;
  chunkHeader : jsstring;
  lastHeader : jsstring;
  finalHeader : jsstring;
  signing : SigningData;
  timestamp : jsstring;
}.

(** ** A runtime to evaluate with

    The statements below hold of every runtime. To evaluate the program on
    concrete inputs, these stand for the runtime's functions: a 32-byte
    checksum in place of the two digests, and the case mappings of ASCII. *)
Definition sample_digest (data : list byte) : list byte :=
  let sum := foldr (fun b acc => (Byte.to_N b + 31 * acc) mod 256)%N 7%N data in
  (fun i => byte_of_N ((sum + N.of_nat i) mod 256)%N) <$> seq 0 32.
Definition sample_sha256 : list byte -> list byte := sample_digest.
Definition sample_hmac (key data : list byte) : list byte :=
  sample_digest (key ++ x00 :: data).
Definition ascii_toLowerCase (s : jsstring) : jsstring :=
  (fun c => if (65 <=? c) && (c <=? 90) then c + 32 else c)%N <$> s.
Definition ascii_toUpperCase (s : jsstring) : jsstring :=
  (fun c => if (97 <=? c) && (c <=? 122) then c - 32 else c)%N <$> s.
(** A path without percent-escapes is its own [unescape]. *)
Definition plain_unescape (s : jsstring) : jsstring := s.

Record Credentials : Type := {
  accessKey : jsstring;
  secretKey : jsstring;
  regionName : option jsstring;
  serviceName : option jsstring;
}.

(** [SignHTTPOptions & CanonicalOptions & SignOptions]; [None] is a property
    that is absent, and an [options] argument that is [undefined] is the
    record without properties. *)
Record Options : Type := {
  opt_set : option bool;
  opt_query : option bool;
  opt_setContentHash : option bool;
  opt_dontNormalize : option bool;
  opt_onlyEncodeOnce : option bool;
  opt_getSigningData : option GetSigningData;
}.

Definition truthy (b : option bool) : bool := default false b.

(** The argument and the result of [buildAuthorization] and
    [parseAuthorization]. *)
Record Authorization : Type := {
  auth_algorithm : jsstring;
  auth_credential : jsstring;
  auth_signedHeaders : jsstring;
  auth_signature : list byte;
}.

(** ** The caller's objects

    [signRequest] and its relatives receive references: the request object,
    the object under its [url], its [headers] object, the [URLSearchParams]
    under [url.searchParams]. The store maps references to objects; [h_next]
    is the next unused reference, an object created by [{ ... }] or [new] sits
    at a reference that was unused before. *)
Definition loc := nat.

(** The object under [request.url]: [{ host?, pathname?, searchParams? }]. A
    [URL] made by [new URL(string)] is such an object with all three set. *)
Record UrlObject : Type := {
  url_host : option jsstring;
  url_pathname : option jsstring;
  url_searchParams : option loc;
}.

(** [SignedS3Request]; the url is a string or a reference to an object. *)
Record Request : Type := {
  req_method : option jsstring;
  req_url : jsstring + loc;
  req_headers : option loc;
  req_body : option Body;
  req_unsigned : option bool;
}.

Record Heap : Type := {
  h_next : loc;
  h_requests : gmap loc Request;
  h_urls : gmap loc UrlObject;
  h_objects : gmap loc JSObject;
  h_params : gmap loc URLSearchParams;
}.

Definition readRequest (l : loc) : M Heap Request := fun h =>
  match h_requests h !! l with
  | Some r => (Ok r, h)
  | None => (Throw (TypeError "request"), h)
  end.
Definition readUrl (l : loc) : M Heap UrlObject := fun h =>
  match h_urls h !! l with
  | Some u => (Ok u, h)
  | None => (Throw (TypeError "url"), h)
  end.
Definition readObject (l : loc) : M Heap JSObject := fun h =>
  match h_objects h !! l with
  | Some o => (Ok o, h)
  | None => (Throw (TypeError "object"), h)
  end.
Definition readParams (l : loc) : M Heap URLSearchParams := fun h =>
  match h_params h !! l with
  | Some q => (Ok q, h)
  | None => (Throw (TypeError "searchParams"), h)
  end.

Definition writeRequest (l : loc) (r : Request) : M Heap unit := fun h =>
  (Ok tt, {| h_next := h_next h; h_requests := <[l := r]> (h_requests h);
             h_urls := h_urls h; h_objects := h_objects h; h_params := h_params h |}).
Definition writeUrl (l : loc) (u : UrlObject) : M Heap unit := fun h =>
  (Ok tt, {| h_next := h_next h; h_requests := h_requests h;
             h_urls := <[l := u]> (h_urls h); h_objects := h_objects h;
             h_params := h_params h |}).
Definition writeObject (l : loc) (o : JSObject) : M Heap unit := fun h =>
  (Ok tt, {| h_next := h_next h; h_requests := h_requests h;
             h_urls := h_urls h; h_objects := <[l := o]> (h_objects h);
             h_params := h_params h |}).
Definition writeParams (l : loc) (q : URLSearchParams) : M Heap unit := fun h =>
  (Ok tt, {| h_next := h_next h; h_requests := h_requests h;
             h_urls := h_urls h; h_objects := h_objects h;
             h_params := <[l := q]> (h_params h) |}).

Definition allocRequest (r : Request) : M Heap loc := fun h =>
  (Ok (h_next h),
   {| h_next := S (h_next h); h_requests := <[h_next h := r]> (h_requests h);
      h_urls := h_urls h; h_objects := h_objects h; h_params := h_params h |}).
Definition allocUrl (u : UrlObject) : M Heap loc := fun h =>
  (Ok (h_next h),
   {| h_next := S (h_next h); h_requests := h_requests h;
      h_urls := <[h_next h := u]> (h_urls h); h_objects := h_objects h;
      h_params := h_params h |}).
Definition allocObject (o : JSObject) : M Heap loc := fun h =>
  (Ok (h_next h),
   {| h_next := S (h_next h); h_requests := h_requests h;
      h_urls := h_urls h; h_objects := <[h_next h := o]> (h_objects h);
      h_params := h_params h |}).
Definition allocParams (q : URLSearchParams) : M Heap loc := fun h =>
  (Ok (h_next h),
   {| h_next := S (h_next h); h_requests := h_requests h;
      h_urls := h_urls h; h_objects := h_objects h;
      h_params := <[h_next h := q]> (h_params h) |}).

Definition with_host (u : UrlObject) (host : option jsstring) : UrlObject :=
  {| url_host := host; url_pathname := url_pathname u;
     url_searchParams := url_searchParams u |}.
Definition with_searchParams (u : UrlObject) (q : option loc) : UrlObject :=
  {| url_host := url_host u; url_pathname := url_pathname u; url_searchParams := q |}.
Definition with_url (r : Request) (url : jsstring + loc) : Request :=
  {| req_method := req_method r; req_url := url; req_headers := req_headers r;
     req_body := req_body r; req_unsigned := req_unsigned r |}.
Definition with_headers (r : Request) (headers : option loc) : Request :=
  {| req_method := req_method r; req_url := req_url r; req_headers := headers;
     req_body := req_body r; req_unsigned := req_unsigned r |}.
Definition with_body (r : Request) (body : option Body) : Request :=
  {| req_method := req_method r; req_url := req_url r; req_headers := req_headers r;
     req_body := body; req_unsigned := req_unsigned r |}.

(** What [parseHost] returns. *)
Record HostInfo : Type := { hi_regionName : jsstring; hi_serviceName : jsstring }.

Section Program.

#[local] Set Default Proof Using "Type".

(** The runtime: [crypto.createHash('sha256')] and
    [crypto.createHmac('sha256', key)] from a message to its digest. *)
Variable sha256 : list byte -> list byte.
Variable hmac_sha256 : list byte -> list byte -> list byte.

(** [String.prototype.toLowerCase], [String.prototype.toUpperCase] and
    [querystring.unescape]. *)
Variable toLowerCase : jsstring -> jsstring.
Variable toUpperCase : jsstring -> jsstring.
Variable unescape : jsstring -> jsstring.

(** [new URL(string)]: the host, the pathname and the query parameters of a
    string that parses; [url.toString()] of the [URL] made from the string,
    as it stands after the assignments to it. *)
Variable parseURL : jsstring -> option (jsstring * jsstring * URLSearchParams).
Variable formatURL : jsstring -> UrlObject -> URLSearchParams -> jsstring.

(** [parseHost] of [util/endpoint.js], which infers the region and the
    service from a host with regular expressions; [None] when it throws. *)
Variable parseHost : jsstring -> option HostInfo.

(** An HMAC-SHA256 digest has 32 bytes. *)
Hypothesis hmac_sha256_length :
  forall key data, length (hmac_sha256 key data) = 32%nat.

(** *** core.js *)

Definition getSigningData : GetSigningData :=
  fun dateStamp secretKey regionName serviceName =>
  let dateStamp := substring dateStamp 0 8 in
  let parts := [dateStamp; regionName; serviceName; lit "aws4_request"] in
  let key := fold_left (fun key part => hmac_sha256 key (utf8 part)) parts
                       (utf8 (lit "AWS4" ++ secretKey)) in
  {| key := key; scope := join (lit "/") parts |}.

(** The two variables of the closure made by [getSigningData.makeSimpleCache];
    both start out [undefined]. *)
Record CacheState : Type := {
  cache_key : option jsstring;
  cache_value : option SigningData;
}.

Definition makeSimpleCache : CacheState :=
  {| cache_key := None; cache_value := None |}.

Definition _cached_getSigningData (a b c d : jsstring)
  : M CacheState (option SigningData) :=
  let a := substring a 0 8 in
  let nkey := join (lit "/") [a; b; c; d] in
  key ← gets cache_key;
  (if bool_decide (key ≠ Some nkey)
   then put {| cache_key := Some nkey;
               cache_value := Some (getSigningData a b c d) |}
   else mret tt);;
  gets cache_value.

Definition signString (key : list byte) (sts : jsstring) : list byte :=
  hmac_sha256 key (utf8 sts).

Definition MAIN_ALGORITHM : jsstring := lit "AWS4-HMAC-SHA256".

Definition signDigest (algorithm payloadDigest timestamp : jsstring)
    (signing : SigningData) : list byte :=
  signString (key signing)
    (join [10%N] [algorithm; timestamp; scope signing; payloadDigest]).

(** *** http.js: the body hash *)

Definition EMPTY_HASH : jsstring := toHex (sha256 []).

(** [!body] holds of [undefined] and of the empty string. *)
Definition hashBody (body : option Body) : jsstring :=
  match body with
  | None => EMPTY_HASH
  | Some (BodyString []) => EMPTY_HASH
  | Some (BodyHash hash) => hash
  | Some (BodyBuffer data) => toHex (sha256 data)
  | Some (BodyString s) => toHex (sha256 (utf8 s))
  end.

(** [formatTimestamp()]; [now] is [new Date().toISOString()]. *)
Definition formatTimestamp (now : jsstring) : Res jsstring :=
  if negb (length now =? 24)%nat then Throw UnexpectedISOString
  else Ok (filter (fun c => c <> 58%N /\ c <> 45%N) (substring now 0 19) ++ lit "Z").

(** [getSigning]; the derivation throws a [TypeError] on a region or a
    service that is [undefined]. *)
Definition getSigning (dateStamp : jsstring) (credentials : Credentials)
    (options : Options) : Res (SigningData * jsstring) :=
  let derive := default getSigningData (opt_getSigningData options) in
  match regionName credentials, serviceName credentials with
  | Some region, Some service =>
      let signing := derive dateStamp (secretKey credentials) region service in
      Ok (signing, accessKey credentials ++ lit "/" ++ scope signing)
  | _, _ => Throw (TypeError "data")
  end.

(** *** util/request.js *)

Definition normalizeValue (value : Value) : jsstring := toStr value.

Fixpoint getHeader_loop (headers : JSObject) (name : jsstring)
  : option (jsstring * jsstring) :=
  match headers with
  | [] => None
  | (key, value) :: rest =>
      if bool_decide (toLowerCase key = name) then Some (key, normalizeValue value)
      else getHeader_loop rest name
  end.

Definition getHeader (headers : option JSObject) (name : jsstring)
  : jsstring * option jsstring :=
  let name := toLowerCase name in
  match headers ≫= (fun h => getHeader_loop h name) with
  | Some (key, value) => (key, Some value)
  | None => (name, None)
  end.

(** *** util/endpoint.js *)

Definition DEFAULT_REGION : jsstring := lit "us-east-1".

(** [formatHost(serviceName, regionName)], without a port. *)
Definition formatHost (serviceName : jsstring) (regionName : option jsstring) : jsstring :=
  let serviceName :=
    if bool_decide (serviceName = lit "ses") then lit "email" else serviceName in
  let regionName := if falsy regionName then [] else lit "." ++ default [] regionName in
  serviceName ++ regionName ++ lit ".amazonaws.com".

(** *** http.js: the canonical request *)

Definition escape_byte (b : byte) : jsstring :=
  let x := Byte.to_N b in
  let at_ (a x b : N) := ((a <=? x) && (x <=? b))%N in
  if at_ 97%N (N.lor x 32) 122%N || at_ 48%N x 57%N
     || (x =? 45)%N || (x =? 46)%N || (x =? 95)%N || (x =? 126)%N
  then [x]
  else [37%N; hex_digit_upper (N.shiftr x 4); hex_digit_upper (N.land x 15)].

Definition escape (str : jsstring) : jsstring := flat_map escape_byte (utf8 str).

(** The loop of [getCanonicalURI] over the parts of the path. *)
Definition normalize_step (acc : list jsstring * bool) (part : jsstring)
  : list jsstring * bool :=
  let '(newParts, _) := acc in
  if bool_decide (part = lit "..") then (removelast newParts, true)
  else if negb (bool_decide (part = []) || bool_decide (part = lit "."))
       then (newParts ++ [part], false)
       else (newParts, true).

Definition getCanonicalURI (pathName : jsstring) (options : Options) : jsstring :=
  let parts := unescape <$> split 47%N pathName in
  let parts :=
    if negb (truthy (opt_dontNormalize options)) then
      let '(newParts, endingSlash) := foldl normalize_step ([], true) parts in
      [[]] ++ newParts ++ (if endingSlash : bool then [[]] else [])
    else parts in
  let parts := escape <$> parts in
  let parts :=
    if negb (truthy (opt_onlyEncodeOnce options)) then escape <$> parts else parts in
  join (lit "/") parts.

(** [getCanonicalQuery] on a [URLSearchParams]. *)
Definition getCanonicalQuery (pquery : URLSearchParams) : jsstring :=
  let parts :=
    foldl (fun parts key =>
             if bool_decide (key = []) then parts
             else
               let pkey := escape key ++ lit "=" in
               foldl (fun parts value => parts ++ [pkey ++ escape value])
                     parts (sort (usp_getAll key pquery)))
          [] (sort (newSet (usp_keys pquery))) in
  join (lit "&") parts.

(** [x.trim().replace(/\s+/g, ' ')] *)
Definition trimHeader (x : jsstring) : jsstring := collapse_spaces (trim x).

Fixpoint normalizeHeaders (headers : JSObject) (normalized : list (jsstring * jsstring))
  : Res (list (jsstring * jsstring)) :=
  match headers with
  | [] => Ok normalized
  | (key, value) :: rest =>
      let name := toLowerCase key in
      if obj_has name normalized then Throw (DuplicateHeaders name)
      else
        let v := match value with
                 | VArray l => join (lit ",") (trimHeader <$> l)
                 | _ => trimHeader (toStr value)
                 end in
        normalizeHeaders rest (obj_set name v normalized)
  end.

Definition getCanonicalHeaders (headers : JSObject) : Res (jsstring * jsstring) :=
  normalized ← normalizeHeaders headers [];
  let signedHeaders := sort (obj_keys normalized) in
  let canonicalHeaders :=
    join [] ((fun k => k ++ lit ":" ++ default (lit "undefined") (obj_get k normalized) ++ [10%N])
             <$> signedHeaders) in
  mret (canonicalHeaders, join (lit ";") signedHeaders).

Definition getCanonical (method pathname : jsstring) (query : URLSearchParams)
    (cheaders : jsstring * jsstring) (body : option Body) (options : Options) : jsstring :=
  let '(canonicalHeaders, signedHeaders) := cheaders in
  join [10%N]
    [trim (toUpperCase method);
     getCanonicalURI pathname options;
     getCanonicalQuery query;
     canonicalHeaders;
     signedHeaders;
     hashBody body].

(** *** http.js: the Authorization header *)

Definition buildAuthorization (data : Authorization) : jsstring :=
  let fields :=
    [lit "Credential=" ++ auth_credential data;
     lit "SignedHeaders=" ++ auth_signedHeaders data;
     lit "Signature=" ++ toHex (auth_signature data)] in
  auth_algorithm data ++ lit " " ++ join (lit ", ") fields.

Definition split1 (x : jsstring) (token : codeunit) : Res (jsstring * jsstring) :=
  let idx := indexOf x token in
  if idx =? -1 then Throw InvalidAuthorizationStructure
  else Ok (substring x 0 idx, substring_from x (idx + 1)).

(** [new Map(pairs)] *)
Definition newMap (pairs : list (jsstring * jsstring)) : gmap jsstring jsstring :=
  foldl (fun m p => <[p.1 := p.2]> m) ∅ pairs.

(** [/^([0-9a-f]{2})+$/.test(s)] *)
Fixpoint hexPairs (s : jsstring) : bool :=
  match s with
  | c :: d :: s' =>
      is_lower_hex c && is_lower_hex d
      && match s' with [] => true | _ => hexPairs s' end
  | _ => false
  end.

Definition parseAuthorization (header : jsstring) : Res Authorization :=
  parts ← split1 (trimLeft header) 32%N;
  let rawFields := trim <$> split 44%N parts.2 in
  pairs ← mapM (fun x => split1 x 61%N) rawFields;
  let fields := newMap pairs in
  match fields !! lit "Signature", fields !! lit "Credential",
        fields !! lit "SignedHeaders" with
  | Some sig, Some credential, Some signedHeaders =>
      if negb (hexPairs sig) then Throw InvalidSignatureFormat
      else Ok {| auth_algorithm := trim parts.1;
                 auth_credential := credential;
                 auth_signedHeaders := signedHeaders;
                 auth_signature := fromHex sig |}
  | _, _, _ => Throw InvalidAuthorizationFields
  end.

(** *** http.js: signing *)

Definition signRequestRaw (now : jsstring) (credentials : Credentials)
    (method pathname : jsstring) (query : URLSearchParams) (headers : JSObject)
    (body : option Body) (options : Options) : Res JSObject :=
  let isQuery := truthy (opt_query options) in
  let result : JSObject := [] in
  let parameter :=
    if isQuery then lit "X-Amz-Signature"
    else (getHeader (Some headers) (lit "authorization")).1 in
  let timestamp :=
    if isQuery then usp_get (lit "X-Amz-Date") query
    else (getHeader (Some headers) (lit "x-amz-date")).2 in
  '(timestamp, result) ←
    (if falsy timestamp then
       let name := if isQuery then lit "X-Amz-Date" else lit "x-amz-date" in
       ts ← formatTimestamp now;
       mret (ts, obj_set name (VString ts) result)
     else mret (default [] timestamp, result));
  let hash := hashBody body in
  let result :=
    if negb isQuery && truthy (opt_setContentHash options)
    then obj_set (getHeader (Some headers) (lit "x-amz-content-sha256")).1 (VString hash) result
    else result in
  '(signing, credential) ← getSigning timestamp credentials options;
  let headers :=
    if negb isQuery then obj_delete parameter (obj_assign headers result) else headers in
  cheaders ← getCanonicalHeaders headers;
  let '(result, query) :=
    if isQuery then
      let result := obj_set (lit "X-Amz-Algorithm") (VString MAIN_ALGORITHM) result in
      let result := obj_set (lit "X-Amz-Credential") (VString credential) result in
      let result := obj_set (lit "X-Amz-SignedHeaders") (VString cheaders.2) result in
      let query := foldl (fun q p => usp_set p.1 (toStr p.2) q) query result in
      (result, usp_delete parameter query)
    else (result, query) in
  let creq := getCanonical method pathname query cheaders (Some (BodyHash hash)) options in
  let digest := toHex (sha256 (utf8 creq)) in
  let signature := signDigest MAIN_ALGORITHM digest timestamp signing in
  mret (obj_set parameter
          (VString (if isQuery then toHex signature
                    else buildAuthorization
                           {| auth_signature := signature; auth_credential := credential;
                              auth_algorithm := MAIN_ALGORITHM;
                              auth_signedHeaders := cheaders.2 |}))
          result).

(** [new URL(string)] *)
Definition newURL (s : jsstring) : M Heap loc :=
  match parseURL s with
  | Some (host, pathname, query) =>
      q ← allocParams query;
      allocUrl {| url_host := Some host; url_pathname := Some pathname;
                  url_searchParams := Some q |}
  | None => throw (TypeError "Invalid URL")
  end.

(** [typeof url === 'string' ? new URL(url) : url] *)
Definition resolveUrl (url : jsstring + loc) : M Heap loc :=
  match url with
  | inl s => newURL s
  | inr l => mret l
  end.

(** [url.toString()] for the [URL] made from the string [s]. *)
Definition urlToString (s : jsstring) (url : loc) : M Heap jsstring :=
  u ← readUrl url;
  q ← from_option readParams (mret []) (url_searchParams u);
  mret (formatURL s u q).

Definition signRequest (now : jsstring) (credentials : Credentials) (request : loc)
    (options : Options) : M Heap JSObject :=
  req ← readRequest request;
  url ← resolveUrl (req_url req);
  u ← readUrl url;
  credentials ←
    (if falsy (url_host u) then
       if falsy (serviceName credentials) then throw NoHostNorService
       else
         writeUrl url (with_host u (Some (formatHost (default [] (serviceName credentials))
                                                     (regionName credentials))));;
         mret {| accessKey := accessKey credentials; secretKey := secretKey credentials;
                 regionName := Some (default DEFAULT_REGION (regionName credentials));
                 serviceName := serviceName credentials |}
     else if falsy (serviceName credentials) || falsy (regionName credentials) then
       match parseHost (default [] (url_host u)) with
       | Some info =>
           mret {| accessKey := accessKey credentials; secretKey := secretKey credentials;
                   regionName := Some (default (hi_regionName info) (regionName credentials));
                   serviceName := Some (default (hi_serviceName info) (serviceName credentials)) |}
       | None => throw (UnparsableHost (url_host u))
       end
     else mret credentials);
  u ← readUrl url;
  headers ← from_option (fun l => Some <$> readObject l) (mret None) (req_headers req);
  let headers :=
    if falsy (getHeader headers (lit "host")).2
    then Some (obj_set (lit "host") (from_option VString VUndefined (url_host u))
                       (default [] headers))
    else headers in
  query ← from_option mret (allocParams []) (url_searchParams u);
  q ← readParams query;
  result ← lift (signRequestRaw now credentials
                   (if falsy (req_method req) then lit "GET" else default [] (req_method req))
                   (if falsy (url_pathname u) then lit "/" else default [] (url_pathname u))
                   q (default [] headers) (req_body req) options);
  (if truthy (opt_set options) then
     if truthy (opt_query options) then
       u ← readUrl url;
       (if url_searchParams u is None
        then writeUrl url (with_searchParams u (Some query)) else mret tt);;
       q ← readParams query;
       writeParams query (foldl (fun q p => usp_set p.1 (toStr p.2) q) q result);;
       req ← readRequest request;
       match req_url req with
       | inl s => href ← urlToString s url; writeRequest request (with_url req (inl href))
       | inr _ => mret tt
       end
     else
       req ← readRequest request;
       rh ← from_option mret
               (l ← allocObject [];
                writeRequest request (with_headers req (Some l));; mret l)
               (req_headers req);
       o ← readObject rh;
       writeObject rh (obj_assign o result)
   else mret tt);;
  mret result.

(** *** s3.js *)

Definition EXPIRES_MAX : Z := 604800.
Definition PAYLOAD_UNSIGNED : jsstring := lit "UNSIGNED-PAYLOAD".

(** [{ ...S3_OPTIONS, ...options }] *)
Definition withS3Options (options : Options) : Options :=
  {| opt_set := opt_set options; opt_query := opt_query options;
     opt_setContentHash := Some (default true (opt_setContentHash options));
     opt_dontNormalize := Some (default true (opt_dontNormalize options));
     opt_onlyEncodeOnce := Some (default true (opt_onlyEncodeOnce options));
     opt_getSigningData := opt_getSigningData options |}.

Definition patchURL (request : loc) (extra : JSObject) (url : loc) (set : bool)
  : M Heap loc :=
  req ← readRequest request;
  url ←
    (if set || negb (bool_decide (req_url req = inr url)) then
       u ← readUrl url;
       (if url_searchParams u is None
        then q ← allocParams []; writeUrl url (with_searchParams u (Some q))
        else mret tt);;
       mret url
     else
       u ← readUrl url;
       old ← from_option readParams (mret []) (url_searchParams u);
       q ← allocParams old;
       allocUrl {| url_host := url_host u; url_pathname := url_pathname u;
                   url_searchParams := Some q |});
  u ← readUrl url;
  match url_searchParams u with
  | Some ql =>
      q ← readParams ql;
      writeParams ql (foldl (fun q p => usp_set p.1 (toStr p.2) q) q extra)
  | None => throw (TypeError "searchParams")
  end;;
  mret url.

Definition signS3Request (now : jsstring) (credentials : Credentials) (request : loc)
    (options : Options) : M Heap JSObject :=
  let isQuery := truthy (opt_query options) in
  req ← readRequest request;
  let unsigned := default isQuery (req_unsigned req) in
  url ← resolveUrl (req_url req);
  '(extra, url) ←
    (if isQuery then
       u ← readUrl url;
       has ← from_option (fun l => usp_has (lit "X-Amz-Expires") <$> readParams l)
                         (mret false) (url_searchParams u);
       if negb has then
         let extra : JSObject := [(lit "X-Amz-Expires", VString (toString10 EXPIRES_MAX))] in
         url ← patchURL request extra url (truthy (opt_set options));
         mret (extra, url)
       else mret ([], url)
     else
       (if truthy (opt_set options) then
          if req_headers req is None
          then l ← allocObject []; writeRequest request (with_headers req (Some l))
          else mret tt
        else mret tt);;
       mret ([], url));
  let body := if unsigned then Some (BodyHash PAYLOAD_UNSIGNED) else req_body req in
  req ← readRequest request;
  request' ← allocRequest (with_body (with_url req (inr url)) body);
  u ← readUrl url;
  let credentials :=
    if falsy (url_host u)
    then {| accessKey := accessKey credentials; secretKey := secretKey credentials;
            regionName := regionName credentials;
            serviceName := Some (default (lit "s3") (serviceName credentials)) |}
    else credentials in
  signed ← signRequest now credentials request' (withS3Options options);
  let result := obj_assign extra signed in
  original ← readRequest request;
  (if truthy (opt_set options) && isQuery then
     match req_url original with
     | inl s => href ← urlToString s url; writeRequest request (with_url original (inl href))
     | inr _ => mret tt
     end
   else mret tt);;
  original ← readRequest request;
  match req_url original with
  | inr ol =>
      ou ← readUrl ol;
      if falsy (url_host ou)
      then u ← readUrl url; writeUrl ol (with_host ou (url_host u))
      else mret tt
  | inl _ => mret tt
  end;;
  mret result.

(** *** s3_chunked.js *)

Definition PAYLOAD_STREAMING : jsstring := lit "STREAMING-AWS4-HMAC-SHA256-PAYLOAD".
Definition CHUNK_MIN : Z := 8 * 1024.
Definition ALGORITHM_STREAMING : jsstring := lit "AWS4-HMAC-SHA256-PAYLOAD".

(** Numbers are integers here, so [Math.floor(x) !== x] never holds. *)
Definition calculateChunks (bodyLength chunkLength : Z) : Res (Z * Z) :=
  if chunkLength <? CHUNK_MIN then Throw InvalidChunkLength
  else if bodyLength <? 0 then Throw InvalidBodyLength
  else
    let chunks := bodyLength / chunkLength in
    Ok (chunks, bodyLength - chunks * chunkLength).

Definition signS3Chunk (lastSignature : jsstring) (signing : SigningData)
    (timestamp : jsstring) (chunk : option Chunk) : jsstring :=
  let digest := join [10%N]
     [lastSignature; EMPTY_HASH; hashBody (chunk_body <$> chunk)] in
  toHex (signDigest ALGORITHM_STREAMING digest timestamp signing).

(** The header of a frame, [`${n.toString(16)};chunk-signature=`]. *)
Definition frameHeader (n : Z) : jsstring := toString16 n ++ lit ";chunk-signature=".

(** The first statements of [signS3ChunkedRequest]: the chunk count, the
    three frame headers and the total length. *)
Record ChunkedLengths : Type := {
  cl_chunks : Z;
  cl_lastLength : Z;
  cl_chunkHeader : jsstring;
  cl_lastHeader : jsstring;
  cl_finalHeader : jsstring;
  cl_totalLength : Z;
}.

Definition chunkedLengths (bodyLength chunkLength : Z) : Res ChunkedLengths :=
  '(chunks, lastLength) ← calculateChunks bodyLength chunkLength;
  let chunkHeader := frameHeader chunkLength in
  let lastHeader := frameHeader lastLength in
  let finalHeader := lit "0;chunk-signature=" in
  let totalLength :=
    bodyLength + (jslength chunkHeader + 64 + 4) * chunks
    + (if lastLength =? 0 then 0 else jslength lastHeader + 64 + 4)
    + jslength finalHeader + 64 + 4 in
  mret {| cl_chunks := chunks; cl_lastLength := lastLength;
          cl_chunkHeader := chunkHeader; cl_lastHeader := lastHeader;
          cl_finalHeader := finalHeader; cl_totalLength := totalLength |}.

(** The closure [chunkSigner]. *)
Definition chunkSigner (env : SignerEnv) (chunk : option Chunk)
  : M SignerState jsstring :=
  isDone ← gets done;
  if isDone : bool then throw PayloadComplete else
  dataCount0 ← gets dataCount;
  let '(length, header) :=
    if bodyLength env - dataCount0 <? chunkLength env
    then (if negb (dataCount0 =? bodyLength env)
          then (lastLength env, lastHeader env)
          else (0, finalHeader env))
    else (chunkLength env, chunkHeader env) in
  if negb (from_option chunk_length 0 chunk =? length)
  then throw (UnexpectedChunkSize (chunk_length <$> chunk) length) else
  modify (fun s => {| signature := signS3Chunk (signature s) (signing env) (timestamp env) chunk;
                      dataCount := dataCount s; done := done s |});;
  modify (fun s => {| signature := signature s;
                      dataCount := dataCount s + length; done := done s |});;
  modify (fun s => {| signature := signature s;
                      dataCount := dataCount s; done := length =? 0 |});;
  dataCount1 ← gets dataCount;
  signature1 ← gets signature;
  mret ((if dataCount1 =? length then [] else CRLF)
        ++ header ++ signature1 ++ CRLF ++ (if length =? 0 then CRLF else [])).

(** [/^\s*aws-chunked\s*($|,)/i.test(encoding)] *)
Fixpoint matchPrefixCI (pattern s : jsstring) : option jsstring :=
  match pattern, s with
  | [], _ => Some s
  | p :: pattern', c :: s' =>
      if (if (65 <=? c) && (c <=? 90) then c + 32 else c)%N =? p then matchPrefixCI pattern' s'
      else None
  | _ :: _, [] => None
  end%N.

Definition startsAwsChunked (encoding : jsstring) : bool :=
  match matchPrefixCI (lit "aws-chunked") (trimLeft encoding) with
  | Some rest =>
      match trimLeft rest with
      | [] => true
      | c :: _ => (c =? 44)%N
      end
  | None => false
  end.

Definition patchHeaders (request : loc) (extra : JSObject) (set : bool) : M Heap loc :=
  req ← readRequest request;
  headers ←
    (if set then
       from_option mret
         (l ← allocObject [];
          writeRequest request (with_headers req (Some l));; mret l)
         (req_headers req)
     else
       old ← from_option readObject (mret []) (req_headers req);
       allocObject old);
  o ← readObject headers;
  writeObject headers (obj_assign o extra);;
  mret headers.

(** What [signS3ChunkedRequest] builds once the request itself is signed:
    the constants and the initial variables of the chunk signer, from the
    hex signature of the request and the derived signing data. *)
Definition signerEnv (bodyLength chunkLength : Z) (l : ChunkedLengths)
    (signing : SigningData) (timestamp : jsstring) : SignerEnv :=
  {| bodyLength := bodyLength; chunkLength := chunkLength;
     lastLength := cl_lastLength l;
     chunkHeader := cl_chunkHeader l; lastHeader := cl_lastHeader l;
     finalHeader := cl_finalHeader l;
     signing := signing; timestamp := timestamp |}.

Definition signerInit (seed : jsstring) : SignerState :=
  {| signature := seed; dataCount := 0; done := false |}.

(** [signS3ChunkedRequest]: the parameters, and the chunk signer as the
    constants and the initial variables of its closure. *)
Definition signS3ChunkedRequest (now : jsstring) (credentials : Credentials)
    (request : loc) (bodyLength chunkLength : Z) (options : Options)
  : M Heap (JSObject * (SignerEnv * SignerState)) :=
  req ← readRequest request;
  headers ← from_option (fun l => Some <$> readObject l) (mret None) (req_headers req);
  lengths ← lift (chunkedLengths bodyLength chunkLength);
  let '(encodingName, encoding) := getHeader headers (lit "content-encoding") in
  let extra : JSObject :=
    if negb (negb (falsy encoding) && startsAwsChunked (default [] encoding))
    then obj_set encodingName
           (VString (lit "aws-chunked"
                     ++ (if falsy encoding then [] else lit "," ++ default [] encoding)))
           []
    else [] in
  let timestamp := (getHeader headers (lit "x-amz-date")).2 in
  '(timestamp, extra) ←
    (if falsy timestamp then
       ts ← lift (formatTimestamp now);
       mret (ts, obj_set (lit "x-amz-date") (VString ts) extra)
     else mret (default [] timestamp, extra));
  let extra := obj_set (lit "content-length") (VNumber (cl_totalLength lengths)) extra in
  let extra := obj_set (lit "x-amz-decoded-content-length") (VNumber bodyLength) extra in
  headers ← patchHeaders request extra (truthy (opt_set options));
  req ← readRequest request;
  request' ← allocRequest (with_body (with_headers req (Some headers))
                                     (Some (BodyHash PAYLOAD_STREAMING)));
  signed ← signS3Request now credentials request'
             {| opt_set := opt_set options; opt_query := Some false;
                opt_setContentHash := opt_setContentHash options;
                opt_dontNormalize := opt_dontNormalize options;
                opt_onlyEncodeOnce := opt_onlyEncodeOnce options;
                opt_getSigningData := opt_getSigningData options |};
  let parameters := obj_assign extra signed in
  req' ← readRequest request';
  original ← readRequest request;
  writeRequest request (with_url original (req_url req'));;
  auth ← lift (match obj_get (lit "authorization") parameters with
               | Some (VString header) => parseAuthorization header
               | _ => Throw (TypeError "header")
               end);
  match drop 2 (take 4 (split 47%N (auth_credential auth))) with
  | [regionName; serviceName] =>
      let derive := default getSigningData (opt_getSigningData options) in
      let signing := derive timestamp (secretKey credentials) regionName serviceName in
      mret (parameters,
            (signerEnv bodyLength chunkLength lengths signing timestamp,
             signerInit (toHex (auth_signature auth))))
  | _ => throw (TypeError "data")
  end.

(** *** core.js: the date stamp *)

(** [formatDate()]; [now] is [new Date().toISOString()]. *)
Definition formatDate (now : jsstring) : Res jsstring :=
  if negb (length now =? 24)%nat then Throw UnexpectedISOString
  else Ok (filter (fun c => c <> 45%N) (substring now 0 10)).

(** *** s3_chunked.js: the transform stream of [createS3PayloadSigner] *)

(** What the stream pushes downstream: a string or a [Buffer]. *)
Inductive Piece : Type :=
  | PieceString (s : jsstring)
  | PieceBuffer (data : list byte).

(** The variables of the closure, [pending], [length] and [hash] (as the
    bytes the hash object has been updated with), with the variables of the
    chunk signer and what the stream has pushed downstream. *)
Record StreamState : Type := {
  ps_pending : list (list byte);
  ps_length : Z;
  ps_hash : list byte;
  ps_signer : SignerState;
  ps_pushed : list Piece;
}.

Definition buf_length (data : list byte) : Z := Z.of_nat (length data).

(** [Buffer.prototype.slice(start, end)]: an index below zero counts from
    the end, and both indices are brought into the buffer. *)
Definition slice_index (len i : Z) : Z :=
  if i <? 0 then Z.max (len + i) 0 else Z.min i len.
Definition buf_slice (data : list byte) (a b : Z) : list byte :=
  let a' := slice_index (buf_length data) a in
  let b' := slice_index (buf_length data) b in
  take (Z.to_nat (b' - a')) (drop (Z.to_nat a') data).
Definition buf_slice_from (data : list byte) (a : Z) : list byte :=
  buf_slice data a (buf_length data).

(** [stream.push(x)] *)
Definition stream_push (ps : list Piece) : M StreamState unit :=
  modify (fun s => {| ps_pending := ps_pending s; ps_length := ps_length s;
                      ps_hash := ps_hash s; ps_signer := ps_signer s;
                      ps_pushed := ps_pushed s ++ ps |}).

(** A call of the chunk signer, on its own variables. *)
Definition callSigner (env : SignerEnv) (chunk : option Chunk) : M StreamState jsstring :=
  fun s =>
    let (r, sg) := chunkSigner env chunk (ps_signer s) in
    (r, {| ps_pending := ps_pending s; ps_length := ps_length s;
           ps_hash := ps_hash s; ps_signer := sg; ps_pushed := ps_pushed s |}).

Definition pushData (data : list byte) : M StreamState unit :=
  modify (fun s => {| ps_pending := ps_pending s ++ [data];
                      ps_length := ps_length s + buf_length data;
                      ps_hash := ps_hash s ++ data;
                      ps_signer := ps_signer s; ps_pushed := ps_pushed s |}).

Definition flushData (env : SignerEnv) : M StreamState unit :=
  h ← gets ps_hash;
  len ← gets ps_length;
  frame ← callSigner env (Some (ChunkDescription (toHex (sha256 h)) len));
  stream_push [PieceString frame];;
  pending ← gets ps_pending;
  stream_push (PieceBuffer <$> pending);;
  modify (fun s => {| ps_pending := []; ps_length := 0; ps_hash := [];
                      ps_signer := ps_signer s; ps_pushed := ps_pushed s |}).

(** The [while] loop of [transform], run for at most [fuel] iterations;
    [None] when the loop has not ended by then. *)
Fixpoint transform_loop (fuel : nat) (env : SignerEnv) (data : list byte)
    (st : StreamState) : option (Res unit * StreamState) :=
  if ps_length st + buf_length data >=? chunkLength env then
    match fuel with
    | O => None
    | S fuel' =>
        let l := chunkLength env - ps_length st in
        match (pushData (buf_slice data 0 l);; flushData env) st with
        | (Ok _, st') => transform_loop fuel' env (buf_slice_from data l) st'
        | (Throw e, st') => Some (Throw e, st')
        end
    end
  else Some ((if buf_length data =? 0 then mret tt else pushData data) st).

(** [transform(data, _, callback)]; an iteration of the loop that flushes a
    chunk consumes at least one byte of [data] whenever fewer than
    [chunkLength] bytes are pending, so [data.length] iterations and one
    more test are allowed for. *)
Definition transform (env : SignerEnv) (data : list byte) (st : StreamState)
  : option (Res unit * StreamState) :=
  transform_loop (S (length data)) env data st.

(** [final(callback)] *)
Definition final (env : SignerEnv) : M StreamState unit :=
  len ← gets ps_length;
  (if len =? 0 then mret tt else flushData env);;
  frame ← callSigner env None;
  stream_push [PieceString frame].

Definition streamInit (signer : SignerState) : StreamState :=
  {| ps_pending := []; ps_length := 0; ps_hash := []; ps_signer := signer;
     ps_pushed := [] |}.


(** *** src/http.ts: the canonical query of the TypeScript source

    The loop leaves the function on an empty key, [return] where
    [dist/http.js] has [continue]; [None] stands for [undefined]. *)
Definition getCanonicalQuery_ts (pquery : URLSearchParams) : option jsstring :=
  parts ←
    foldl (fun (acc : option (list jsstring)) key =>
             parts ← acc;
             if bool_decide (key = []) then None
             else
               let pkey := escape key ++ lit "=" in
               Some (foldl (fun parts value => parts ++ [pkey ++ escape value])
                           parts (sort (usp_getAll key pquery))))
          (Some []) (sort (newSet (usp_keys pquery)));
  Some (join (lit "&") parts).

(** *** src/http.ts: [parseAuthorization] of the TypeScript source

    It asks for exactly three fields, trims the name and the value of each,
    and tests the signature with [/^([0-9a-z]{2})+$/i]. *)
Definition is_alnum (c : codeunit) : bool :=
  ((48 <=? c) && (c <=? 57) || (97 <=? c) && (c <=? 122) || (65 <=? c) && (c <=? 90))%N.

Fixpoint alnumPairs (s : jsstring) : bool :=
  match s with
  | c :: d :: s' =>
      is_alnum c && is_alnum d && match s' with [] => true | _ => alnumPairs s' end
  | _ => false
  end.

Definition parseAuthorization_ts (header : jsstring) : Res Authorization :=
  parts ← split1 header 32%N;
  let rawFields := split 44%N parts.2 in
  if negb (length rawFields =? 3)%nat then Throw InvalidAuthorizationFields else
  pairs ← mapM (fun x => p ← split1 x 61%N; mret (trim p.1, trim p.2)) rawFields;
  let fields := newMap pairs in
  match fields !! lit "Signature", fields !! lit "Credential",
        fields !! lit "SignedHeaders" with
  | Some sig, Some credential, Some signedHeaders =>
      if negb (alnumPairs sig) then Throw InvalidSignatureFormat
      else Ok {| auth_algorithm := trim parts.1;
                 auth_credential := credential;
                 auth_signedHeaders := signedHeaders;
                 auth_signature := fromHex sig |}
  | _, _, _ => Throw InvalidAuthorizationFields
  end.

(** ** Vocabulary of the statements *)

(** A driver calls the signer with one argument after the other; the
    variables of the closure persist from call to call, and a call that
    throws is caught by the driver. *)
Fixpoint run (env : SignerEnv) (calls : list (option Chunk)) (st : SignerState)
  : list (Res jsstring) * SignerState :=
  match calls with
  | [] => ([], st)
  | c :: calls' =>
      let (r, st') := chunkSigner env c st in
      let (rs, st'') := run env calls' st' in
      (r :: rs, st'')
  end.

(** The length a call is made with, [(chunk ? chunk.length : 0)]. *)
Definition call_length (c : option Chunk) : Z := from_option chunk_length 0 c.

(** The number of calls that returned. *)
Definition successes {A} (rs : list (Res A)) : nat := length (filter (fun r => is_ok r = true) rs).

(** The bytes of the calls that returned. *)
Fixpoint accepted_bytes {A} (calls : list (option Chunk)) (rs : list (Res A)) : Z :=
  match calls, rs with
  | c :: calls', Ok _ :: rs' => call_length c + accepted_bytes calls' rs'
  | _ :: calls', Throw _ :: rs' => accepted_bytes calls' rs'
  | _, _ => 0
  end.

(** The expected length of the next call, in the words of the call
    contract. *)
Definition expectedLength (bodyLength chunkLength lastLength bytesSigned : Z) : Z :=
  if bodyLength - bytesSigned >=? chunkLength then chunkLength
  else if negb (bytesSigned =? bodyLength) then lastLength
  else 0.

(** The number of calls of a complete chain. *)
Definition chainCalls (chunks lastLength : Z) : Z :=
  chunks + (if lastLength >? 0 then 1 else 0) + 1.

(** The timestamp a request carries: the [X-Amz-Date] query parameter for
    query signing, the [x-amz-date] header otherwise. *)
Definition explicitTimestamp (options : Options) (query : URLSearchParams)
    (headers : JSObject) : option jsstring :=
  if truthy (opt_query options) then usp_get (lit "X-Amz-Date") query
  else (getHeader (Some headers) (lit "x-amz-date")).2.

(** A string without white space at its right end, at its left end. *)
Definition noTrailingSpace (s : jsstring) : Prop := trimRight s = s.
Definition noLeadingSpace (s : jsstring) : Prop := trimLeft s = s.

(** The well-formed authorization records, in the words of the round-trip
    property: an algorithm without spaces, a credential and signed headers
    without [,] and [=], a signature that is not empty. *)
Definition wellFormedAuthorization (x : Authorization) : Prop :=
  (32%N ∉ auth_algorithm x) /\
  (44%N ∉ auth_credential x) /\ (61%N ∉ auth_credential x) /\
  (44%N ∉ auth_signedHeaders x) /\ (61%N ∉ auth_signedHeaders x) /\
  auth_signature x <> [].

(** A field of the header: its text, trimmed, is a name without [=], then
    [=], then the value. *)
Definition fieldOf (raw : jsstring) (p : jsstring * jsstring) : Prop :=
  trim raw = p.1 ++ 61%N :: p.2 /\ (61%N ∉ p.1).

(** The value of the last field of a given name. *)
Definition lastValue (name : jsstring) (pairs : list (jsstring * jsstring))
  : option jsstring :=
  last (filter (fun p => p.1 = name) pairs).*2.

(** The headers [parseAuthorization] is to accept, and what it is to return
    for them: after the leading white space an algorithm, a space and fields
    separated by commas; among the names of the fields [Credential],
    [SignedHeaders] and [Signature], each at least once; the last
    [Signature], [sig], a non-empty sequence of pairs of lower-case
    hexadecimal digits. *)
Definition acceptedHeader (header : jsstring) (r : Authorization) : Prop :=
  exists (alg rest : jsstring) (pairs : list (jsstring * jsstring)) (sig : jsstring),
    trimLeft header = alg ++ 32%N :: rest /\ (32%N ∉ alg) /\
    Forall2 fieldOf (split 44%N rest) pairs /\
    lastValue (lit "Credential") pairs = Some (auth_credential r) /\
    lastValue (lit "SignedHeaders") pairs = Some (auth_signedHeaders r) /\
    lastValue (lit "Signature") pairs = Some sig /\
    sig <> [] /\ Nat.Even (length sig) /\ Forall (fun c => is_lower_hex c = true) sig /\
    auth_signature r = fromHex sig /\
    auth_algorithm r = trim alg.

(** No object sits at a reference that is not in use yet. *)
Definition heap_wf (h : Heap) : Prop :=
  forall l, (h_next h <= l)%nat ->
    h_requests h !! l = None /\ h_urls h !! l = None /\
    h_objects h !! l = None /\ h_params h !! l = None.

(** An object under [url] before and after a call: the same pathname and
    the same [searchParams]; the same host, unless there was none. *)
Definition sameUrl (before after : option UrlObject) : Prop :=
  match before, after with
  | None, None => True
  | Some u, Some u' =>
      url_pathname u' = url_pathname u /\
      url_searchParams u' = url_searchParams u /\
      (url_host u' = url_host u \/ falsy (url_host u) = true)
  | _, _ => False
  end.

(** The objects of the store [h0] as they are in the store [h]: every
    request object, every headers object and every [URLSearchParams] is as it
    was, and so is every url object but for a host it did not have. *)
Definition Unmutated (h0 h : Heap) : Prop :=
  (h_next h0 <= h_next h)%nat /\
  (forall l, (l < h_next h0)%nat -> h_requests h !! l = h_requests h0 !! l) /\
  (forall l, (l < h_next h0)%nat -> h_objects h !! l = h_objects h0 !! l) /\
  (forall l, (l < h_next h0)%nat -> h_params h !! l = h_params h0 !! l) /\
  (forall l, (l < h_next h0)%nat -> sameUrl (h_urls h0 !! l) (h_urls h !! l)).

(** The url objects made since [h0] hold parameters made since [h0]. *)
Definition FreshLinks (h0 h : Heap) : Prop :=
  forall l u q, (h_next h0 <= l)%nat -> h_urls h !! l = Some u ->
    url_searchParams u = Some q -> (h_next h0 <= q)%nat.

Definition Inv (h0 h : Heap) : Prop := Unmutated h0 h /\ FreshLinks h0 h.

(** [wp m Q h]: run from the store [h], the code [m] ends, by returning or
    by throwing, in a store that satisfies [Q]. *)
Definition wp {A} (m : M Heap A) (Q : Res A -> Heap -> Prop) (h : Heap) : Prop :=
  Q (m h).1 (m h).2.

(** The expected length and the header of the next call of a signer that has
    signed [bytesSigned] bytes. *)
Definition expectedFor (env : SignerEnv) (bytesSigned : Z) : Z :=
  expectedLength (bodyLength env) (chunkLength env) (lastLength env) bytesSigned.

Definition headerFor (env : SignerEnv) (bytesSigned : Z) : jsstring :=
  if bodyLength env - bytesSigned >=? chunkLength env then chunkHeader env
  else if negb (bytesSigned =? bodyLength env) then lastHeader env
  else finalHeader env.

(** The lengths of an environment are those [calculateChunks] returns. *)
Definition ValidEnv (env : SignerEnv) (chunks : Z) : Prop :=
  CHUNK_MIN <= chunkLength env /\ 0 <= bodyLength env /\
  chunks = bodyLength env / chunkLength env /\
  lastLength env = bodyLength env - chunks * chunkLength env.

(** The variables of the signer after [n] calls have returned. *)
Definition AfterCalls (env : SignerEnv) (chunks n : Z) (st : SignerState) : Prop :=
  0 <= n <= chainCalls chunks (lastLength env) /\
  dataCount st = Z.min (n * chunkLength env) (bodyLength env) /\
  done st = (n =? chainCalls chunks (lastLength env)).


(** A call of a given length: a descriptor of a chunk, and no argument for
    the terminal call. *)
Definition callOfLength (n : Z) : option Chunk :=
  if n =? 0 then None else Some (ChunkDescription (lit "00") n).

(** A driver that follows the contract: each call has the length the
    contract expects at that point. *)
Fixpoint drive (env : SignerEnv) (fuel : nat) (st : SignerState) : list (option Chunk) :=
  match fuel with
  | O => []
  | S fuel' =>
      let c := callOfLength (expectedFor env (dataCount st)) in
      c :: drive env fuel' (chunkSigner env c st).2
  end.

(** The headers of an environment are those [signS3ChunkedRequest] builds. *)
Definition FramedEnv (env : SignerEnv) : Prop :=
  chunkHeader env = frameHeader (chunkLength env) /\
  lastHeader env = frameHeader (lastLength env) /\
  finalHeader env = frameHeader 0.

(** The length of call number [i] (from 0) of a chain. *)
Definition lengthAt (env : SignerEnv) (chunks i : Z) : Z :=
  if i <? chunks then chunkLength env
  else if (i =? chunks) && (lastLength env >? 0) then lastLength env
  else 0.


Definition AllOk {A} (rs : list (Res A)) : Prop := Forall (fun r => is_ok r = true) rs.



(** The arguments of the calls that returned. *)
Fixpoint accepted_calls {A} (calls : list (option Chunk)) (rs : list (Res A))
  : list (option Chunk) :=
  match calls, rs with
  | c :: calls', Ok _ :: rs' => c :: accepted_calls calls' rs'
  | _ :: calls', Throw _ :: rs' => accepted_calls calls' rs'
  | _, _ => []
  end.

Definition is_digit (c : codeunit) : bool := ((48 <=? c) && (c <=? 57))%N.

(** A string that begins with a date as [toISOString] writes it,
    [YYYY-MM-DD], and has the 24 code units of an ISO timestamp. *)
Definition isoDated (now : jsstring) : bool :=
  (length now =? 24)%nat &&
  match now with
  | y1 :: y2 :: y3 :: y4 :: s1 :: m1 :: m2 :: s2 :: d1 :: d2 :: _ =>
      forallb is_digit [y1; y2; y3; y4; m1; m2; d1; d2] && (s1 =? 45)%N && (s2 =? 45)%N
  | _ => false
  end.

(** A stream that is written the given buffers and then ended; a throw ends
    it. *)
Fixpoint runStream (env : SignerEnv) (writes : list (list byte)) (st : StreamState)
  : option (Res unit * StreamState) :=
  match writes with
  | [] => Some (final env st)
  | data :: writes' =>
      match transform env data st with
      | Some (Ok _, st') => runStream env writes' st'
      | other => other
      end
  end.

(** What goes over the wire: the code units of the strings and the bytes of
    the buffers, in the order pushed. *)
Definition wire (ps : list Piece) : list (codeunit + byte) :=
  ps ≫= (fun p => match p with
                  | PieceString s => inl <$> s
                  | PieceBuffer data => inr <$> data
                  end).

(** The body cut into chunks of [c] bytes, the last one possibly shorter. *)
Fixpoint chunked_from (fuel c : nat) (body : list byte) : list (list byte) :=
  match fuel, body with
  | S fuel', _ :: _ => take c body :: chunked_from fuel' c (drop c body)
  | _, _ => []
  end.
Definition chunked (c : Z) (body : list byte) : list (list byte) :=
  chunked_from (length body) (Z.to_nat c) body.

(** The [aws-chunked] encoding, as the comment in the source has it:
    [[LENGTH];chunk-signature=[SIGNATURE]\r\n[BYTES]\r\n] for every chunk and
    for the empty chunk that ends the body, each signature being that of the
    chunk's digest chained to the signature before. *)
Definition describe (chunk : list byte) : option Chunk :=
  Some (ChunkDescription (toHex (sha256 chunk)) (buf_length chunk)).
Definition chunkFrame (sig : jsstring) (chunk : list byte) : list Piece :=
  [PieceString (toString16 (buf_length chunk) ++ lit ";chunk-signature=" ++ sig ++ CRLF);
   PieceBuffer chunk; PieceString CRLF].
Definition chainSig (env : SignerEnv) (seed : jsstring) (chunks : list (list byte))
  : jsstring :=
  foldl (fun sig chunk => signS3Chunk sig (signing env) (timestamp env) (describe chunk))
        seed chunks.
Fixpoint bodyFrames (env : SignerEnv) (sig : jsstring) (chunks : list (list byte))
  : list Piece :=
  match chunks with
  | [] => []
  | chunk :: rest =>
      let sig' := signS3Chunk sig (signing env) (timestamp env) (describe chunk) in
      chunkFrame sig' chunk ++ bodyFrames env sig' rest
  end.
Definition awsChunked (env : SignerEnv) (seed : jsstring) (body : list byte)
  : list Piece :=
  let chunks := chunked (chunkLength env) body in
  bodyFrames env seed chunks
  ++ chunkFrame (signS3Chunk (chainSig env seed chunks) (signing env) (timestamp env) None) [].

(** What the stream maintains between two statements of [transform]: the
    chunks [cs] have been flushed and signed, and fewer than [chunkLength]
    bytes are pending. *)
Definition StreamInv (env : SignerEnv) (seed : jsstring) (cs : list (list byte))
    (st : StreamState) : Prop :=
  Forall (fun c => buf_length c = chunkLength env) cs /\
  ps_hash st = concat (ps_pending st) /\
  ps_length st = buf_length (ps_hash st) /\
  ps_length st < chunkLength env /\
  ps_signer st = {| signature := chainSig env seed cs;
                    dataCount := Z.of_nat (length cs) * chunkLength env;
                    done := false |} /\
  Z.of_nat (length cs) * chunkLength env <= bodyLength env /\
  wire (ps_pushed st) ++ wire (match cs with [] => [] | _ => [PieceString CRLF] end)
  = wire (bodyFrames env seed cs).

(** A string without [/]. *)
Definition noSlash (s : jsstring) : Prop := 47%N ∉ s.

(** The results of a sequence of calls of one cached function. *)
Fixpoint runCache (calls : list (jsstring * jsstring * jsstring * jsstring))
    (st : CacheState) : list (Res (option SigningData)) :=
  match calls with
  | [] => []
  | (a, b, c, d) :: calls' =>
      let (r, st') := _cached_getSigningData a b c d st in
      r :: runCache calls' st'
  end.

(** What the cache holds: nothing, or the signing data of the arguments its
    key was joined from. *)
Definition CacheInv (st : CacheState) : Prop :=
  cache_key st = None \/
  exists a b c d,
    noSlash a /\ noSlash b /\ noSlash c /\
    cache_key st = Some (join (lit "/") [a; b; c; d]) /\
    cache_value st = Some (getSigningData a b c d).

(** The unreserved characters of a URI: letters, digits, [-], [.], [_], [~]. *)
Definition is_unreserved (c : codeunit) : bool :=
  ((65 <=? c) && (c <=? 90) || (97 <=? c) && (c <=? 122) || (48 <=? c) && (c <=? 57)
   || (c =? 45) || (c =? 46) || (c =? 95) || (c =? 126))%N.

(** Percent-decoding: [%XY] is the byte with the hexadecimal digits [X] and
    [Y], any other code unit the byte of its value. *)
Fixpoint percentDecode (s : jsstring) : list byte :=
  match s with
  | [] => []
  | c :: rest =>
      match rest with
      | h :: l :: s' =>
          match (if (c =? 37)%N then hex_value h else None), hex_value l with
          | Some a, Some b => byte_of_N (16 * a + b) :: percentDecode s'
          | _, _ => byte_of_N c :: percentDecode rest
          end
      | _ => byte_of_N c :: percentDecode rest
      end
  end.

(** The value a header is signed with: [value.map(trim).join(',')] for an
    array, [trim(value + '')] for any other value. *)
Definition canonicalValue (value : Value) : jsstring :=
  match value with
  | VArray l => join (lit ",") (trimHeader <$> l)
  | _ => trimHeader (toStr value)
  end.

(** The names of the headers in lower case, and the headers as they are
    signed. *)
Definition headerNames (headers : JSObject) : list jsstring :=
  toLowerCase <$> headers.*1.
Definition normalizedHeaders (headers : JSObject) : list (jsstring * jsstring) :=
  (fun p => (toLowerCase p.1, canonicalValue p.2)) <$> headers.

(** * Theorems *)

(** Comparisons of integers, decided case by case. *)
Ltac bool_split :=
  repeat match goal with
         | |- context [?a =? ?b] => destruct (Z.eqb_spec a b)
         | |- context [?a >? ?b] => destruct (Z.gtb_spec a b)
         | |- context [?a <? ?b] => destruct (Z.ltb_spec a b)
         | |- context [?a >=? ?b] => destruct (Z.geb_spec a b)
         | _ : context [?a >? ?b] |- _ => destruct (Z.gtb_spec a b)
         end.
Ltac bool_arith := bool_split; try reflexivity; try lia; try nia.


(** ** The chunk signer *)

(** One call, case by case. *)
Lemma chunkSigner_unfold env c st :
  chunkSigner env c st =
    if done st then (Throw PayloadComplete, st)
    else
      let len := expectedFor env (dataCount st) in
      if call_length c =? len then
        let sig := signS3Chunk (signature st) (signing env) (timestamp env) c in
        (Ok ((if dataCount st + len =? len then [] else CRLF)
             ++ headerFor env (dataCount st) ++ sig ++ CRLF
             ++ (if len =? 0 then CRLF else [])),
         {| signature := sig; dataCount := dataCount st + len; done := len =? 0 |})
      else (Throw (UnexpectedChunkSize (chunk_length <$> c) len), st).
Proof.
  unfold chunkSigner, expectedFor, expectedLength, headerFor, call_length.
  unfold mbind, M_bind, gets, throw, modify, mret, M_ret; simpl.
  destruct (done st); [reflexivity|].
  rewrite Z.geb_leb, Z.leb_antisym.
  destruct (bodyLength env - dataCount st <? chunkLength env); simpl;
    [destruct (dataCount st =? bodyLength env); simpl|];
    destruct (from_option chunk_length 0 c =? _); reflexivity.
Qed.

Lemma ValidEnv_bounds env chunks :
  ValidEnv env chunks ->
  0 < chunkLength env /\ 0 <= chunks /\
  chunks * chunkLength env <= bodyLength env < (chunks + 1) * chunkLength env /\
  0 <= lastLength env < chunkLength env.
Proof.
  unfold ValidEnv, CHUNK_MIN. intros (Hc & Hb & -> & Hl).
  assert (0 < chunkLength env) by lia.
  pose proof (Z.mul_div_le (bodyLength env) (chunkLength env) ltac:(lia)).
  pose proof (Z.mul_succ_div_gt (bodyLength env) (chunkLength env) ltac:(lia)).
  pose proof (Z.div_pos (bodyLength env) (chunkLength env) ltac:(lia) ltac:(lia)).
  nia.
Qed.

Lemma chunkedLengths_valid bodyLength chunkLength l sg ts :
  chunkedLengths bodyLength chunkLength = Ok l ->
  ValidEnv (signerEnv bodyLength chunkLength l sg ts) (cl_chunks l).
Proof.
  unfold chunkedLengths, calculateChunks, ValidEnv.
  destruct (chunkLength <? CHUNK_MIN) eqn:Hc; [discriminate|].
  destruct (bodyLength <? 0) eqn:Hb; [discriminate|].
  simpl. intros [= <-]. simpl. lia.
Qed.

Lemma AfterCalls_init env chunks seed :
  ValidEnv env chunks -> AfterCalls env chunks 0 (signerInit seed).
Proof.
  intros Hv. destruct (ValidEnv_bounds _ _ Hv) as (? & ? & ? & ?).
  unfold AfterCalls, chainCalls, signerInit; cbn [dataCount done].
  destruct (Z.eqb_spec 0 (chunks + (if lastLength env >? 0 then 1 else 0) + 1));
    destruct (lastLength env >? 0); repeat split; lia.
Qed.

(** The next call after [n] returned calls: a full chunk, then the short
    chunk if there is one, then the terminal marker. *)
Lemma next_call_after env chunks n st :
  ValidEnv env chunks -> AfterCalls env chunks n st -> done st = false ->
  let len := expectedFor env (dataCount st) in
  let hdr := headerFor env (dataCount st) in
  (n < chunks /\ len = chunkLength env /\ hdr = chunkHeader env
   \/ n = chunks /\ 0 < lastLength env /\ len = lastLength env /\ hdr = lastHeader env
   \/ n + 1 = chainCalls chunks (lastLength env) /\ len = 0 /\ hdr = finalHeader env) /\
  dataCount st + len = Z.min ((n + 1) * chunkLength env) (bodyLength env) /\
  (len =? 0) = (n + 1 =? chainCalls chunks (lastLength env)) /\
  (dataCount st =? 0) = (n =? 0).
Proof.
  intros Hv (Hn & Hd & Hdone) Hnd. rewrite Hnd in Hdone.
  destruct (ValidEnv_bounds _ _ Hv) as (Hc & Hk & Hb & Hl).
  destruct Hv as (_ & _ & _ & Hlast).
  symmetry in Hdone. apply Z.eqb_neq in Hdone.
  unfold expectedFor, expectedLength, headerFor, chainCalls in *. rewrite Hd.
  assert (Hcases : n < chunks \/ n = chunks \/ n = chunks + 1 /\ 0 < lastLength env).
  { destruct (lastLength env >? 0) eqn:E; lia. }
  destruct Hcases as [Hlt | [-> | [-> Hpos]]].
  - assert ((n + 1) * chunkLength env <= chunks * chunkLength env) by nia.
    rewrite !Z.min_l by nia.
    destruct (Z.geb_spec (bodyLength env - n * chunkLength env) (chunkLength env)); [|nia].
    split; [left; auto|]. split; [lia|]. split; bool_arith.
  - rewrite Z.min_l by lia.
    destruct (Z.geb_spec (bodyLength env - chunks * chunkLength env) (chunkLength env)); [lia|].
    rewrite Z.min_r by lia.
    destruct (Z.eqb_spec (chunks * chunkLength env) (bodyLength env)) as [E|E]; simpl.
    + split; [right; right; repeat split; bool_arith|].
      split; [lia|]. split; bool_arith.
    + split; [right; left; repeat split; lia|].
      split; [lia|]. split; bool_arith.
  - rewrite Z.min_r by lia. rewrite Z.min_r by nia.
    destruct (Z.geb_spec (bodyLength env - bodyLength env) (chunkLength env)); [lia|].
    rewrite Z.eqb_refl; simpl.
    split; [right; right; repeat split; bool_arith|]. split; [lia|]. split; bool_arith.
Qed.

Lemma chunkSigner_throw env c st e st' :
  chunkSigner env c st = (Throw e, st') -> st' = st.
Proof.
  rewrite chunkSigner_unfold.
  destruct (done st); [congruence|]. simpl.
  destruct (call_length c =? _); congruence.
Qed.

Lemma chunkSigner_done env c st :
  done st = true -> chunkSigner env c st = (Throw PayloadComplete, st).
Proof. intros H. rewrite chunkSigner_unfold, H. reflexivity. Qed.

(** A call that returns was made with the expected length and moves the
    signer one call ahead. *)
Lemma chunkSigner_ok env chunks n c st out st' :
  ValidEnv env chunks -> AfterCalls env chunks n st ->
  chunkSigner env c st = (Ok out, st') ->
  done st = false /\
  call_length c = expectedFor env (dataCount st) /\
  AfterCalls env chunks (n + 1) st' /\
  dataCount st' = dataCount st + call_length c /\
  signature st' = signS3Chunk (signature st) (signing env) (timestamp env) c /\
  out = (if n =? 0 then [] else CRLF) ++ headerFor env (dataCount st)
        ++ signature st' ++ CRLF ++ (if call_length c =? 0 then CRLF else []).
Proof.
  intros Hv Ha. rewrite chunkSigner_unfold.
  destruct (done st) eqn:Hd; [congruence|]. simpl.
  destruct (Z.eqb_spec (call_length c) (expectedFor env (dataCount st))) as [E|E];
    [|congruence].
  intros [= <- <-]; cbn [dataCount done signature].
  destruct (next_call_after _ _ _ _ Hv Ha Hd) as (_ & Hdc & Hz & Hfirst).
  cbv zeta in *. rewrite <- E in *.
  split; [reflexivity|]. split; [reflexivity|]. split.
  - destruct Ha as (Hn & _ & Hdone). rewrite Hd in Hdone.
    symmetry in Hdone. apply Z.eqb_neq in Hdone.
    unfold AfterCalls; cbn [dataCount done].
    split; [lia|]. split; [exact Hdc | exact Hz].
  - split; [reflexivity|]. split; [reflexivity|].
    replace (dataCount st + call_length c =? call_length c) with (dataCount st =? 0)
      by bool_arith.
    rewrite Hfirst. reflexivity.
Qed.

Lemma run_cons env c calls st :
  run env (c :: calls) st =
    ((chunkSigner env c st).1 :: (run env calls (chunkSigner env c st).2).1,
     (run env calls (chunkSigner env c st).2).2).
Proof.
  cbn [run]. destruct (chunkSigner env c st) as [r st1]. cbn [fst snd].
  destruct (run env calls st1) as [rs st2]. reflexivity.
Qed.

Lemma successes_cons_ok {A} (a : A) rs : successes (Ok a :: rs) = S (successes rs).
Proof. reflexivity. Qed.

Lemma successes_cons_throw {A} e (rs : list (Res A)) :
  successes (Throw e :: rs) = successes rs.
Proof. reflexivity. Qed.

(** Any driver: after its calls the signer is as many calls ahead as calls
    have returned, and has counted the bytes of exactly those calls. *)
Lemma run_after env chunks :
  ValidEnv env chunks ->
  forall calls n st,
    AfterCalls env chunks n st ->
    AfterCalls env chunks (n + Z.of_nat (successes (run env calls st).1))
               (run env calls st).2 /\
    dataCount (run env calls st).2
      = dataCount st + accepted_bytes calls (run env calls st).1 /\
    length (run env calls st).1 = length calls.
Proof.
  intros Hv. induction calls as [|c calls IH]; intros n st Ha.
  - simpl. rewrite Z.add_0_r. repeat split; [apply Ha.. | lia].
  - rewrite run_cons. cbn [fst snd].
    destruct (chunkSigner env c st) as [[out|e] st1] eqn:Hc; cbn [fst snd].
    + destruct (chunkSigner_ok _ _ _ _ _ _ _ Hv Ha Hc) as (_ & _ & Ha1 & Hd1 & _).
      destruct (IH _ _ Ha1) as (IH1 & IH2 & IH3).
      rewrite successes_cons_ok. cbn [accepted_bytes length].
      split; [|split; [lia | f_equal; exact IH3]].
      replace (n + Z.of_nat (S (successes (run env calls st1).1)))
        with (n + 1 + Z.of_nat (successes (run env calls st1).1)) by lia.
      exact IH1.
    + apply chunkSigner_throw in Hc as ->.
      destruct (IH _ _ Ha) as (IH1 & IH2 & IH3).
      rewrite successes_cons_throw. cbn [accepted_bytes length].
      split; [exact IH1 | split; [exact IH2 | f_equal; exact IH3]].
Qed.

(** *** Hexadecimal text *)

Lemma hex_digit_lower_ok n : (n < 16)%N -> is_lower_hex (hex_digit_lower n) = true.
Proof.
  intros H. unfold is_lower_hex, hex_digit_lower.
  destruct (N.ltb_spec n 10).
  - replace (48 <=? 48 + n)%N with true by (symmetry; apply N.leb_le; lia).
    replace (48 + n <=? 57)%N with true by (symmetry; apply N.leb_le; lia).
    reflexivity.
  - replace (97 <=? 87 + n)%N with true by (symmetry; apply N.leb_le; lia).
    replace (87 + n <=? 102)%N with true by (symmetry; apply N.leb_le; lia).
    apply orb_true_r.
Qed.

Lemma hex_of_byte_lower b : Forall (fun c => is_lower_hex c = true) (hex_of_byte b).
Proof. destruct b; repeat constructor. Qed.

Lemma toHex_lower buf : Forall (fun c => is_lower_hex c = true) (toHex buf).
Proof.
  induction buf as [|b buf IH]; [constructor|].
  change (toHex (b :: buf)) with (hex_of_byte b ++ toHex buf).
  apply Forall_app. split; [apply hex_of_byte_lower | exact IH].
Qed.

Lemma toHex_length buf : length (toHex buf) = (2 * length buf)%nat.
Proof. induction buf as [|b buf IH]; simpl in *; lia. Qed.

Lemma hex_digits_lower fuel n acc :
  Forall (fun c => is_lower_hex c = true) acc ->
  Forall (fun c => is_lower_hex c = true) (hex_digits fuel n acc).
Proof.
  revert n acc. induction fuel as [|fuel IH]; intros n acc Hacc; simpl; [exact Hacc|].
  assert (Forall (fun c => is_lower_hex c = true) (hex_digit_lower (n mod 16) :: acc)).
  { constructor; [|exact Hacc]. apply hex_digit_lower_ok. apply N.mod_lt. lia. }
  destruct (n / 16 =? 0)%N; auto.
Qed.

Lemma hex_digits_nonempty fuel n acc : hex_digits (S fuel) n acc <> [].
Proof.
  revert n acc. induction fuel as [|fuel IH]; intros n acc; simpl.
  - destruct (n / 16 =? 0)%N; discriminate.
  - destruct (n / 16 =? 0)%N; [discriminate|]. apply (IH (n / 16)%N).
Qed.

(** The hexadecimal text of a length: digits only, at least one. *)
Lemma toString16_digits n :
  0 <= n -> toString16 n <> [] /\ Forall (fun c => is_lower_hex c = true) (toString16 n).
Proof.
  intros Hn. unfold toString16.
  destruct (Z.ltb_spec n 0); [lia|]. rewrite app_nil_l. split.
  - apply hex_digits_nonempty.
  - apply hex_digits_lower. constructor.
Qed.

(** *** Conforming drivers *)

Lemma signS3Chunk_hex sig sg ts c :
  length (signS3Chunk sig sg ts c) = 64%nat /\
  Forall (fun c => is_lower_hex c = true) (signS3Chunk sig sg ts c).
Proof using Type + hmac_sha256_length.
  unfold signS3Chunk, signDigest, signString. split.
  - rewrite toHex_length, hmac_sha256_length. reflexivity.
  - apply toHex_lower.
Qed.

Lemma headerFor_framed env d :
  FramedEnv env -> headerFor env d = frameHeader (expectedFor env d).
Proof.
  intros (H1 & H2 & H3). unfold headerFor, expectedFor, expectedLength.
  destruct (_ >=? _); [exact H1|].
  destruct (negb _); [exact H2 | exact H3].
Qed.

Lemma chunkedLengths_framed bodyLength chunkLength l sg ts :
  chunkedLengths bodyLength chunkLength = Ok l ->
  FramedEnv (signerEnv bodyLength chunkLength l sg ts).
Proof.
  unfold chunkedLengths, FramedEnv.
  destruct (calculateChunks bodyLength chunkLength) as [[chunks last]|]; [|discriminate].
  simpl. intros [= <-]. simpl. repeat split.
Qed.

Lemma call_length_callOfLength n : call_length (callOfLength n) = n.
Proof. unfold callOfLength. destruct (Z.eqb_spec n 0); subst; reflexivity. Qed.

Lemma AllOk_cons {A} (r : Res A) rs :
  AllOk (r :: rs) <-> (exists a, r = Ok a) /\ AllOk rs.
Proof.
  unfold AllOk. rewrite Forall_cons. split.
  - intros [H1 H2]. destruct r; [eauto | discriminate].
  - intros [[a ->] H2]. auto.
Qed.

Lemma AllOk_successes {A} (rs : list (Res A)) : AllOk rs -> successes rs = length rs.
Proof.
  induction rs as [|r rs IH]; [reflexivity|].
  rewrite AllOk_cons. intros [[a ->] H]. rewrite successes_cons_ok. simpl. auto.
Qed.

(** Call number [i] of a driver whose calls all return: its length and what
    it returns. *)
Lemma run_conforming_nth env chunks :
  ValidEnv env chunks -> FramedEnv env ->
  forall calls n st,
    AfterCalls env chunks n st ->
    AllOk (run env calls st).1 ->
    forall (i : nat) c, calls !! i = Some c ->
      n + Z.of_nat i < chainCalls chunks (lastLength env) /\
      call_length c = lengthAt env chunks (n + Z.of_nat i) /\
      exists sig,
        length sig = 64%nat /\ Forall (fun c => is_lower_hex c = true) sig /\
        (run env calls st).1 !! i =
          Some (Ok ((if n + Z.of_nat i =? 0 then [] else CRLF)
                    ++ frameHeader (call_length c) ++ sig ++ CRLF
                    ++ (if call_length c =? 0 then CRLF else []))).
Proof using Type + hmac_sha256_length.
  intros Hv Hf. induction calls as [|c0 calls IH]; intros n st Ha Hok i c Hi.
  - rewrite lookup_nil in Hi. discriminate.
  - rewrite run_cons in *. cbn [fst snd] in *.
    apply AllOk_cons in Hok as [[out Hout] Hok].
    destruct (chunkSigner env c0 st) as [r st1] eqn:Hc. cbn [fst snd] in *. subst r.
    destruct (chunkSigner_ok _ _ _ _ _ _ _ Hv Ha Hc) as (Hnd & Hlen & Ha1 & _ & Hsig & Hout).
    destruct i as [|i].
    + simpl in Hi. injection Hi as <-. rewrite Z.add_0_r.
      destruct (next_call_after _ _ _ _ Hv Ha Hnd) as (Hcases & _ & _ & _).
      cbv zeta in Hcases.
      destruct (ValidEnv_bounds _ _ Hv) as (? & ? & ? & ?).
      split; [|split].
      * destruct Ha as (Hn & _ & Hdone). rewrite Hnd in Hdone.
        symmetry in Hdone. apply Z.eqb_neq in Hdone. lia.
      * rewrite Hlen. unfold lengthAt, chainCalls in *.
        destruct Hcases as [(? & -> & _) | [(? & ? & -> & _) | (? & -> & _)]];
          bool_arith.
      * exists (signature st1). rewrite Hsig.
        split; [apply signS3Chunk_hex|]. split; [apply signS3Chunk_hex|].
        simpl. rewrite Hout, Hsig, (headerFor_framed _ _ Hf), Hlen. reflexivity.
    + simpl in Hi. destruct (IH _ _ Ha1 Hok i c Hi) as (H1 & H2 & sig & H3 & H4 & H5).
      replace (n + Z.of_nat (S i)) with (n + 1 + Z.of_nat i) by lia.
      split; [exact H1|]. split; [exact H2|].
      exists sig. split; [exact H3|]. split; [exact H4|]. exact H5.
Qed.


(** The driver that follows the contract is never refused. *)
Lemma drive_conforming env chunks :
  ValidEnv env chunks ->
  forall fuel n st,
    AfterCalls env chunks n st ->
    n + Z.of_nat fuel <= chainCalls chunks (lastLength env) ->
    AllOk (run env (drive env fuel st) st).1 /\ length (drive env fuel st) = fuel.
Proof.
  intros Hv. induction fuel as [|fuel IH]; intros n st Ha Hle.
  - split; [constructor | reflexivity].
  - cbn [drive]. rewrite run_cons. cbn [fst snd length].
    set (c := callOfLength (expectedFor env (dataCount st))).
    assert (Hnd : done st = false).
    { destruct Ha as (_ & _ & ->). apply Z.eqb_neq. lia. }
    destruct (chunkSigner env c st) as [r st1] eqn:Hc. cbn [fst snd].
    rewrite chunkSigner_unfold, Hnd in Hc. cbv zeta in Hc.
    unfold c in Hc at 1. rewrite call_length_callOfLength, Z.eqb_refl in Hc.
    injection Hc as <- Hst.
    assert (Hc' : chunkSigner env c st = (Ok ((if dataCount st + expectedFor env (dataCount st) =? expectedFor env (dataCount st) then [] else CRLF) ++ headerFor env (dataCount st) ++ signS3Chunk (signature st) (signing env) (timestamp env) c ++ CRLF ++ (if expectedFor env (dataCount st) =? 0 then CRLF else [])), st1)).
    { rewrite chunkSigner_unfold, Hnd. cbv zeta.
      unfold c at 1. rewrite call_length_callOfLength, Z.eqb_refl, Hst. reflexivity. }
    destruct (chunkSigner_ok _ _ _ _ _ _ _ Hv Ha Hc') as (_ & _ & Ha1 & _).
    destruct (IH (n + 1) st1 Ha1 ltac:(lia)) as [IH1 IH2].
    split; [|f_equal; exact IH2].
    apply AllOk_cons. split; [eauto | exact IH1].
Qed.

(** C1. The call contract of the chunk signer. With
    [chunks = floor(bodyLength / chunkLength)] and
    [lastLength = bodyLength - chunks * chunkLength], in every state a driver
    can bring the signer to: a call made after the terminal call throws; a
    call whose length differs from the expected length (the chunk length
    while at least a chunk remains, else the last length if bytes remain,
    else 0) throws; a call of the expected length returns. Whatever the
    driver does, at most [chunks + (lastLength > 0 ? 1 : 0) + 1] calls
    return, the chain is complete exactly when that many have returned, and
    the driver that follows the contract makes exactly that many calls, all
    of which return. *)
Theorem chunkSigner_call_contract bodyLength chunkLength l sg ts seed :
  chunkedLengths bodyLength chunkLength = Ok l ->
  let env := signerEnv bodyLength chunkLength l sg ts in
  let total := chainCalls (cl_chunks l) (cl_lastLength l) in
  cl_chunks l = bodyLength / chunkLength /\
  cl_lastLength l = bodyLength - cl_chunks l * chunkLength /\
  (forall calls c,
      let st := (run env calls (signerInit seed)).2 in
      let expected :=
        expectedLength bodyLength chunkLength (cl_lastLength l) (dataCount st) in
      (done st = true -> chunkSigner env c st = (Throw PayloadComplete, st)) /\
      (done st = false -> call_length c <> expected ->
       chunkSigner env c st
         = (Throw (UnexpectedChunkSize (chunk_length <$> c) expected), st)) /\
      (done st = false -> call_length c = expected ->
       exists out st',
         chunkSigner env c st = (Ok out, st') /\
         dataCount st' = dataCount st + expected /\
         done st' = (expected =? 0))) /\
  (forall calls,
      let rs := (run env calls (signerInit seed)).1 in
      let st := (run env calls (signerInit seed)).2 in
      Z.of_nat (successes rs) <= total /\
      (done st = true <-> Z.of_nat (successes rs) = total)) /\
  (let calls := drive env (Z.to_nat total) (signerInit seed) in
   Z.of_nat (length calls) = total /\
   AllOk (run env calls (signerInit seed)).1 /\
   done (run env calls (signerInit seed)).2 = true).
Proof.
  intros Hl env total.
  pose proof (chunkedLengths_valid _ _ _ sg ts Hl) as Hv. fold env in Hv.
  pose proof (AfterCalls_init env _ seed Hv) as H0.
  destruct (ValidEnv_bounds _ _ Hv) as (Hc & Hk & Hb & Hlast).
  assert (Htotal : 0 < total).
  { unfold total, chainCalls. destruct (_ >? _); lia. }
  split; [apply Hv|]. split; [apply Hv|]. split; [|split].
  - intros calls c st expected.
    rewrite chunkSigner_unfold. fold (expectedFor env (dataCount st)) in expected.
    split; [intros ->; reflexivity|]. split.
    + intros -> Hne. cbv zeta.
      destruct (Z.eqb_spec (call_length c) (expectedFor env (dataCount st))); [contradiction|].
      reflexivity.
    + intros -> He. cbv zeta. fold expected. rewrite He, Z.eqb_refl.
      eexists _, _. split; [reflexivity|]. split; reflexivity.
  - intros calls rs st.
    destruct (run_after env _ Hv calls 0 _ H0) as ((Hn & _ & Hdone) & _).
    fold rs st total in Hn, Hdone. cbn [lastLength env signerEnv] in *.
    split; [lia|]. rewrite Hdone. rewrite Z.eqb_eq. lia.
  - cbv zeta.
    destruct (drive_conforming env _ Hv (Z.to_nat total) 0 _ H0) as [Hok Hlen].
    { cbn [lastLength env signerEnv]. fold total. lia. }
    split; [rewrite Hlen; lia|]. split; [exact Hok|].
    destruct (run_after env _ Hv (drive env (Z.to_nat total) (signerInit seed)) 0 _ H0)
      as ((_ & _ & Hdone) & _ & Hrl).
    rewrite Hdone. rewrite (AllOk_successes _ Hok), Hrl, Hlen.
    cbn [lastLength env signerEnv]. fold total. apply Z.eqb_eq. lia.
Qed.

(** C10. The invariant of the chunk signer. In every state a driver can
    bring the signer to, [dataCount] lies between 0 and [bodyLength] and is
    the sum of the lengths of the calls that returned; [done] implies
    [dataCount = bodyLength]; and a call that throws leaves the three
    variables of the signer as they were. *)
Theorem chunkSigner_invariant : forall bodyLength chunkLength l sg ts seed,
  chunkedLengths bodyLength chunkLength = Ok l ->
  let env := signerEnv bodyLength chunkLength l sg ts in
  forall calls,
    let rs := (run env calls (signerInit seed)).1 in
    let st := (run env calls (signerInit seed)).2 in
    0 <= dataCount st <= bodyLength /\
    dataCount st = accepted_bytes calls rs /\
    (done st = true -> dataCount st = bodyLength) /\
    (forall c e st', chunkSigner env c st = (Throw e, st') ->
       dataCount st' = dataCount st /\ signature st' = signature st /\
       done st' = done st).
Proof.
  intros bl cl l sg ts seed Hl env calls rs st.
  pose proof (chunkedLengths_valid _ _ _ sg ts Hl) as Hv. fold env in Hv.
  pose proof (AfterCalls_init env _ seed Hv) as H0.
  destruct (ValidEnv_bounds _ _ Hv) as (Hc & Hk & Hb & Hlast).
  destruct (run_after env _ Hv calls 0 _ H0) as ((Hn & Hd & Hdone) & Hacc & _).
  fold rs st in Hn, Hd, Hdone, Hacc. cbn [bodyLength chunkLength lastLength env signerEnv] in *.
  split; [|split; [|split]].
  - rewrite Hd. split; [apply Z.min_glb; nia | apply Z.le_min_r].
  - rewrite Hacc. reflexivity.
  - rewrite Hdone, Hd. intros He. apply Z.eqb_eq in He. rewrite He.
    apply Z.min_r. unfold chainCalls. destruct (cl_lastLength l >? 0); nia.
  - intros c e st' Hthrow. apply chunkSigner_throw in Hthrow as ->. auto.
Qed.

Lemma lengthAt_nonneg env chunks i :
  ValidEnv env chunks -> 0 <= lengthAt env chunks i.
Proof.
  intros Hv. destruct (ValidEnv_bounds _ _ Hv) as (? & ? & ? & ?).
  unfold lengthAt. destruct (i <? chunks); [lia|]. destruct (_ && _); lia.
Qed.

(** C2. The framing string. For a driver whose calls all return, call
    number [i] returns: no leading CRLF exactly when [i = 0]; then the length
    of the call in hexadecimal digits, [;chunk-signature=], a signature of 64
    hexadecimal digits and CRLF; and one more CRLF exactly when the call has
    length 0. For [bodyLength = 0] and [chunkLength = 8192] the chain is one
    call, the call without data, and it returns
    [0;chunk-signature=<sig>\r\n\r\n]. *)
Theorem chunkSigner_framing : forall bodyLength chunkLength l sg ts seed,
  chunkedLengths bodyLength chunkLength = Ok l ->
  let env := signerEnv bodyLength chunkLength l sg ts in
  (forall calls,
      AllOk (run env calls (signerInit seed)).1 ->
      forall (i : nat) c, calls !! i = Some c ->
        exists hexlen sig,
          hexlen = toString16 (call_length c) /\ hexlen <> [] /\
          Forall (fun u => is_lower_hex u = true) hexlen /\
          length sig = 64%nat /\ Forall (fun u => is_lower_hex u = true) sig /\
          (run env calls (signerInit seed)).1 !! i =
            Some (Ok ((match i with O => [] | S _ => CRLF end)
                      ++ hexlen ++ lit ";chunk-signature=" ++ sig ++ CRLF
                      ++ (if call_length c =? 0 then CRLF else [])))) /\
  (bodyLength = 0 -> chunkLength = 8192 ->
   chainCalls (cl_chunks l) (cl_lastLength l) = 1 /\
   exists sig st',
     length sig = 64%nat /\
     chunkSigner env None (signerInit seed)
       = (Ok (lit "0;chunk-signature=" ++ sig ++ CRLF ++ CRLF), st') /\
     done st' = true).
Proof using Type + hmac_sha256_length.
  intros bl cl l sg ts seed Hl env.
  pose proof (chunkedLengths_valid _ _ _ sg ts Hl) as Hv. fold env in Hv.
  pose proof (chunkedLengths_framed _ _ _ sg ts Hl) as Hf. fold env in Hf.
  pose proof (AfterCalls_init env _ seed Hv) as H0.
  split.
  - intros calls Hok i c Hi.
    destruct (run_conforming_nth env _ Hv Hf calls 0 _ H0 Hok i c Hi)
      as (_ & Hlen & sig & Hs1 & Hs2 & Hout).
    assert (Hnn : 0 <= call_length c) by (rewrite Hlen; apply lengthAt_nonneg, Hv).
    destruct (toString16_digits _ Hnn) as [Hd1 Hd2].
    exists (toString16 (call_length c)), sig.
    split; [reflexivity|]. split; [exact Hd1|]. split; [exact Hd2|].
    split; [exact Hs1|]. split; [exact Hs2|].
    rewrite Hout. unfold frameHeader. rewrite <- !app_assoc.
    destruct i; reflexivity.
  - intros -> ->. vm_compute in Hl. injection Hl as <-.
    split; [reflexivity|].
    exists (signS3Chunk seed sg ts None),
      {| signature := signS3Chunk seed sg ts None; dataCount := 0; done := true |}.
    split; [apply signS3Chunk_hex|]. split; [|reflexivity].
    rewrite chunkSigner_unfold. reflexivity.
Qed.



(** ** The order of strings *)

Lemma jsleb_refl s : jsleb s s = true.
Proof.
  induction s as [|c s IH]; [reflexivity|]. simpl.
  rewrite N.eqb_refl, IH. apply orb_true_r.
Qed.

Lemma jsleb_total s t : jsleb s t = true \/ jsleb t s = true.
Proof.
  revert t. induction s as [|c s IH]; intros [|d t]; simpl; auto.
  destruct (N.ltb_spec c d); [auto|].
  destruct (N.ltb_spec d c); [auto|].
  assert (c = d) by lia. subst. rewrite N.eqb_refl. simpl. apply IH.
Qed.

Lemma jsleb_trans s t u : jsleb s t = true -> jsleb t u = true -> jsleb s u = true.
Proof.
  revert t u. induction s as [|c s IH]; intros [|d t] [|e u]; simpl; auto; try discriminate.
  intros H1 H2.
  apply orb_true_iff in H1 as [H1 | H1], H2 as [H2 | H2];
    rewrite ?andb_true_iff, ?N.ltb_lt, ?N.eqb_eq in *.
  - apply orb_true_iff. left. apply N.ltb_lt. lia.
  - destruct H2 as [-> _]. apply orb_true_iff. left. apply N.ltb_lt. lia.
  - destruct H1 as [-> _]. apply orb_true_iff. left. apply N.ltb_lt. lia.
  - destruct H1 as [-> H1], H2 as [-> H2]. apply orb_true_iff. right.
    rewrite N.eqb_refl. simpl. eapply IH; eauto.
Qed.

Lemma jsleb_antisym s t : jsleb s t = true -> jsleb t s = true -> s = t.
Proof.
  revert t. induction s as [|c s IH]; intros [|d t]; simpl; auto; try discriminate.
  intros H1 H2.
  apply orb_true_iff in H1 as [H1 | H1], H2 as [H2 | H2];
    rewrite ?andb_true_iff, ?N.ltb_lt, ?N.eqb_eq in *; try lia.
  destruct H1 as [-> H1], H2 as [_ H2]. f_equal. auto.
Qed.

#[local] Instance jsle_total : Total jsle.
Proof. intros s t. apply jsleb_total. Qed.
#[local] Instance jsle_transitive : Transitive jsle.
Proof. intros s t u. apply jsleb_trans. Qed.
#[local] Instance jsle_antisymm : AntiSymm (=) jsle.
Proof. intros s t. apply jsleb_antisym. Qed.

Lemma sort_sorted l : Sorted jsle (sort l).
Proof. apply Sorted_merge_sort, _. Qed.

Lemma sort_permutation l : sort l ≡ₚ l.
Proof. apply merge_sort_Permutation. Qed.

Lemma newSet_NoDup xs : NoDup (newSet xs).
Proof. unfold newSet. rewrite reverse_Permutation. apply NoDup_remove_dups. Qed.

Lemma elem_of_newSet x xs : x ∈ newSet xs <-> x ∈ xs.
Proof. unfold newSet. rewrite elem_of_reverse, elem_of_remove_dups, elem_of_reverse. reflexivity. Qed.

Lemma Sorted_filter_jsle (P : jsstring -> Prop) `{forall x, Decision (P x)} l :
  Sorted jsle l -> Sorted jsle (filter P l).
Proof.
  intros Hs. apply Sorted_StronglySorted in Hs; [|apply _].
  apply StronglySorted_Sorted.
  induction Hs as [|x l Hs IH Hall]; [constructor|].
  rewrite filter_cons. destruct (decide (P x)); [|exact IH].
  constructor; [exact IH|].
  apply Forall_forall. intros y Hy. apply list_elem_of_filter in Hy as [_ Hy].
  rewrite Forall_forall in Hall. auto.
Qed.

(** ** The canonical query *)

Lemma foldl_push {A} (f : A -> jsstring) vs acc :
  foldl (fun parts v => parts ++ [f v]) acc vs = acc ++ (f <$> vs).
Proof.
  revert acc. induction vs as [|v vs IH]; intros acc; simpl.
  - rewrite app_nil_r. reflexivity.
  - rewrite IH, <- app_assoc. reflexivity.
Qed.

Lemma getCanonicalQuery_loop (vals : jsstring -> list jsstring) keys acc :
  foldl (fun parts key =>
           if bool_decide (key = []) then parts
           else foldl (fun parts value => parts ++ [(escape key ++ lit "=") ++ escape value])
                      parts (vals key))
        acc keys
  = acc ++ (filter (fun k => k <> []) keys
            ≫= fun k => (fun v => escape k ++ lit "=" ++ escape v) <$> vals k).
Proof.
  revert acc. induction keys as [|k keys IH]; intros acc; simpl.
  - rewrite app_nil_r. reflexivity.
  - rewrite IH, filter_cons. case_bool_decide as Hk.
    + destruct (decide (k <> [])) as [Hne|_]; [contradiction|]. reflexivity.
    + destruct (decide (k <> [])) as [_|Hne]; [|contradiction].
      rewrite foldl_push. simpl. rewrite <- app_assoc. f_equal. f_equal.
      apply list_fmap_ext. intros _ v _. rewrite <- app_assoc. reflexivity.
Qed.

(** C7. The canonical query. [getCanonicalQuery] leaves out exactly the
    keys that are empty strings: what it returns is, for the sorted list of
    the distinct non-empty keys of the parameters and for each key the sorted
    list of its values, the pairs [escapedKey=escapedValue] joined by [&]; so
    every pair of the parameters with a non-empty key is emitted, whether or
    not an empty key is present. *)
Theorem getCanonicalQuery_spec (query : URLSearchParams) :
  exists (keys : list jsstring) (values : jsstring -> list jsstring),
    Sorted jsle keys /\ NoDup keys /\
    (forall k, k ∈ keys <-> k <> [] /\ k ∈ usp_keys query) /\
    (forall k, Sorted jsle (values k) /\ values k ≡ₚ usp_getAll k query) /\
    getCanonicalQuery query
      = join (lit "&")
          (keys ≫= fun k => (fun v => escape k ++ lit "=" ++ escape v) <$> values k) /\
    (forall k v, (k, v) ∈ query -> k <> [] ->
       escape k ++ lit "=" ++ escape v
         ∈ (keys ≫= fun k => (fun v => escape k ++ lit "=" ++ escape v) <$> values k)).
Proof.
  set (keys := filter (fun k => k <> []) (sort (newSet (usp_keys query)))).
  set (values := fun k => sort (usp_getAll k query)).
  assert (Hkeys : forall k, k ∈ keys <-> k <> [] /\ k ∈ usp_keys query).
  { intros k. unfold keys. rewrite list_elem_of_filter, sort_permutation, elem_of_newSet.
    reflexivity. }
  exists keys, values. split; [|split; [|split; [|split; [|split]]]].
  - apply Sorted_filter_jsle, sort_sorted.
  - apply NoDup_filter. rewrite sort_permutation. apply newSet_NoDup.
  - exact Hkeys.
  - intros k. split; [apply sort_sorted | apply sort_permutation].
  - unfold getCanonicalQuery.
    rewrite (getCanonicalQuery_loop (fun k => sort (usp_getAll k query))).
    reflexivity.
  - intros k v Hin Hne. apply list_elem_of_bind. exists k. split.
    + apply list_elem_of_fmap. exists v. split; [reflexivity|].
      unfold values. rewrite sort_permutation. unfold usp_getAll.
      apply list_elem_of_fmap. exists (k, v). split; [reflexivity|].
      apply list_elem_of_filter. split; [reflexivity | exact Hin].
    + apply Hkeys. split; [exact Hne|]. unfold usp_keys.
      apply list_elem_of_fmap. exists (k, v). split; [reflexivity | exact Hin].
Qed.

(** ** Determinism of [signRequestRaw] *)

(** C8. With an explicit timestamp in the request, what [signRequestRaw]
    returns, the [Authorization] value included, does not depend on the
    clock: two invocations with the same credentials, method, path, query,
    headers, body and options return the same parameters. *)
Theorem signRequestRaw_deterministic now1 now2 credentials method pathname
    query headers body options :
  falsy (explicitTimestamp options query headers) = false ->
  signRequestRaw now1 credentials method pathname query headers body options
  = signRequestRaw now2 credentials method pathname query headers body options.
Proof.
  unfold explicitTimestamp, signRequestRaw. intros H.
  destruct (truthy (opt_query options)); rewrite H; reflexivity.
Qed.

(** ** The cache of signing data *)

(** C9, at an input where it fails. The key of the cache is the four
    arguments joined by [/]; after a call with the secret [k] and the region
    [a/b], the call with the secret [k/a] and the region [b] has the same
    key, and it gets the signing data of the first call, whose scope is not
    the scope [getSigningData] derives for it. *)
Theorem cached_getSigningData_collision :
  let date := lit "20200101" in
  let first := _cached_getSigningData date (lit "k") (lit "a/b") (lit "c") makeSimpleCache in
  let second := _cached_getSigningData date (lit "k/a") (lit "b") (lit "c") first.2 in
  second.1 = Ok (Some (getSigningData date (lit "k") (lit "a/b") (lit "c"))) /\
  second.1 <> Ok (Some (getSigningData date (lit "k/a") (lit "b") (lit "c"))).
Proof.
  cbv zeta. split.
  - vm_compute. reflexivity.
  - intros H. apply (f_equal (fun r => match r with
                                       | Ok (Some sd) => scope sd
                                       | _ => []
                                       end)) in H.
    vm_compute in H. discriminate H.
Qed.

(** ** Strings: trimming, searching, splitting *)

Lemma trimLeft_length s : (length (trimLeft s) <= length s)%nat.
Proof. induction s as [|c s IH]; simpl; [lia|]. destruct (is_space c); simpl; lia. Qed.

Lemma trimLeft_head c s : trimLeft (c :: s) = c :: s -> is_space c = false.
Proof.
  simpl. destruct (is_space c); [|reflexivity].
  intros H. pose proof (trimLeft_length s) as Hl. rewrite H in Hl. simpl in Hl. lia.
Qed.

Lemma trimLeft_app s t : s <> [] -> trimLeft s = s -> trimLeft (s ++ t) = s ++ t.
Proof.
  destruct s as [|c s]; [congruence|]. intros _ H.
  apply trimLeft_head in H. simpl. rewrite H. reflexivity.
Qed.

Lemma trimRight_app p c :
  trimRight p = p -> trimRight c = c -> trimRight (p ++ c) = p ++ c.
Proof.
  unfold trimRight. intros Hp Hc.
  destruct (decide (c = [])) as [->|Hne]; [rewrite app_nil_r; exact Hp|].
  rewrite rev_app_distr.
  rewrite trimLeft_app.
  - rewrite <- rev_app_distr. apply rev_involutive.
  - intros H. apply (f_equal (@rev _)) in H. rewrite rev_involutive in H. auto.
  - apply (f_equal (@rev _)) in Hc. rewrite rev_involutive in Hc. exact Hc.
Qed.

Lemma trimRight_no_space s :
  Forall (fun c => is_space c = false) s -> trimRight s = s.
Proof.
  intros H. unfold trimRight.
  assert (Hr : trimLeft (rev s) = rev s).
  { destruct (rev s) as [|c r] eqn:E; [reflexivity|].
    simpl. rewrite Forall_forall in H. rewrite (H c); [reflexivity|].
    apply list_elem_of_In, in_rev. rewrite E. left. reflexivity. }
  rewrite Hr. apply rev_involutive.
Qed.

Lemma lower_hex_no_space c : is_lower_hex c = true -> is_space c = false.
Proof.
  unfold is_lower_hex, is_space. intros H.
  assert (Hc : (48 <= c <= 102)%N).
  { apply orb_true_iff in H as [H|H]; apply andb_true_iff in H as [H1 H2];
      apply N.leb_le in H1, H2; lia. }
  clear H.
  replace (c <=? 13)%N with false by (symmetry; apply N.leb_gt; lia).
  replace (8192 <=? c)%N with false by (symmetry; apply N.leb_gt; lia).
  repeat match goal with
         | |- context [(c =? ?n)%N] =>
             replace (c =? n)%N with false by (symmetry; apply N.eqb_neq; lia)
         end.
  rewrite andb_false_r. reflexivity.
Qed.

Lemma find_index_app c p s :
  c ∉ p -> find_index c (p ++ c :: s) = Some (length p).
Proof.
  induction p as [|d p IH]; intros Hn; simpl.
  - rewrite N.eqb_refl. reflexivity.
  - apply not_elem_of_cons in Hn as [Hd Hp].
    destruct (N.eqb_spec d c); [congruence|]. rewrite (IH Hp). reflexivity.
Qed.

Lemma find_index_none c s : c ∉ s -> find_index c s = None.
Proof.
  induction s as [|d s IH]; intros Hn; simpl; [reflexivity|].
  apply not_elem_of_cons in Hn as [Hd Hs].
  destruct (N.eqb_spec d c); [congruence|]. rewrite (IH Hs). reflexivity.
Qed.

Lemma find_index_some c s i :
  find_index c s = Some i -> exists p t, s = p ++ c :: t /\ (c ∉ p) /\ length p = i.
Proof.
  revert i. induction s as [|d s IH]; intros i; simpl; [discriminate|].
  destruct (N.eqb_spec d c) as [->|Hne].
  - intros [= <-]. exists [], s. split; [reflexivity|]. split; [apply not_elem_of_nil | reflexivity].
  - destruct (find_index c s) as [j|]; [|discriminate]. simpl. intros [= <-].
    destruct (IH j eq_refl) as (p & t & -> & Hp & Hl).
    exists (d :: p), t. split; [reflexivity|]. split.
    + apply not_elem_of_cons. auto.
    + simpl. congruence.
Qed.

Lemma find_index_elem c s : find_index c s = None -> c ∉ s.
Proof.
  induction s as [|d s IH]; simpl; intros H; [apply not_elem_of_nil|].
  destruct (N.eqb_spec d c); [discriminate|].
  destruct (find_index c s); [discriminate|].
  apply not_elem_of_cons. auto.
Qed.

(** [split1] cuts at the first token. *)
Lemma split1_app p c s : c ∉ p -> split1 (p ++ c :: s) c = Ok (p, s).
Proof.
  intros Hn. unfold split1, indexOf. rewrite (find_index_app _ _ _ Hn).
  destruct (Z.eqb_spec (Z.of_nat (length p)) (-1)); [lia|].
  unfold substring, substring_from. f_equal. f_equal.
  - rewrite Nat2Z.id. change (Z.to_nat 0) with 0%nat.
    rewrite Nat.sub_0_r, drop_0, take_app_length. reflexivity.
  - replace (Z.to_nat (Z.of_nat (length p) + 1)) with (length p + 1)%nat by lia.
    rewrite cons_middle, app_assoc.
    apply drop_app_length'. rewrite length_app. reflexivity.
Qed.

Lemma split1_ok x c p s : split1 x c = Ok (p, s) -> x = p ++ c :: s /\ (c ∉ p).
Proof.
  unfold split1, indexOf.
  destruct (find_index c x) as [i|] eqn:E; [|simpl; discriminate].
  destruct (find_index_some _ _ _ E) as (p' & t & -> & Hp & Hl).
  pose proof (split1_app p' c t Hp) as H. unfold split1, indexOf in H. rewrite E in H.
  rewrite H. intros [= <- <-]. auto.
Qed.

Lemma split1_throw x c e :
  split1 x c = Throw e -> e = InvalidAuthorizationStructure /\ (c ∉ x).
Proof.
  unfold split1, indexOf.
  destruct (find_index c x) as [i|] eqn:E.
  - destruct (Z.eqb_spec (Z.of_nat i) (-1)); [lia | discriminate].
  - simpl. intros [= <-]. split; [reflexivity | apply find_index_elem, E].
Qed.

Lemma split_no_sep sep p : sep ∉ p -> split sep p = [p].
Proof.
  induction p as [|c p IH]; intros Hn; simpl; [reflexivity|].
  apply not_elem_of_cons in Hn as [Hc Hp].
  destruct (N.eqb_spec c sep); [congruence|]. rewrite (IH Hp). reflexivity.
Qed.

Lemma split_app_sep sep p s : sep ∉ p -> split sep (p ++ sep :: s) = p :: split sep s.
Proof.
  induction p as [|c p IH]; intros Hn; simpl.
  - rewrite N.eqb_refl. reflexivity.
  - apply not_elem_of_cons in Hn as [Hc Hp].
    destruct (N.eqb_spec c sep); [congruence|]. rewrite (IH Hp). reflexivity.
Qed.

(** ** Hexadecimal text, decoded *)

Lemma fromHex_hex_of_byte b s : fromHex (hex_of_byte b ++ s) = b :: fromHex s.
Proof. destruct b; reflexivity. Qed.

Lemma fromHex_toHex buf : fromHex (toHex buf) = buf.
Proof.
  induction buf as [|b buf IH]; [reflexivity|].
  change (toHex (b :: buf)) with (hex_of_byte b ++ toHex buf).
  rewrite fromHex_hex_of_byte, IH. reflexivity.
Qed.

Lemma hexPairs_spec s :
  hexPairs s = true <->
  s <> [] /\ Nat.Even (length s) /\ Forall (fun c => is_lower_hex c = true) s.
Proof.
  remember (length s) as n eqn:Hn. revert s Hn.
  induction n as [n IH] using lt_wf_ind. intros [|c [|d s]] Hn; subst n.
  - simpl. split; [discriminate | intros [H _]; congruence].
  - simpl. split; [discriminate|]. intros (_ & [k Hk] & _). lia.
  - change (hexPairs (c :: d :: s)) with
      (is_lower_hex c && is_lower_hex d && match s with [] => true | _ => hexPairs s end).
    rewrite !andb_true_iff, !Forall_cons.
    assert (Hev : Nat.Even (length (c :: d :: s)) <-> Nat.Even (length s)).
    { simpl. rewrite Nat.Even_succ_succ. reflexivity. }
    rewrite Hev.
    destruct s as [|e s'].
    + split.
      * intros [[H1 H2] _]. split; [discriminate|]. split; [exists 0%nat; reflexivity|]. auto.
      * intros (_ & _ & H1 & H2 & _). auto.
    + rewrite (IH (length (e :: s')) ltac:(simpl; lia) (e :: s') eq_refl). split.
      * intros [[H1 H2] (_ & H3 & H4)]. split; [discriminate|]. auto.
      * intros (_ & H3 & H1 & H2 & H4). split; [auto|]. split; [discriminate|]. auto.
Qed.

Lemma hexPairs_toHex buf : buf <> [] -> hexPairs (toHex buf) = true.
Proof.
  intros Hne. apply hexPairs_spec. split; [|split].
  - destruct buf as [|b buf]; [congruence|]. destruct b; discriminate.
  - rewrite toHex_length. exists (length buf). lia.
  - apply toHex_lower.
Qed.

(** ** Maps made from pairs *)

Lemma lastValue_snoc name pairs k v :
  lastValue name (pairs ++ [(k, v)])
  = if decide (k = name) then Some v else lastValue name pairs.
Proof.
  unfold lastValue. rewrite filter_app, filter_cons, filter_nil. simpl.
  destruct (decide (k = name)).
  - rewrite fmap_app. simpl. apply last_snoc.
  - rewrite app_nil_r. reflexivity.
Qed.

Lemma newMap_lookup pairs name : newMap pairs !! name = lastValue name pairs.
Proof.
  unfold newMap. induction pairs as [|[k v] pairs IH] using rev_ind.
  - reflexivity.
  - rewrite foldl_app, lastValue_snoc. simpl.
    destruct (decide (k = name)) as [->|Hne].
    + apply lookup_insert_eq.
    + rewrite lookup_insert_ne by exact Hne. exact IH.
Qed.

Lemma mapM_Res_ok {A B} (f : A -> Res B) l ys :
  mapM f l = Ok ys <-> Forall2 (fun x y => f x = Ok y) l ys.
Proof.
  revert ys. induction l as [|x l IH]; intros ys; simpl.
  - split; [intros [= <-]; constructor | intros H; inversion H; reflexivity].
  - unfold mbind, Res_bind. destruct (f x) as [y|e] eqn:Hx.
    + fold (@mapM Res _ _ A B f l).
      destruct (mapM f l) as [ys'|e] eqn:Hl; simpl.
      * split.
        -- intros [= <-]. constructor; [exact Hx | apply IH; reflexivity].
        -- intros H. inversion H as [|? ? ? ? H1 H2]; subst.
           apply IH in H2. rewrite Hx in H1. unfold mret, Res_ret. congruence.
      * split; [discriminate|].
        intros H. inversion H as [|? ? ? ? H1 H2]; subst.
        apply IH in H2. discriminate.
    + split; [discriminate|].
      intros H. inversion H as [|? ? ? ? H1 H2]; subst. congruence.
Qed.

Lemma mapM_Res_throw {A B} (f : A -> Res B) l e :
  mapM f l = Throw e -> Exists (fun x => f x = Throw e) l.
Proof.
  induction l as [|x l IH]; simpl; [discriminate|].
  unfold mbind, Res_bind. destruct (f x) as [y|e'] eqn:Hx.
  - fold (@mapM Res _ _ A B f l).
    destruct (mapM f l) as [ys'|e''] eqn:Hl; simpl; [discriminate|].
    intros [= <-]. right. apply IH. reflexivity.
  - intros [= <-]. left. exact Hx.
Qed.

(** ** The Authorization header *)

(** A code unit that does not occur in a literal. *)
Ltac closed_notin := apply (bool_decide_unpack _); vm_compute; exact I.

Lemma not_elem_of_lit_app c (l s : jsstring) : c ∉ l -> c ∉ s -> c ∉ l ++ s.
Proof. intros H1 H2 H. apply elem_of_app in H as [H|H]; auto. Qed.

Lemma lower_hex_not c (s : jsstring) :
  is_lower_hex c = false -> Forall (fun u => is_lower_hex u = true) s -> c ∉ s.
Proof.
  intros Hc Hs Hin. rewrite Forall_forall in Hs. rewrite (Hs c Hin) in Hc. discriminate.
Qed.

(** C4, amended. For a well-formed record whose algorithm moreover is not
    empty and has no white space at its ends, and whose credential and signed
    headers do not end in white space, parsing the header built from the
    record returns the record. *)
Theorem parseAuthorization_buildAuthorization x :
  wellFormedAuthorization x ->
  auth_algorithm x <> [] ->
  noLeadingSpace (auth_algorithm x) -> noTrailingSpace (auth_algorithm x) ->
  noTrailingSpace (auth_credential x) -> noTrailingSpace (auth_signedHeaders x) ->
  parseAuthorization (buildAuthorization x) = Ok x.
Proof.
  destruct x as [alg cred sh sig]. unfold wellFormedAuthorization; cbn [auth_algorithm auth_credential auth_signedHeaders auth_signature].
  intros (Ha & Hc1 & _ & Hs1 & _ & Hsig) Hne Hl Hr Hcr Hsr.
  pose proof (toHex_lower sig) as Hhex.
  set (f1 := lit "Credential=" ++ cred).
  set (f2 := lit "SignedHeaders=" ++ sh).
  set (f3 := lit "Signature=" ++ toHex sig).
  assert (Hb : buildAuthorization
                 {| auth_algorithm := alg; auth_credential := cred;
                    auth_signedHeaders := sh; auth_signature := sig |}
               = alg ++ 32%N :: (f1 ++ 44%N :: ((32%N :: f2) ++ 44%N :: 32%N :: f3)))
    by reflexivity.
  assert (H1 : 44%N ∉ f1).
  { apply not_elem_of_lit_app; [|exact Hc1]. closed_notin. }
  assert (H2 : 44%N ∉ 32%N :: f2).
  { apply not_elem_of_cons. split; [discriminate|].
    apply not_elem_of_lit_app; [|exact Hs1]. closed_notin. }
  assert (H3 : 44%N ∉ 32%N :: f3).
  { apply not_elem_of_cons. split; [discriminate|].
    apply not_elem_of_lit_app; [closed_notin|].
    apply lower_hex_not; [reflexivity | exact Hhex]. }
  assert (T1 : trim f1 = f1).
  { unfold trim. change (trimLeft f1) with f1. apply trimRight_app; [reflexivity | exact Hcr]. }
  assert (T2 : trim (32%N :: f2) = f2).
  { unfold trim. change (trimLeft (32%N :: f2)) with f2.
    apply trimRight_app; [reflexivity | exact Hsr]. }
  assert (T3 : trim (32%N :: f3) = f3).
  { unfold trim. change (trimLeft (32%N :: f3)) with f3.
    apply trimRight_app; [reflexivity|]. apply trimRight_no_space.
    eapply Forall_impl; [exact Hhex|]. intros c. apply lower_hex_no_space. }
  assert (S1 : split1 f1 61%N = Ok (lit "Credential", cred)).
  { apply (split1_app (lit "Credential") 61%N cred). closed_notin. }
  assert (S2 : split1 f2 61%N = Ok (lit "SignedHeaders", sh)).
  { apply (split1_app (lit "SignedHeaders") 61%N sh). closed_notin. }
  assert (S3 : split1 f3 61%N = Ok (lit "Signature", toHex sig)).
  { apply (split1_app (lit "Signature") 61%N (toHex sig)). closed_notin. }
  unfold parseAuthorization. rewrite Hb.
  rewrite (trimLeft_app _ _ Hne Hl), (split1_app _ _ _ Ha).
  cbn [mbind Res_bind fst snd].
  rewrite (split_app_sep _ _ _ H1), (split_app_sep _ _ _ H2), (split_no_sep _ _ H3).
  cbn [fmap list_fmap]. rewrite T1, T2, T3.
  cbn [mapM]. rewrite S1, S2, S3. cbn [mbind Res_bind mret Res_ret].
  rewrite !newMap_lookup.
  change (lastValue (lit "Signature") _) with (Some (toHex sig)).
  change (lastValue (lit "Credential") _) with (Some cred).
  change (lastValue (lit "SignedHeaders") _) with (Some sh).
  cbv beta iota. rewrite (hexPairs_toHex _ Hsig). cbn [negb].
  rewrite fromHex_toHex.
  unfold trim. rewrite Hl, Hr. reflexivity.
Qed.

Lemma fields_parsed rest pairs :
  mapM (fun x => split1 x 61%N) (trim <$> split 44%N rest) = Ok pairs
  <-> Forall2 fieldOf (split 44%N rest) pairs.
Proof.
  rewrite mapM_Res_ok, Forall2_fmap_l.
  split; intros H; (eapply Forall2_impl; [exact H|]);
    intros raw [name value]; unfold fieldOf, compose; cbn [fst snd].
  - apply split1_ok.
  - intros [-> Hn]. apply split1_app, Hn.
Qed.

(** C5, amended. [parseAuthorization] returns exactly on the accepted
    headers: the three named fields each at least once, in any order, with a
    signature of pairs of lower-case hexadecimal digits; further fields and
    repeated fields do not make it throw, the last field of a name gives its
    value. It throws the structure error when the space after the algorithm
    or the [=] of a field is missing, the missing-fields error when one of the
    three names is absent, and the signature error when the signature is
    malformed. *)
Theorem parseAuthorization_spec header :
  (forall r, parseAuthorization header = Ok r <-> acceptedHeader header r) /\
  (forall e, parseAuthorization header = Throw e ->
     (e = InvalidAuthorizationStructure /\
      ((32%N ∉ trimLeft header) \/
       exists alg rest : jsstring,
         trimLeft header = alg ++ 32%N :: rest /\ (32%N ∉ alg) /\
         Exists (fun raw => 61%N ∉ trim raw) (split 44%N rest)))
     \/ exists (alg rest : jsstring) (pairs : list (jsstring * jsstring)),
          trimLeft header = alg ++ 32%N :: rest /\ (32%N ∉ alg) /\
          Forall2 fieldOf (split 44%N rest) pairs /\
          ((e = InvalidAuthorizationFields /\
            (lastValue (lit "Signature") pairs = None \/
             lastValue (lit "Credential") pairs = None \/
             lastValue (lit "SignedHeaders") pairs = None))
           \/ (e = InvalidSignatureFormat /\
               exists sig, lastValue (lit "Signature") pairs = Some sig /\
                 ~ (sig <> [] /\ Nat.Even (length sig) /\
                    Forall (fun c => is_lower_hex c = true) sig)))).
Proof.
  clear.
  unfold parseAuthorization.
  destruct (split1 (trimLeft header) 32%N) as [[alg rest]|e0] eqn:Hs; cbn [mbind Res_bind fst snd].
  2:{ apply split1_throw in Hs as [-> Hns]. split.
      - intros r. split; [discriminate|].
        intros (alg & rest & _ & _ & Hh & _). exfalso. apply Hns. rewrite Hh. set_solver.
      - intros e [= <-]. left. auto. }
  apply split1_ok in Hs as [Hh Ha].
  assert (Huniq : forall alg' rest' : jsstring, trimLeft header = alg' ++ 32%N :: rest' -> (32%N ∉ alg') ->
                    alg' = alg /\ rest' = rest).
  { intros alg' rest' Hh' Ha'. rewrite Hh in Hh'.
    pose proof (split1_app alg 32%N rest Ha) as E1.
    pose proof (split1_app alg' 32%N rest' Ha') as E2.
    assert (E : Ok (alg, rest) = Ok (alg', rest')).
    { transitivity (split1 (alg ++ 32%N :: rest) 32%N);
        [symmetry; exact E1 |].
      transitivity (split1 (alg' ++ 32%N :: rest') 32%N); [|exact E2].
      f_equal. exact Hh'. }
    injection E as -> ->. auto. }
  destruct (mapM (fun x => split1 x 61%N) (trim <$> split 44%N rest)) as [pairs|e0] eqn:Hm;
    cbn [mbind Res_bind].
  2:{ apply mapM_Res_throw in Hm. split.
      - intros r. split; [discriminate|].
        intros (alg' & rest' & pairs & _ & Hh' & Ha' & Hf & _). exfalso.
        destruct (Huniq _ _ Hh' Ha') as [-> ->].
        apply fields_parsed in Hf. rewrite mapM_Res_ok in Hf.
        apply Exists_exists in Hm as (x & Hx & Hthrow).
        apply (Forall2_Forall_l _ (fun x => exists y, split1 x 61%N = Ok y)) in Hf.
        + rewrite Forall_forall in Hf. destruct (Hf x Hx) as [y Hy]. congruence.
        + apply Forall_forall. intros y _ x' Hx'. eauto.
      - intros e [= <-]. left.
        apply Exists_fmap in Hm.
        assert (Hm' : Exists (fun raw => split1 (trim raw) 61%N = Throw e0) (split 44%N rest)) by exact Hm.
        assert (e0 = InvalidAuthorizationStructure) as ->.
        { apply Exists_exists in Hm' as (x & _ & Hx). apply split1_throw in Hx. apply Hx. }
        split; [reflexivity|]. right. exists alg, rest. split; [exact Hh|]. split; [exact Ha|].
        eapply Exists_impl; [exact Hm'|]. intros raw Hx. cbv beta in Hx.
        apply split1_throw in Hx. apply Hx. }
  apply fields_parsed in Hm.
  assert (Hpuniq : forall pairs', Forall2 fieldOf (split 44%N rest) pairs' -> pairs' = pairs).
  { intros pairs' Hf. apply fields_parsed in Hf, Hm. congruence. }
  rewrite !newMap_lookup.
  destruct (lastValue (lit "Signature") pairs) as [sig|] eqn:Hsig.
  2:{ split.
      - intros r. split; [discriminate|].
        intros (alg' & rest' & pairs' & sig & Hh' & Ha' & Hf & _ & _ & Hs' & _). exfalso.
        destruct (Huniq _ _ Hh' Ha') as [-> ->]. rewrite (Hpuniq _ Hf) in Hs'. congruence.
      - intros e [= <-]. right. exists alg, rest, pairs. auto 10. }
  destruct (lastValue (lit "Credential") pairs) as [cred|] eqn:Hcred.
  2:{ split.
      - intros r. split; [discriminate|].
        intros (alg' & rest' & pairs' & sig' & Hh' & Ha' & Hf & Hc' & _). exfalso.
        destruct (Huniq _ _ Hh' Ha') as [-> ->]. rewrite (Hpuniq _ Hf) in Hc'. congruence.
      - intros e [= <-]. right. exists alg, rest, pairs. auto 10. }
  destruct (lastValue (lit "SignedHeaders") pairs) as [sh|] eqn:Hsh.
  2:{ split.
      - intros r. split; [discriminate|].
        intros (alg' & rest' & pairs' & sig' & Hh' & Ha' & Hf & _ & Hs' & _). exfalso.
        destruct (Huniq _ _ Hh' Ha') as [-> ->]. rewrite (Hpuniq _ Hf) in Hs'. congruence.
      - intros e [= <-]. right. exists alg, rest, pairs. auto 10. }
  destruct (hexPairs sig) eqn:Hp; cbn [negb].
  - apply hexPairs_spec in Hp as (Hp1 & Hp2 & Hp3). split; [|discriminate].
    intros r. split.
    + intros [= <-]. exists alg, rest, pairs, sig.
      cbn [auth_algorithm auth_credential auth_signedHeaders auth_signature]. auto 15.
    + intros (alg' & rest' & pairs' & sig' & Hh' & Ha' & Hf & Hc' & Hs' & Hg' & _ & _ & _ & E1 & E2).
      destruct (Huniq _ _ Hh' Ha') as [-> ->]. rewrite (Hpuniq _ Hf) in *.
      destruct r as [ralg rcred rsh rsig];
        cbn [auth_algorithm auth_credential auth_signedHeaders auth_signature] in E1, E2, Hc', Hs'.
      f_equal. f_equal; congruence.
  - split.
    + intros r. split; [discriminate|].
      intros (alg' & rest' & pairs' & sig' & Hh' & Ha' & Hf & _ & _ & Hg' & Hp1 & Hp2 & Hp3 & _).
      exfalso. destruct (Huniq _ _ Hh' Ha') as [-> ->]. rewrite (Hpuniq _ Hf) in Hg'.
      assert (sig' = sig) as -> by congruence.
      assert (hexPairs sig = true) by (apply hexPairs_spec; auto). congruence.
    + intros e [= <-]. right. exists alg, rest, pairs.
      split; [exact Hh|]. split; [exact Ha|]. split; [exact Hm|]. right.
      split; [reflexivity|]. exists sig. split; [exact Hsig|].
      intros Hc. apply hexPairs_spec in Hc. congruence.
Qed.

(** ** The caller's objects *)

Lemma wp_bind {A B} (m : M Heap A) (f : A -> M Heap B) Q h :
  wp m (fun r h' => match r with
                    | Ok a => wp (f a) Q h'
                    | Throw e => Q (Throw e) h'
                    end) h ->
  wp (m ≫= f) Q h.
Proof.
  unfold wp, mbind, M_bind. destruct (m h) as [[a|e] h']; simpl; auto.
Qed.

Lemma wp_fmap {A B} (g : A -> B) (m : M Heap A) Q h :
  wp m (fun r h' => match r with
                    | Ok a => Q (Ok (g a)) h'
                    | Throw e => Q (Throw e) h'
                    end) h ->
  wp (g <$> m) Q h.
Proof.
  unfold wp, fmap, M_fmap. destruct (m h) as [[a|e] h']; simpl; auto.
Qed.

Lemma wp_ret {A} (a : A) Q h : Q (Ok a) h -> wp (mret a) Q h.
Proof. auto. Qed.

Lemma wp_throw {A} e (Q : Res A -> Heap -> Prop) h : Q (Throw e) h -> wp (throw e) Q h.
Proof. auto. Qed.

Lemma wp_lift {A} (r : Res A) Q h : Q r h -> wp (lift r) Q h.
Proof. auto. Qed.

Lemma wp_readRequest l Q h :
  (forall r, h_requests h !! l = Some r -> Q (Ok r) h) ->
  (forall e, Q (Throw e) h) ->
  wp (readRequest l) Q h.
Proof. unfold wp, readRequest. destruct (h_requests h !! l); simpl; auto. Qed.

Lemma wp_readUrl l Q h :
  (forall u, h_urls h !! l = Some u -> Q (Ok u) h) ->
  (forall e, Q (Throw e) h) ->
  wp (readUrl l) Q h.
Proof. unfold wp, readUrl. destruct (h_urls h !! l); simpl; auto. Qed.

Lemma wp_readObject l Q h :
  (forall o, h_objects h !! l = Some o -> Q (Ok o) h) ->
  (forall e, Q (Throw e) h) ->
  wp (readObject l) Q h.
Proof. unfold wp, readObject. destruct (h_objects h !! l); simpl; auto. Qed.

Lemma wp_readParams l Q h :
  (forall q, h_params h !! l = Some q -> Q (Ok q) h) ->
  (forall e, Q (Throw e) h) ->
  wp (readParams l) Q h.
Proof. unfold wp, readParams. destruct (h_params h !! l); simpl; auto. Qed.

Lemma Inv_refl h : heap_wf h -> Inv h h.
Proof.
  intros Hwf. split.
  - repeat split; auto. intros l _. unfold sameUrl. destruct (h_urls h !! l); auto.
  - intros l u q Hl Hu _. destruct (Hwf l Hl) as (_ & Hn & _). congruence.
Qed.

Lemma sameUrl_host (o : option UrlObject) u host :
  sameUrl o (Some u) -> falsy (url_host u) = true ->
  sameUrl o (Some (with_host u host)).
Proof.
  destruct o as [u0|]; simpl; [|auto].
  intros (H1 & H2 & H3) Hf. split; [exact H1|]. split; [exact H2|].
  right. destruct H3 as [<-|H3]; auto.
Qed.

(** Allocation keeps the objects there were. *)
Lemma Inv_allocParams h0 h q :
  Inv h0 h -> Inv h0 (allocParams q h).2 /\ (h_next h0 <= (h_next h))%nat.
Proof.
  intros [(Hn & Hr & Ho & Hp & Hu) Hf]. split; [|exact Hn]. split.
  - unfold allocParams, Unmutated; simpl. repeat split; try lia; auto;
      intros l' Hl'; rewrite lookup_insert_ne by lia; auto.
  - exact Hf.
Qed.

Lemma Inv_allocObject h0 h o : Inv h0 h -> Inv h0 (allocObject o h).2.
Proof.
  intros [(Hn & Hr & Ho & Hp & Hu) Hf]. split.
  - unfold allocObject, Unmutated; simpl. repeat split; try lia; auto;
      intros l' Hl'; rewrite lookup_insert_ne by lia; auto.
  - exact Hf.
Qed.

Lemma Inv_allocRequest h0 h r : Inv h0 h -> Inv h0 (allocRequest r h).2.
Proof.
  intros [(Hn & Hr & Ho & Hp & Hu) Hf]. split.
  - unfold allocRequest, Unmutated; simpl. repeat split; try lia; auto;
      intros l' Hl'; rewrite lookup_insert_ne by lia; auto.
  - exact Hf.
Qed.

Lemma Inv_allocUrl h0 h u :
  Inv h0 h ->
  (forall q, url_searchParams u = Some q -> (h_next h0 <= q)%nat) ->
  Inv h0 (allocUrl u h).2 /\ (h_next h0 <= h_next h)%nat.
Proof.
  intros [(Hn & Hr & Ho & Hp & Hu) Hf] Hq. split; [|exact Hn]. split.
  - unfold allocUrl, Unmutated; simpl. repeat split; try lia; auto;
      intros l' Hl'; rewrite lookup_insert_ne by lia; auto.
  - intros l u' q Hl. unfold allocUrl; simpl.
    destruct (decide (h_next h = l)) as [<-|Hne].
    + rewrite lookup_insert_eq. intros [= <-]. apply Hq.
    + rewrite lookup_insert_ne by exact Hne. apply Hf, Hl.
Qed.

(** Giving a host to a url object that has none. *)
Lemma Inv_writeHost h0 h l u host :
  Inv h0 h -> h_urls h !! l = Some u -> falsy (url_host u) = true ->
  Inv h0 (writeUrl l (with_host u host) h).2.
Proof.
  intros [(Hn & Hr & Ho & Hp & Hu) Hf] Hl Hfalsy. split.
  - unfold writeUrl, Unmutated; simpl. repeat split; auto.
    intros l' Hl'. destruct (decide (l = l')) as [<-|Hne].
    + rewrite lookup_insert_eq. apply sameUrl_host; [|exact Hfalsy].
      rewrite <- Hl. apply Hu, Hl'.
    + rewrite lookup_insert_ne by exact Hne. apply Hu, Hl'.
  - intros l' u' q Hl'. unfold writeUrl; simpl.
    destruct (decide (l = l')) as [<-|Hne].
    + rewrite lookup_insert_eq. intros [= <-]. simpl. apply (Hf l u q Hl' Hl).
    + rewrite lookup_insert_ne by exact Hne. apply Hf, Hl'.
Qed.

(** Assignments to objects made since [h0]. *)
Lemma Inv_writeParams_fresh h0 h l q :
  Inv h0 h -> (h_next h0 <= l)%nat -> Inv h0 (writeParams l q h).2.
Proof.
  intros [(Hn & Hr & Ho & Hp & Hu) Hf] Hl. split.
  - unfold writeParams, Unmutated; simpl. repeat split; try lia; auto;
      intros l' Hl'; rewrite lookup_insert_ne by lia; auto.
  - exact Hf.
Qed.

Lemma Inv_writeUrl_fresh h0 h l u :
  Inv h0 h -> (h_next h0 <= l)%nat ->
  (forall q, url_searchParams u = Some q -> (h_next h0 <= q)%nat) ->
  Inv h0 (writeUrl l u h).2.
Proof.
  intros [(Hn & Hr & Ho & Hp & Hu) Hf] Hl Hq. split.
  - unfold writeUrl, Unmutated; simpl. repeat split; try lia; auto;
      intros l' Hl'; rewrite lookup_insert_ne by lia; auto.
  - intros l' u' q Hl'. unfold writeUrl; simpl.
    destruct (decide (l = l')) as [<-|Hne].
    + rewrite lookup_insert_eq. intros [= <-]. apply Hq.
    + rewrite lookup_insert_ne by exact Hne. apply Hf, Hl'.
Qed.

Lemma wp_writeUrl l u Q h : Q (Ok tt) (writeUrl l u h).2 -> wp (writeUrl l u) Q h.
Proof. auto. Qed.
Lemma wp_writeParams l q Q h : Q (Ok tt) (writeParams l q h).2 -> wp (writeParams l q) Q h.
Proof. auto. Qed.
Lemma wp_allocParams q Q h :
  Q (Ok (h_next h)) (allocParams q h).2 -> wp (allocParams q) Q h.
Proof. auto. Qed.
Lemma wp_allocUrl u Q h : Q (Ok (h_next h)) (allocUrl u h).2 -> wp (allocUrl u) Q h.
Proof. auto. Qed.
Lemma wp_allocRequest r Q h :
  Q (Ok (h_next h)) (allocRequest r h).2 -> wp (allocRequest r) Q h.
Proof. auto. Qed.

(** Code that keeps the invariant may be followed by anything that needs
    no more than the invariant. *)
Lemma wp_preserves {A} h0 (m : M Heap A) Q h :
  Inv h0 (m h).2 -> (forall r h', Inv h0 h' -> Q r h') -> wp m Q h.
Proof. unfold wp. auto. Qed.

Ltac as_wp :=
  lazymatch goal with
  | |- Inv ?h0 (?m ?h).2 => change (wp m (fun _ h' => Inv h0 h') h)
  end.

Ltac inv_done := first [assumption | split; [assumption | exact I]].

(** The steps that need no thought. *)
Ltac wp_step :=
  cbv beta iota;
  lazymatch goal with
  | |- wp (_ ≫= _) _ _ => apply wp_bind
  | |- wp (_ <$> _) _ _ => apply wp_fmap
  | |- wp (mret _) _ _ => apply wp_ret
  | |- wp (throw _) _ _ => apply wp_throw
  | |- wp (lift _) _ _ => apply wp_lift
  | |- wp (readRequest _) _ _ => apply wp_readRequest; [intros ? ? | intros; inv_done]
  | |- wp (readUrl _) _ _ => apply wp_readUrl; [intros ? ? | intros; inv_done]
  | |- wp (readObject _) _ _ => apply wp_readObject; [intros ? ? | intros; inv_done]
  | |- wp (readParams _) _ _ => apply wp_readParams; [intros ? ? | intros; inv_done]
  | |- wp (allocParams ?q) _ ?h =>
      apply wp_allocParams;
      lazymatch goal with
      | H : Inv ?h0 h |- _ => pose proof (proj1 (Inv_allocParams h0 h q H))
      end
  | |- wp (allocRequest ?r) _ ?h =>
      apply wp_allocRequest;
      lazymatch goal with
      | H : Inv ?h0 h |- _ => pose proof (Inv_allocRequest h0 h r H)
      end
  | |- wp (from_option _ _ ?o) _ _ => destruct o eqn:?; cbn [from_option]
  | |- wp (if ?b then _ else _) _ _ => destruct b eqn:?
  | |- wp (match ?r with Ok _ => _ | Throw _ => _ end) _ _ => destruct r eqn:?
  | |- wp (match ?o with Some _ => _ | None => _ end) _ _ => destruct o eqn:?
  | |- wp (match ?o with inl _ => _ | inr _ => _ end) _ _ => destruct o eqn:?
  | |- match ?r with Ok _ => _ | Throw _ => _ end => destruct r eqn:?
  | |- Inv _ _ => assumption
  end.

Lemma wp_resolveUrl h0 url Q h :
  Inv h0 h ->
  (forall l h', Inv h0 h' -> h_requests h' = h_requests h ->
                url = inr l \/ (h_next h0 <= l)%nat -> Q (Ok l) h') ->
  (forall e, Q (Throw e) h) ->
  wp (resolveUrl url) Q h.
Proof.
  intros HI HQ HT. destruct url as [s|l]; simpl.
  - unfold newURL. destruct (parseURL s) as [[[host pathname] query]|]; [|apply HT].
    apply wp_bind, wp_allocParams. cbv beta iota. apply wp_allocUrl.
    destruct (Inv_allocParams h0 h query HI) as [HI1 Hn].
    destruct (Inv_allocUrl h0 (allocParams query h).2
                {| url_host := Some host; url_pathname := Some pathname;
                   url_searchParams := Some (h_next h) |} HI1) as [HI2 Hn2].
    { simpl. intros q [= <-]. exact Hn. }
    apply HQ; [exact HI2 | reflexivity | right; exact Hn2].
  - apply HQ; auto.
Qed.

(** Without [set], [signRequest] mutates nothing but the missing host. *)
Lemma signRequest_preserves now credentials request options h0 h :
  truthy (opt_set options) = false ->
  Inv h0 h -> Inv h0 (signRequest now credentials request options h).2.
Proof.
  intros Hset HI.
  change (wp (signRequest now credentials request options) (fun _ h' => Inv h0 h') h).
  unfold signRequest. rewrite Hset.
  do 2 wp_step.
  apply wp_bind, (wp_resolveUrl h0); [exact HI | | auto].
  intros url h1 HI1 _ _. do 2 wp_step.
  apply wp_bind, (wp_preserves h0).
  { as_wp. repeat wp_step.
    apply wp_writeUrl. wp_step. apply Inv_writeHost; assumption. }
  intros [credentials'|e] h2 HI2; [|exact HI2].
  repeat wp_step.
Qed.

Lemma wp_cut {A} (m : M Heap A) (P Q : Res A -> Heap -> Prop) h :
  wp m P h -> (forall r h', P r h' -> Q r h') -> wp m Q h.
Proof. unfold wp. auto. Qed.

(** Without [set], [patchURL] assigns to a url object of its own: the [URL]
    made from the string, or a copy of the caller's object. *)
Lemma patchURL_preserves h0 h request extra url :
  Inv h0 h ->
  (forall req, h_requests h !! request = Some req ->
     req_url req = inr url \/ (h_next h0 <= url)%nat) ->
  Inv h0 (patchURL request extra url false h).2.
Proof.
  intros HI Hfresh. as_wp. unfold patchURL. do 2 wp_step.
  rename r into req, H into Hreq. cbn [orb].
  apply wp_bind,
    (wp_cut _ (fun r h' => Inv h0 h' /\
                 match r with Ok url' => (h_next h0 <= url')%nat | Throw _ => True end)).
  - destruct (bool_decide (req_url req = inr url)) eqn:Hsame; cbn [negb].
    + (* the caller's object: a copy *)
      do 3 wp_step. rename u into u0.
      apply wp_cut with (P := fun r h' => Inv h0 h' /\ h' = h).
      { destruct (url_searchParams u0); cbn [from_option].
        - apply wp_readParams; intros; auto.
        - apply wp_ret. auto. }
      intros [old|e] h' [HI' ->]; [|auto].
      apply wp_bind, wp_allocParams. cbv beta iota.
      destruct (Inv_allocParams h0 h old HI) as [HI1 Hn].
      apply wp_allocUrl.
      destruct (Inv_allocUrl h0 (allocParams old h).2
                  {| url_host := url_host u0; url_pathname := url_pathname u0;
                     url_searchParams := Some (h_next h) |} HI1) as [HI2 Hn2].
      { simpl. intros q [= <-]. exact Hn. }
      split; [exact HI2 | exact Hn2].
    + (* the URL made from the string *)
      apply bool_decide_eq_false in Hsame.
      destruct (Hfresh req Hreq) as [Heq|Hurl]; [contradiction|].
      do 3 wp_step. rename u into u0. destruct (url_searchParams u0) as [q|] eqn:Hq.
      * do 2 wp_step. auto.
      * wp_step. apply wp_allocParams. cbv beta iota.
        destruct (Inv_allocParams h0 h [] HI) as [HI1 Hn].
        apply wp_writeUrl. cbv beta iota. wp_step. split; [|exact Hurl].
        apply Inv_writeUrl_fresh; [exact HI1 | exact Hurl|].
        simpl. intros q [= <-]. exact Hn.
  - intros [url'|e] h1 [HI1 Hurl']; [|exact HI1].
    do 3 wp_step. rename u into u1, H into Hu1.
    destruct (url_searchParams u1) as [ql|] eqn:Hq.
    + do 2 wp_step. apply wp_writeParams. cbv beta iota. wp_step.
      apply Inv_writeParams_fresh; [exact HI1|].
      apply (proj2 HI1 url' u1 ql Hurl' Hu1 Hq).
    + do 2 wp_step.
Qed.

(** Without [set], [signS3Request] mutates nothing but the missing host. *)
Lemma signS3Request_preserves now credentials request options h0 h :
  truthy (opt_set options) = false ->
  Inv h0 h -> Inv h0 (signS3Request now credentials request options h).2.
Proof.
  intros Hset HI. as_wp. unfold signS3Request. rewrite Hset. cbn [andb].
  do 2 wp_step. rename r into req, H into Hreq.
  apply wp_bind, (wp_resolveUrl h0); [exact HI | | auto].
  intros url h1 HI1 Hreqs Hurl.
  apply wp_bind, (wp_cut _ (fun _ h' => Inv h0 h')).
  - destruct (truthy (opt_query options)).
    + do 3 wp_step.
      apply wp_cut with (P := fun r h' => Inv h0 h' /\ h' = h1).
      { destruct (url_searchParams u); cbn [from_option].
        - apply wp_fmap, wp_readParams; intros; auto.
        - apply wp_ret. auto. }
      intros [has|e] h' [HI' ->]; [|auto].
      destruct has; cbn [negb].
      * wp_step. exact HI1.
      * apply wp_bind, (wp_preserves h0).
        -- apply patchURL_preserves; [exact HI1|].
           intros req'. rewrite Hreqs, Hreq. intros [= <-]. exact Hurl.
        -- intros [url'|e] h2 HI2; [|exact HI2]. repeat wp_step.
    + repeat wp_step.
  - intros [[extra url']|e] h2 HI2; [|exact HI2].
    do 6 wp_step.
    apply wp_bind, (wp_preserves h0).
    { apply signRequest_preserves; [exact Hset | assumption]. }
    intros [signed|e] h4 HI4; [|exact HI4].
    repeat wp_step.
    apply wp_writeUrl. cbv beta iota. wp_step. apply Inv_writeHost; assumption.
Qed.

(** C6, amended. Without the [set] option, [signRequest] and
    [signS3Request] leave the caller's objects as they are, but for one
    field: the request object, the headers object and the query parameters
    are not mutated, and of the url object only a missing host is filled in.
    This holds whether the call returns or throws. *)
Theorem signing_without_set_frame now credentials request options h :
  heap_wf h ->
  truthy (opt_set options) = false ->
  Unmutated h (signRequest now credentials request options h).2 /\
  Unmutated h (signS3Request now credentials request options h).2.
Proof.
  intros Hwf Hset. split.
  - apply (signRequest_preserves now credentials request options h h Hset (Inv_refl h Hwf)).
  - apply (signS3Request_preserves now credentials request options h h Hset (Inv_refl h Hwf)).
Qed.

(** ** The signer [signS3ChunkedRequest] returns *)



(** ** Further properties of the code *)

(** X1. [calculateChunks] returns exactly on a chunk length of at least 8192 and
    a body length that is not negative, with the quotient and the remainder
    of the division; it tests the chunk length first. *)
Theorem calculateChunks_spec bodyLen chunkLen :
  match calculateChunks bodyLen chunkLen with
  | Ok (chunks, last) =>
      CHUNK_MIN <= chunkLen /\ 0 <= bodyLen /\ 0 <= chunks /\
      0 <= last < chunkLen /\ bodyLen = chunks * chunkLen + last
  | Throw e =>
      (e = InvalidChunkLength /\ chunkLen < CHUNK_MIN) \/
      (e = InvalidBodyLength /\ CHUNK_MIN <= chunkLen /\ bodyLen < 0)
  end.
Proof.
  unfold calculateChunks, CHUNK_MIN.
  destruct (Z.ltb_spec chunkLen (8 * 1024)); [left; auto|].
  destruct (Z.ltb_spec bodyLen 0); [right; auto|].
  pose proof (Z.mul_div_le bodyLen chunkLen ltac:(lia)).
  pose proof (Z.mul_succ_div_gt bodyLen chunkLen ltac:(lia)).
  pose proof (Z.div_pos bodyLen chunkLen ltac:(lia) ltac:(lia)).
  repeat split; lia.
Qed.

(** X2. The signature chain. Whatever the driver does, the signature the signer
    holds is the one it started from signed over with the chunks of the calls
    that returned, one after the other and in their order: each chunk
    signature chains to the one before, and a call that throws is not part of
    the chain. *)
Theorem chunkSigner_signature_chain env calls st :
  signature (run env calls st).2
  = foldl (fun sig c => signS3Chunk sig (signing env) (timestamp env) c)
          (signature st) (accepted_calls calls (run env calls st).1).
Proof.
  revert st. induction calls as [|c calls IH]; intros st; [reflexivity|].
  rewrite run_cons. cbn [fst snd].
  destruct (chunkSigner env c st) as [[out|e] st1] eqn:Hc; cbn [fst snd accepted_calls foldl].
  - rewrite IH. f_equal.
    rewrite chunkSigner_unfold in Hc. destruct (done st); [discriminate|].
    cbv zeta in Hc. destruct (call_length c =? _); [|discriminate].
    injection Hc as _ <-. reflexivity.
  - apply chunkSigner_throw in Hc as ->. apply IH.
Qed.

(** X3. Only the first 8 code units of the date stamp count: for a clock reading
    that begins with an ISO date, the timestamp of [formatTimestamp] and the
    date stamp of [formatDate] derive the same signing key and scope, the date
    stamp being the 8 digits of the date. *)
Theorem getSigningData_timestamp_or_date now secret region service :
  isoDated now = true ->
  exists ts ds,
    formatTimestamp now = Ok ts /\ formatDate now = Ok ds /\
    length ds = 8%nat /\ take 8 ts = ds /\
    getSigningData ts secret region service = getSigningData ds secret region service /\
    scope (getSigningData ts secret region service)
      = ds ++ lit "/" ++ region ++ lit "/" ++ service ++ lit "/aws4_request".
Proof.
  clear toLowerCase toUpperCase unescape parseURL formatURL parseHost.
  unfold isoDated. intros H. apply andb_true_iff in H as [Hlen H].
  apply Nat.eqb_eq in Hlen.
  destruct now as [|y1 [|y2 [|y3 [|y4 [|s1 [|m1 [|m2 [|s2 [|d1 [|d2 rest]]]]]]]]]];
    try discriminate.
  apply andb_true_iff in H as [H Hs2]. apply andb_true_iff in H as [Hd Hs1].
  apply N.eqb_eq in Hs1, Hs2. subst s1 s2.
  cbn [forallb] in Hd. rewrite !andb_true_iff in Hd.
  destruct Hd as (D1 & D2 & D3 & D4 & D5 & D6 & D7 & D8 & _).
  assert (Hkeep : forall c, is_digit c = true -> c <> 58%N /\ c <> 45%N).
  { clear. intros c Hc. unfold is_digit in Hc. apply andb_true_iff in Hc as [Hc1 Hc2].
    apply N.leb_le in Hc1, Hc2. lia. }
  apply Hkeep in D1, D2, D3, D4, D5, D6, D7, D8.
  unfold formatTimestamp, formatDate. rewrite Hlen. cbn [Nat.eqb negb].
  destruct rest as [|t1 [|t2 [|t3 [|t4 [|t5 [|t6 [|t7 [|t8 [|t9 rest]]]]]]]]];
    try discriminate.
  set (ds := [y1; y2; y3; y4; m1; m2; d1; d2]).
  set (tail := filter (fun c => c <> 58%N /\ c <> 45%N) [t1; t2; t3; t4; t5; t6; t7; t8; t9]
               ++ lit "Z").
  assert (Hts : filter (fun c => c <> 58%N /\ c <> 45%N)
                  (substring (y1 :: y2 :: y3 :: y4 :: 45%N :: m1 :: m2 :: 45%N :: d1 :: d2
                     :: t1 :: t2 :: t3 :: t4 :: t5 :: t6 :: t7 :: t8 :: t9 :: rest) 0 19)
                ++ lit "Z" = ds ++ tail).
  { unfold substring.
    change (take _ (drop _ ?l)) with
      ([y1; y2; y3; y4; 45%N; m1; m2; 45%N; d1; d2] ++ [t1; t2; t3; t4; t5; t6; t7; t8; t9]).
    unfold jsstring, codeunit. rewrite filter_app, <- app_assoc. fold tail. f_equal.
    repeat first [ rewrite filter_cons_True by assumption
                 | rewrite filter_cons_False by (cbv beta; lia) ].
    reflexivity. }
  assert (Hds : filter (fun c => c <> 45%N)
                  (substring (y1 :: y2 :: y3 :: y4 :: 45%N :: m1 :: m2 :: 45%N :: d1 :: d2
                     :: t1 :: t2 :: t3 :: t4 :: t5 :: t6 :: t7 :: t8 :: t9 :: rest) 0 10)
                = ds).
  { unfold substring.
    change (take _ (drop _ ?l)) with [y1; y2; y3; y4; 45%N; m1; m2; 45%N; d1; d2].
    unfold jsstring, codeunit.
    repeat first [ rewrite filter_cons_True by tauto
                 | rewrite filter_cons_False by (cbv beta; lia) ].
    reflexivity. }
  exists (ds ++ tail), ds.
  split; [f_equal; exact Hts|]. split; [f_equal; exact Hds|].
  repeat split; reflexivity.
Qed.

(** *** The transform stream *)

Lemma wire_app a b : wire (a ++ b) = wire a ++ wire b.
Proof. unfold wire. apply bind_app. Qed.

Lemma wire_string s : wire [PieceString s] = inl <$> s.
Proof. unfold wire. cbn. apply app_nil_r. Qed.

Lemma wire_buffer d : wire [PieceBuffer d] = inr <$> d.
Proof. unfold wire. cbn. apply app_nil_r. Qed.

Lemma wire_buffers ps : wire (PieceBuffer <$> ps) = inr <$> concat ps.
Proof.
  induction ps as [|p ps IH]; [reflexivity|].
  rewrite fmap_cons. change (PieceBuffer p :: ?l) with ([PieceBuffer p] ++ l).
  rewrite wire_app, wire_buffer, IH. cbn [concat]. rewrite fmap_app. reflexivity.
Qed.

Lemma wire_string_app s t : wire [PieceString (s ++ t)] = wire [PieceString s] ++ wire [PieceString t].
Proof. rewrite !wire_string. apply fmap_app. Qed.

Lemma buf_slice_take data l :
  0 <= l <= buf_length data -> buf_slice data 0 l = take (Z.to_nat l) data.
Proof.
  intros H. unfold buf_slice, slice_index, buf_length in *.
  replace (0 <? 0) with false by reflexivity.
  replace (l <? 0) with false by (symmetry; apply Z.ltb_ge; lia).
  rewrite Z.min_l, Z.min_l by lia. rewrite Z.sub_0_r. reflexivity.
Qed.

Lemma buf_slice_drop data l :
  0 <= l <= buf_length data -> buf_slice_from data l = drop (Z.to_nat l) data.
Proof.
  intros H. unfold buf_slice_from, buf_slice, slice_index, buf_length in *.
  replace (l <? 0) with false by (symmetry; apply Z.ltb_ge; lia).
  replace (Z.of_nat (length data) <? 0) with false by (symmetry; apply Z.ltb_ge; lia).
  rewrite Z.min_l, Z.min_l by lia.
  apply take_ge. rewrite length_drop. lia.
Qed.

Lemma buf_length_app a b : buf_length (a ++ b) = buf_length a + buf_length b.
Proof. unfold buf_length. rewrite length_app. lia. Qed.

Lemma flushData_run env p n h sg out :
  flushData env {| ps_pending := p; ps_length := n; ps_hash := h; ps_signer := sg;
                   ps_pushed := out |}
  = match chunkSigner env (Some (ChunkDescription (toHex (sha256 h)) n)) sg with
    | (Ok frame, sg') =>
        (Ok tt, {| ps_pending := []; ps_length := 0; ps_hash := []; ps_signer := sg';
                   ps_pushed := (out ++ [PieceString frame]) ++ (PieceBuffer <$> p) |})
    | (Throw e, sg') =>
        (Throw e, {| ps_pending := p; ps_length := n; ps_hash := h; ps_signer := sg';
                     ps_pushed := out |})
    end.
Proof.
  unfold flushData, callSigner, stream_push.
  unfold mbind, M_bind, gets, modify. cbn [ps_pending ps_length ps_hash ps_signer ps_pushed].
  destruct (chunkSigner env _ sg) as [[frame|e] sg']; reflexivity.
Qed.

Lemma chainSig_snoc env seed cs c :
  chainSig env seed (cs ++ [c])
  = signS3Chunk (chainSig env seed cs) (signing env) (timestamp env) (describe c).
Proof. unfold chainSig. rewrite foldl_snoc. reflexivity. Qed.

Lemma bodyFrames_snoc env seed cs c :
  bodyFrames env seed (cs ++ [c])
  = bodyFrames env seed cs ++ chunkFrame (chainSig env seed (cs ++ [c])) c.
Proof.
  revert seed. induction cs as [|c0 cs IH]; intros seed.
  - cbn [app bodyFrames chainSig foldl]. rewrite app_nil_r. reflexivity.
  - cbn [app bodyFrames]. rewrite IH. rewrite <- app_assoc. reflexivity.
Qed.

Lemma concat_full_length (c : Z) (cs : list (list byte)) :
  Forall (fun x => buf_length x = c) cs ->
  buf_length (concat cs) = Z.of_nat (length cs) * c.
Proof.
  induction 1 as [|x cs Hx _ IH]; [reflexivity|].
  cbn [concat length]. rewrite buf_length_app, IH, Hx. lia.
Qed.

(** The length the signer expects after [k] full chunks. *)
Lemma expectedFor_full env chunks k :
  ValidEnv env chunks -> 0 <= k -> k * chunkLength env <= bodyLength env ->
  let d := k * chunkLength env in
  (bodyLength env - d >= chunkLength env /\ expectedFor env d = chunkLength env
     /\ headerFor env d = chunkHeader env) \/
  (bodyLength env - d < chunkLength env /\ k = chunks /\
   expectedFor env d = lastLength env /\ lastLength env = bodyLength env - d /\
   (0 < lastLength env -> headerFor env d = lastHeader env) /\
   (lastLength env = 0 -> headerFor env d = finalHeader env)).
Proof.
  intros Hv Hk Hle. cbv zeta.
  destruct (ValidEnv_bounds _ _ Hv) as (Hc & Hch & Hb & Hl).
  destruct Hv as (_ & _ & _ & Hlast).
  unfold expectedFor, expectedLength, headerFor.
  destruct (Z.geb_spec (bodyLength env - k * chunkLength env) (chunkLength env)) as [H|H].
  - left. repeat split; lia.
  - right. assert (k = chunks) by nia. subst k.
    split; [lia|]. split; [reflexivity|].
    destruct (Z.eqb_spec (chunks * chunkLength env) (bodyLength env)) as [E|E]; cbn [negb].
    + repeat split; try lia; intros; reflexivity.
    + repeat split; try lia; intros; reflexivity.
Qed.

Lemma sep_first (cs : list (list byte)) (c n : Z) :
  0 < c ->
  wire (match cs with [] => [] | _ => [PieceString CRLF] end)
  = wire [PieceString (if Z.of_nat (length cs) * c + n =? n then [] else CRLF)].
Proof.
  intros Hc. destruct cs as [|x cs]; cbn [length].
  - rewrite Z.eqb_refl. reflexivity.
  - destruct (Z.eqb_spec (Z.of_nat (S (length cs)) * c + n) n); [nia|reflexivity].
Qed.

(** A chunk of [chunkLength] bytes is flushed: the signer takes it while the
    body has room for it. *)
Lemma flush_chunk env chunks seed cs st d :
  ValidEnv env chunks -> FramedEnv env -> StreamInv env seed cs st ->
  ps_length st + buf_length d = chunkLength env ->
  match (pushData d;; flushData env) st with
  | (Ok _, st') => StreamInv env seed (cs ++ [ps_hash st ++ d]) st' /\ ps_hash st' = []
  | (Throw e, _) =>
      bodyLength env < (Z.of_nat (length cs) + 1) * chunkLength env /\
      exists g x, e = UnexpectedChunkSize g x
  end.
Proof.
  intros Hv Hf (Hcs & Hh & Hl & Hlt & Hsg & Hle & Hw) Hd.
  destruct (ValidEnv_bounds _ _ Hv) as (Hc & _ & _ & Hlast).
  destruct st as [p n h sg out].
  cbn [ps_pending ps_length ps_hash ps_signer ps_pushed] in *. subst sg.
  unfold mbind, M_bind, pushData, modify.
  cbn [ps_pending ps_length ps_hash ps_signer ps_pushed].
  rewrite flushData_run, chunkSigner_unfold. cbn [done dataCount signature call_length
    from_option chunk_length]. cbv zeta.
  destruct (expectedFor_full env chunks (Z.of_nat (length cs)) Hv ltac:(lia) Hle)
    as [(H1 & H2 & H3) | (H1 & _ & H2 & _)]; cbv zeta in *; rewrite H2.
  - rewrite H3, Hd, Z.eqb_refl.
    replace (chunkLength env =? 0) with false by (symmetry; apply Z.eqb_neq; lia).
    split; [|reflexivity].
    assert (Hlen : buf_length (h ++ d) = chunkLength env).
    { rewrite buf_length_app. lia. }
    unfold StreamInv. cbn [ps_pending ps_length ps_hash ps_signer ps_pushed concat].
    split; [apply Forall_app; split; [exact Hcs | constructor; [exact Hlen | constructor]]|].
    split; [reflexivity|]. split; [reflexivity|]. split; [lia|].
    assert (Hsig : signS3Chunk (chainSig env seed cs) (signing env) (timestamp env)
                     (Some (ChunkDescription (toHex (sha256 (h ++ d))) (chunkLength env)))
                   = chainSig env seed (cs ++ [h ++ d])).
    { rewrite chainSig_snoc. unfold describe. rewrite Hlen. reflexivity. }
    rewrite Hsig. split; [|split].
    + f_equal. rewrite length_app. cbn [length]. lia.
    + rewrite length_app. cbn [length]. lia.
    + rewrite bodyFrames_snoc, !wire_app, <- Hw. unfold chunkFrame.
      rewrite Hlen. destruct Hf as (Hfc & _). rewrite Hfc. unfold frameHeader.
      rewrite (sep_first cs (chunkLength env) (chunkLength env) Hc).
      rewrite wire_buffers, concat_app, <- Hh. cbn [concat]. rewrite app_nil_r.
      destruct (cs ++ [h ++ d]) eqn:E; [destruct cs; discriminate|].
      change (?a :: ?b :: ?c) with ([a] ++ [b] ++ c).
      rewrite !wire_app, wire_buffer, !wire_string_app, !wire_string.
      rewrite !fmap_app, <- !app_assoc. reflexivity.
  - replace (n + buf_length d =? lastLength env) with false
      by (symmetry; apply Z.eqb_neq; lia).
    split; [lia|]. eexists _, _. reflexivity.
Qed.

Lemma StreamInv_length env seed cs st :
  StreamInv env seed cs st ->
  0 <= ps_length st < chunkLength env /\
  buf_length (concat cs) = Z.of_nat (length cs) * chunkLength env.
Proof.
  intros (Hcs & _ & Hl & Hlt & _). split.
  - unfold buf_length in Hl. lia.
  - apply concat_full_length, Hcs.
Qed.

(** The loop of [transform] ends within [data.length] iterations, and keeps
    every byte it is given: flushed in full chunks, or pending. *)
Lemma transform_loop_spec env chunks seed :
  ValidEnv env chunks -> FramedEnv env ->
  forall fuel data st cs,
    StreamInv env seed cs st -> (length data < fuel)%nat ->
    exists r st',
      transform_loop fuel env data st = Some (r, st') /\
      match r with
      | Ok _ => exists cs', StreamInv env seed cs' st' /\
                            concat cs' ++ ps_hash st' = concat cs ++ ps_hash st ++ data
      | Throw e => bodyLength env < buf_length (concat cs ++ ps_hash st ++ data) /\
                   exists g x, e = UnexpectedChunkSize g x
      end.
Proof.
  intros Hv Hf. induction fuel as [|fuel IH]; intros data st cs Hinv Hfuel; [lia|].
  destruct (StreamInv_length _ _ _ _ Hinv) as (Hn & Hflushed).
  cbn [transform_loop].
  destruct (Z.geb_spec (ps_length st + buf_length data) (chunkLength env)) as [Hge|Hlt].
  - set (l := chunkLength env - ps_length st).
    assert (Hl : 1 <= l <= buf_length data) by (unfold l; lia).
    rewrite buf_slice_take, buf_slice_drop by lia.
    assert (Htake : ps_length st + buf_length (take (Z.to_nat l) data) = chunkLength env).
    { unfold buf_length in *. rewrite length_take. lia. }
    pose proof (flush_chunk env chunks seed cs st _ Hv Hf Hinv Htake) as Hflush.
    destruct ((pushData (take (Z.to_nat l) data);; flushData env) st) as [[[]|e] st1].
    + destruct Hflush as [Hinv1 Hh1].
      destruct (IH (drop (Z.to_nat l) data) st1 _ Hinv1) as (r & st' & Hrun & Hr).
      { rewrite length_drop. unfold buf_length in Hl. lia. }
      exists r, st'. split; [exact Hrun|].
      assert (Hbytes : concat (cs ++ [ps_hash st ++ take (Z.to_nat l) data])
                       ++ ps_hash st1 ++ drop (Z.to_nat l) data
                       = concat cs ++ ps_hash st ++ data).
      { rewrite Hh1, concat_app. cbn [concat app]. rewrite app_nil_r, <- !app_assoc.
        rewrite take_drop. reflexivity. }
      rewrite Hbytes in Hr. exact Hr.
    + exists (Throw e), st1. split; [reflexivity|].
      destruct Hflush as [Hb He]. split; [|exact He].
      rewrite !buf_length_app, Hflushed.
      destruct Hinv as (_ & _ & Hlen & _). lia.
  - destruct (Z.eqb_spec (buf_length data) 0) as [E|E].
    + exists (Ok tt), st. split; [reflexivity|]. exists cs. split; [exact Hinv|].
      destruct data; [|discriminate]. rewrite app_nil_r. reflexivity.
    + eexists (Ok tt), _. split; [reflexivity|]. exists cs.
      destruct Hinv as (Hcs & Hh & Hlen & Hlt' & Hsg & Hle & Hw).
      destruct st as [p n h sg out].
      cbn [ps_pending ps_length ps_hash ps_signer ps_pushed] in *.
      unfold pushData, modify. cbn [snd ps_pending ps_length ps_hash ps_signer ps_pushed].
      split; [|reflexivity].
      unfold StreamInv. cbn [ps_pending ps_length ps_hash ps_signer ps_pushed].
      split; [exact Hcs|]. split.
      { rewrite concat_app, Hh. cbn [concat]. rewrite app_nil_r. reflexivity. }
      split; [rewrite buf_length_app; lia|]. split; [lia|].
      split; [exact Hsg|]. split; [exact Hle | exact Hw].
Qed.

(** The chunks of a body made of full chunks and a shorter rest. *)
Lemma chunked_from_spec (c : nat) (cs : list (list byte)) (rest : list byte) fuel :
  (0 < c)%nat -> Forall (fun x => length x = c) cs -> (length rest <= c)%nat ->
  (length (concat cs ++ rest) <= fuel)%nat ->
  chunked_from fuel c (concat cs ++ rest)
  = cs ++ match rest with [] => [] | _ => [rest] end.
Proof.
  intros Hc Hcs Hrest. revert fuel.
  induction Hcs as [|x cs Hx _ IH]; intros fuel Hfuel.
  - cbn [concat app] in *. destruct rest as [|b rest].
    + destruct fuel; reflexivity.
    + destruct fuel as [|fuel]; [cbn in Hfuel; lia|].
      cbn [chunked_from]. rewrite take_ge, drop_ge by lia.
      destruct fuel; reflexivity.
  - cbn [concat] in *. rewrite <- app_assoc in *.
    destruct x as [|b x]; [cbn in Hx; lia|].
    destruct fuel as [|fuel]; [cbn in Hfuel; lia|].
    change ((b :: x) ++ ?l) with (b :: (x ++ l)).
    cbn [chunked_from].
    change (b :: (x ++ ?l)) with ((b :: x) ++ l).
    rewrite take_app_length', drop_app_length' by (symmetry; exact Hx).
    rewrite IH; [reflexivity|].
    rewrite length_app in Hfuel. cbn [length] in Hfuel. lia.
Qed.

Lemma chunked_spec (c : Z) (cs : list (list byte)) (rest : list byte) :
  0 < c -> Forall (fun x => buf_length x = c) cs -> buf_length rest <= c ->
  chunked c (concat cs ++ rest) = cs ++ match rest with [] => [] | _ => [rest] end.
Proof.
  intros Hc Hcs Hrest. unfold chunked. apply chunked_from_spec.
  - lia.
  - eapply Forall_impl; [exact Hcs|]. unfold buf_length. intros x Hx. cbv beta in Hx. lia.
  - unfold buf_length in Hrest. lia.
  - reflexivity.
Qed.

(** [final]: the pending bytes are flushed as the last chunk and the body is
    closed, exactly when the bytes written are as many as declared. *)
Lemma final_spec env chunks seed cs st :
  ValidEnv env chunks -> FramedEnv env -> StreamInv env seed cs st ->
  let body := concat cs ++ ps_hash st in
  match final env st with
  | (Ok _, st') =>
      buf_length body = bodyLength env /\ done (ps_signer st') = true /\
      wire (ps_pushed st') = wire (awsChunked env seed body)
  | (Throw e, _) =>
      buf_length body <> bodyLength env /\ exists g x, e = UnexpectedChunkSize g x
  end /\
  Forall (fun c => buf_length c = chunkLength env) cs /\
  buf_length (ps_hash st) < chunkLength env.
Proof.
  intros Hv Hf Hinv body.
  split; [|destruct Hinv as (Hcs & _ & Hl & Hlt & _); split; [exact Hcs | lia]].
  destruct (StreamInv_length _ _ _ _ Hinv) as (Hn & Hflushed).
  destruct (ValidEnv_bounds _ _ Hv) as (Hc & _ & _ & Hlast).
  assert (Hbody : buf_length body = Z.of_nat (length cs) * chunkLength env + ps_length st).
  { unfold body. rewrite buf_length_app, Hflushed.
    destruct Hinv as (_ & _ & -> & _). reflexivity. }
  assert (Hchunks : chunked (chunkLength env) body
                    = cs ++ match ps_hash st with [] => [] | _ => [ps_hash st] end).
  { destruct Hinv as (Hcs & _ & Hl & _). apply chunked_spec; [lia | exact Hcs | lia]. }
  unfold awsChunked. rewrite Hchunks. clearbody body.
  destruct Hinv as (Hcs & Hh & Hl & Hlt & Hsg & Hle & Hw).
  destruct Hf as (Hfc & Hfl & Hff).
  destruct st as [p n h sg out].
  cbn [ps_pending ps_length ps_hash ps_signer ps_pushed] in *. subst sg.
  unfold final, mbind, M_bind, gets, mret, M_ret.
  cbn [ps_pending ps_length ps_hash ps_signer ps_pushed].
  destruct (expectedFor_full env chunks (Z.of_nat (length cs)) Hv ltac:(lia) Hle)
    as [(H1 & H2 & H3) | (H1 & _ & H2 & H4 & H5 & H6)]; cbv zeta in *.
  - (* the body has room for a full chunk more *)
    destruct (Z.eqb_spec n 0) as [E|E].
    + unfold callSigner. cbn [ps_signer]. rewrite chunkSigner_unfold.
      cbn [done dataCount signature call_length from_option]. cbv zeta. rewrite H2.
      replace (0 =? chunkLength env) with false by (symmetry; apply Z.eqb_neq; lia).
      split; [lia|]. eexists _, _. reflexivity.
    + rewrite flushData_run, chunkSigner_unfold.
      cbn [done dataCount signature call_length from_option chunk_length]. cbv zeta.
      rewrite H2.
      replace (n =? chunkLength env) with false by (symmetry; apply Z.eqb_neq; lia).
      split; [lia|]. eexists _, _. reflexivity.
  - destruct (Z.eqb_spec n 0) as [E|E].
    + (* nothing is pending *)
      unfold callSigner. cbn [ps_signer]. rewrite chunkSigner_unfold.
      cbn [done dataCount signature call_length from_option]. cbv zeta. rewrite H2.
      destruct (Z.eqb_spec 0 (lastLength env)) as [E0|E0].
      * unfold stream_push, modify.
        cbn [ps_pending ps_length ps_hash ps_signer ps_pushed done].
        split; [lia|]. split; [rewrite <- E0; reflexivity|].
        assert (h = []) as ->
          by (destruct h; [reflexivity | unfold buf_length in Hl; cbn [length] in Hl; lia]).
        rewrite app_nil_r, !wire_app, <- Hw.
        rewrite (sep_first cs (chunkLength env) (lastLength env) Hc).
        rewrite H6, Hff by lia. rewrite <- E0. unfold chunkFrame, frameHeader.
        change (?a :: ?b :: ?c) with ([a] ++ [b] ++ c).
        rewrite !wire_app, wire_buffer, !wire_string_app, !wire_string.
        rewrite ?fmap_app, <- ?app_assoc. reflexivity.
      * split; [lia|]. eexists _, _. reflexivity.
    + (* the pending bytes are the last chunk *)
      rewrite flushData_run, chunkSigner_unfold.
      cbn [done dataCount signature call_length from_option chunk_length]. cbv zeta.
      rewrite H2.
      destruct (Z.eqb_spec n (lastLength env)) as [E0|E0].
      * unfold callSigner. cbn [ps_signer]. rewrite chunkSigner_unfold.
        cbn [done dataCount signature call_length from_option]. cbv zeta.
        replace (lastLength env =? 0) with false by (symmetry; apply Z.eqb_neq; lia).
        assert (Hexp : expectedFor env (Z.of_nat (length cs) * chunkLength env
                                        + lastLength env) = 0).
        { unfold expectedFor, expectedLength.
          replace (Z.of_nat (length cs) * chunkLength env + lastLength env)
            with (bodyLength env) by lia.
          rewrite Z.sub_diag, Z.eqb_refl.
          destruct (Z.geb_spec 0 (chunkLength env)); [lia|reflexivity]. }
        assert (Hhdr : headerFor env (Z.of_nat (length cs) * chunkLength env
                                      + lastLength env) = finalHeader env).
        { unfold headerFor.
          replace (Z.of_nat (length cs) * chunkLength env + lastLength env)
            with (bodyLength env) by lia.
          rewrite Z.sub_diag, Z.eqb_refl.
          destruct (Z.geb_spec 0 (chunkLength env)); [lia|reflexivity]. }
        rewrite Hexp, Hhdr. cbn [Z.eqb].
        unfold stream_push, modify.
        cbn [ps_pending ps_length ps_hash ps_signer ps_pushed done].
        split; [lia|]. split; [reflexivity|].
        assert (Hne : h <> []) by (intros ->; unfold buf_length in Hl; cbn [length] in Hl; lia).
        destruct h as [|b h']; [congruence|]. set (h := b :: h') in *.
        rewrite bodyFrames_snoc, !wire_app, <- Hw.
        rewrite (sep_first cs (chunkLength env) (lastLength env) Hc).
        rewrite H5, Hfl, Hff by lia.
        rewrite chainSig_snoc. unfold describe. rewrite <- Hl, E0.
        unfold chunkFrame, frameHeader. rewrite <- Hl, E0.
        replace (Z.of_nat (length cs) * chunkLength env + lastLength env + 0 =? 0)
          with false by (symmetry; apply Z.eqb_neq; lia).
        rewrite wire_buffers, <- Hh.
        change (?a :: ?b :: ?c) with ([a] ++ [b] ++ c).
        rewrite !wire_app, !wire_buffer, !wire_string_app, !wire_string.
        rewrite ?fmap_app, <- ?app_assoc. reflexivity.
      * split; [lia|]. eexists _, _. reflexivity.
Qed.

Lemma StreamInv_init env chunks seed :
  ValidEnv env chunks -> StreamInv env seed [] (streamInit (signerInit seed)).
Proof.
  intros Hv. destruct (ValidEnv_bounds _ _ Hv) as (Hc & _ & _ & _).
  destruct Hv as (_ & Hb & _).
  unfold StreamInv, streamInit, signerInit.
  cbn [ps_pending ps_length ps_hash ps_signer ps_pushed concat length].
  repeat split; try reflexivity; try lia. constructor.
Qed.

(** A stream that is written and ended returns exactly when the bytes
    written are as many as declared, and has then pushed the encoding of the
    bytes written; any other stream throws on the length of a chunk. *)
Lemma runStream_spec env chunks seed :
  ValidEnv env chunks -> FramedEnv env ->
  forall writes st cs,
    StreamInv env seed cs st ->
    exists r st',
      runStream env writes st = Some (r, st') /\
      let body := concat cs ++ ps_hash st ++ concat writes in
      match r with
      | Ok _ =>
          buf_length body = bodyLength env /\ done (ps_signer st') = true /\
          wire (ps_pushed st') = wire (awsChunked env seed body) /\
          exists cs' rest, body = concat cs' ++ rest /\
            Forall (fun c => buf_length c = chunkLength env) cs' /\
            buf_length rest < chunkLength env
      | Throw e =>
          buf_length body <> bodyLength env /\ exists g x, e = UnexpectedChunkSize g x
      end.
Proof.
  intros Hv Hf. induction writes as [|data writes IH]; intros st cs Hinv.
  - cbn [runStream concat]. rewrite app_nil_r.
    pose proof (final_spec env chunks seed cs st Hv Hf Hinv) as [Hfin [Hcs Hrest]].
    cbv zeta in Hfin.
    destruct (final env st) as [[[]|e] st']; eexists _, st'; (split; [reflexivity|]).
    + cbv zeta. destruct Hfin as (H1 & H2 & H3). repeat split; try assumption.
      exists cs, (ps_hash st). auto.
    + exact Hfin.
  - cbn [runStream]. unfold transform.
    destruct (transform_loop_spec env chunks seed Hv Hf (S (length data)) data st cs Hinv
                ltac:(lia)) as (r1 & st1 & Hrun & Hr1).
    rewrite Hrun. destruct r1 as [[]|e].
    + destruct Hr1 as (cs1 & Hinv1 & Hbytes).
      destruct (IH st1 cs1 Hinv1) as (r & st' & Hrun' & Hr).
      exists r, st'. split; [exact Hrun'|].
      cbn [concat]. cbv zeta in *.
      replace (concat cs ++ ps_hash st ++ data ++ concat writes)
        with (concat cs1 ++ ps_hash st1 ++ concat writes).
      { exact Hr. }
      rewrite (app_assoc (concat cs1)), Hbytes, <- !app_assoc. reflexivity.
    + exists (Throw e), st1. split; [reflexivity|].
      destruct Hr1 as (Hlt & He). split; [|exact He].
      cbn [concat]. rewrite !buf_length_app in *.
      unfold buf_length in *. lia.
Qed.




(** X4. The stream checks the declared length. A stream that is written any
    buffers and then ended returns exactly when the bytes written are as many
    as the [bodyLength] declared; otherwise it throws, the exception being the
    signer's on an unexpected chunk size. The loop of [transform] ends on
    every write. *)
Theorem payloadSigner_checks_length bodyLen chunkLen l sg ts seed writes :
  chunkedLengths bodyLen chunkLen = Ok l ->
  let env := signerEnv bodyLen chunkLen l sg ts in
  exists r st,
    runStream env writes (streamInit (signerInit seed)) = Some (r, st) /\
    (r = Ok tt <-> buf_length (concat writes) = bodyLen) /\
    (forall e, r = Throw e -> exists got expected, e = UnexpectedChunkSize got expected).
Proof.
  intros Hl env.
  pose proof (chunkedLengths_valid _ _ _ sg ts Hl) as Hv.
  pose proof (chunkedLengths_framed _ _ _ sg ts Hl) as Hf.
  destruct (runStream_spec env _ seed Hv Hf writes _ [] (StreamInv_init _ _ seed Hv))
    as (r & st & Hrun & Hr).
  exists r, st. split; [exact Hrun|]. cbv zeta in Hr. cbn [concat app ps_hash streamInit] in Hr.
  destruct r as [[]|e].
  - destruct Hr as (Hlen & _). split; [split; [intros _; exact Hlen | reflexivity]|].
    intros e [=].
  - destruct Hr as (Hlen & He). split; [split; [intros [=] | intros H; contradiction]|].
    intros e' [= <-]. exact He.
Qed.

(** X5. What the stream emits. When the bytes written are as many as declared,
    the stream returns, the signer is done, and what the stream has pushed
    is, on the wire, the [aws-chunked] encoding of the bytes written: it
    depends on the bytes only, and not on the buffers they were written in. *)
Theorem payloadSigner_output bodyLen chunkLen l sg ts seed writes :
  chunkedLengths bodyLen chunkLen = Ok l ->
  buf_length (concat writes) = bodyLen ->
  let env := signerEnv bodyLen chunkLen l sg ts in
  exists st,
    runStream env writes (streamInit (signerInit seed)) = Some (Ok tt, st) /\
    done (ps_signer st) = true /\
    wire (ps_pushed st) = wire (awsChunked env seed (concat writes)).
Proof.
  intros Hl Hlen env.
  pose proof (chunkedLengths_valid _ _ _ sg ts Hl) as Hv.
  pose proof (chunkedLengths_framed _ _ _ sg ts Hl) as Hf.
  destruct (runStream_spec env _ seed Hv Hf writes _ [] (StreamInv_init _ _ seed Hv))
    as (r & st & Hrun & Hr).
  cbv zeta in Hr. cbn [concat app ps_hash streamInit] in Hr.
  destruct r as [[]|e].
  - exists st. destruct Hr as (_ & Hdone & Hwire & _). auto.
  - destruct Hr as (Hne & _). contradiction.
Qed.


(** ** The canonical query, the order of the parameters *)

(** The canonical query is a function of the values each key has. *)
Lemma getCanonicalQuery_ext (q q' : URLSearchParams) :
  (forall k, usp_getAll k q ≡ₚ usp_getAll k q') ->
  getCanonicalQuery q = getCanonicalQuery q'.
Proof.
  clear. intros Hv. unfold getCanonicalQuery.
  rewrite (getCanonicalQuery_loop (fun k => sort (usp_getAll k q))).
  rewrite (getCanonicalQuery_loop (fun k => sort (usp_getAll k q'))).
  assert (Hkey : forall (p : list (jsstring * jsstring)) k,
             k ∈ usp_keys p <-> usp_getAll k p <> []).
  { clear. intros p k. unfold usp_keys, usp_getAll. induction p as [|[k' v] p IH].
    - cbn. split; [intros H; inversion H | congruence].
    - unfold URLSearchParams. rewrite fmap_cons, elem_of_cons, filter_cons. cbn [fst].
      destruct (decide (k' = k)) as [->|Hne].
      + rewrite fmap_cons. split; [discriminate | auto].
      + rewrite <- IH. split; [intros [E|H]; [congruence | exact H] | auto]. }
  f_equal. f_equal. apply list_bind_ext.
  - intros k. f_equal.
    apply (Sorted_unique jsle); [apply sort_sorted..|].
    rewrite !sort_permutation. apply Hv.
  - f_equal.
    apply (Sorted_unique jsle); [apply sort_sorted..|].
    rewrite !sort_permutation.
    apply NoDup_Permutation; [apply newSet_NoDup..|].
    intros k. rewrite !elem_of_newSet, !Hkey.
    split; intros Hne E; apply Hne.
    + apply Permutation_nil_r. rewrite (Hv k), E. reflexivity.
    + apply Permutation_nil_r. rewrite <- (Hv k), E. reflexivity.
Qed.

(** X7. The order of the parameters does not count: two queries with the same
    pairs have the same canonical query. *)
Theorem getCanonicalQuery_order (q q' : URLSearchParams) :
  q ≡ₚ q' -> getCanonicalQuery q = getCanonicalQuery q'.
Proof.
  clear. intros Hp. apply getCanonicalQuery_ext. intros k.
  unfold usp_getAll. apply fmap_Permutation, filter_Permutation, Hp.
Qed.

Lemma getCanonicalQuery_ts_loop (vals : jsstring -> list jsstring) keys acc :
  foldl (fun (acc : option (list jsstring)) key =>
           parts ← acc;
           if bool_decide (key = []) then None
           else Some (foldl (fun parts value =>
                               parts ++ [(escape key ++ lit "=") ++ escape value])
                            parts (vals key)))
        acc keys
  = parts ← acc;
    if bool_decide ([] ∈ keys) then None
    else Some (foldl (fun parts key =>
                        if bool_decide (key = []) then parts
                        else foldl (fun parts value =>
                                      parts ++ [(escape key ++ lit "=") ++ escape value])
                                   parts (vals key))
                     parts keys).
Proof.
  clear. revert acc. induction keys as [|k keys IH]; intros acc.
  - destruct acc; reflexivity.
  - cbn [foldl]. rewrite IH. destruct acc as [parts|]; [|reflexivity].
    cbn [mbind option_bind].
    destruct (decide (k = [])) as [->|Hk].
    + rewrite (bool_decide_eq_true_2 ([] ∈ [] :: keys)) by apply list_elem_of_here.
      rewrite (bool_decide_eq_true_2 (@nil codeunit = [])) by reflexivity. reflexivity.
    + rewrite (bool_decide_eq_false_2 (k = [])) by exact Hk. cbn [option_bind].
      destruct (decide ([] ∈ keys)) as [Hin|Hin].
      * rewrite !bool_decide_eq_true_2;
          [reflexivity | apply list_elem_of_further; exact Hin | exact Hin].
      * rewrite !bool_decide_eq_false_2; [reflexivity | | exact Hin].
        intros [E|E]%elem_of_cons; [congruence | contradiction].
Qed.

(** X8. The two sources of the canonical query. The TypeScript source returns
    [undefined] exactly for a query that has a parameter with an empty key,
    and for every other query what [dist/http.js] returns. *)
Theorem getCanonicalQuery_ts_spec (q : URLSearchParams) :
  getCanonicalQuery_ts q
  = if bool_decide ([] ∈ usp_keys q) then None else Some (getCanonicalQuery q).
Proof.
  clear. unfold getCanonicalQuery_ts, getCanonicalQuery.
  rewrite (getCanonicalQuery_ts_loop (fun k => sort (usp_getAll k q))).
  cbn [mbind option_bind].
  destruct (decide ([] ∈ usp_keys q)) as [Hin|Hin].
  - rewrite !bool_decide_eq_true_2; [reflexivity | exact Hin |].
    rewrite sort_permutation, elem_of_newSet. exact Hin.
  - rewrite !bool_decide_eq_false_2; [reflexivity | exact Hin |].
    rewrite sort_permutation, elem_of_newSet. exact Hin.
Qed.

(** ** The cache of signing data, where it is right *)

Lemma app_sep_inj (a a' r r' : jsstring) :
  noSlash a -> noSlash a' -> a ++ 47%N :: r = a' ++ 47%N :: r' -> a = a' /\ r = r'.
Proof.
  clear. unfold noSlash. revert a'. induction a as [|x a IH]; intros [|x' a'] Ha Ha' E.
  - injection E as ->. auto.
  - injection E as <- _. exfalso. apply Ha'. apply list_elem_of_here.
  - injection E as -> _. exfalso. apply Ha. apply list_elem_of_here.
  - injection E as -> E. destruct (IH a') as [-> ->]; auto.
    + intros H. apply Ha. apply list_elem_of_further. exact H.
    + intros H. apply Ha'. apply list_elem_of_further. exact H.
Qed.

Lemma cache_key_inj (a b c d a' b' c' d' : jsstring) :
  noSlash a -> noSlash b -> noSlash c -> noSlash a' -> noSlash b' -> noSlash c' ->
  join (lit "/") [a; b; c; d] = join (lit "/") [a'; b'; c'; d'] ->
  a = a' /\ b = b' /\ c = c' /\ d = d'.
Proof.
  clear. intros Ha Hb Hc Ha' Hb' Hc' E. cbn [join] in E.
  change (lit "/") with [47%N] in E. cbn [app] in E.
  apply app_sep_inj in E as [-> E]; [|assumption..].
  apply app_sep_inj in E as [-> E]; [|assumption..].
  apply app_sep_inj in E as [-> ->]; [|assumption..].
  auto.
Qed.

Lemma substring_crop (a : jsstring) : substring (substring a 0 8) 0 8 = substring a 0 8.
Proof.
  clear. change (substring (substring a 0 8) 0 8) with (take 8 (take 8 a)).
  change (substring a 0 8) with (take 8 a). rewrite take_take. reflexivity.
Qed.

Lemma getSigningData_crop a b c d :
  getSigningData (substring a 0 8) b c d = getSigningData a b c d.
Proof. unfold getSigningData. rewrite substring_crop. reflexivity. Qed.

(** A call on arguments without [/] returns their signing data and leaves
    the cache holding it. *)
Lemma cached_getSigningData_ok a b c d st :
  noSlash (substring a 0 8) -> noSlash b -> noSlash c -> CacheInv st ->
  (_cached_getSigningData a b c d st).1 = Ok (Some (getSigningData a b c d)) /\
  CacheInv (_cached_getSigningData a b c d st).2.
Proof.
  intros Ha Hb Hc Hinv.
  unfold _cached_getSigningData, mbind, M_bind, gets, put, mret, M_ret.
  rewrite getSigningData_crop.
  assert (Hnew : CacheInv
                   {| cache_key := Some (join (lit "/") [substring a 0 8; b; c; d]);
                      cache_value := Some (getSigningData a b c d) |}).
  { right. exists (substring a 0 8), b, c, d. rewrite getSigningData_crop. auto. }
  case_bool_decide as Hkey; cbn [fst snd cache_value].
  - auto.
  - destruct Hinv as [Hnone | (a' & b' & c' & d' & Ha' & Hb' & Hc' & Hk & Hval)].
    + congruence.
    + rewrite Hk in Hkey. injection Hkey as Hkey.
      apply cache_key_inj in Hkey as (-> & -> & -> & ->); try assumption.
      rewrite Hval, getSigningData_crop. split; [reflexivity|].
      right. exists (substring a 0 8), b, c, d. auto.
Qed.

(** X9. The cache where it is right. While the date stamp, the secret key and
    the region of every call contain no [/], every call of the cached
    function returns the signing data [getSigningData] derives for its own
    arguments, whatever was asked before. *)
Theorem cached_getSigningData_transparent calls :
  Forall (fun '(a, b, c, _) => noSlash (substring a 0 8) /\ noSlash b /\ noSlash c) calls ->
  runCache calls makeSimpleCache
  = (fun '(a, b, c, d) => Ok (Some (getSigningData a b c d))) <$> calls.
Proof.
  intros Hcalls.
  assert (Hinit : CacheInv makeSimpleCache) by (left; reflexivity).
  revert Hinit. generalize makeSimpleCache as st.
  induction Hcalls as [|[[[a b] c] d] calls (Ha & Hb & Hc) _ IH]; intros st Hinv.
  - reflexivity.
  - cbn [runCache fmap list_fmap].
    destruct (cached_getSigningData_ok a b c d st Ha Hb Hc Hinv) as [Hr Hst].
    destruct (_cached_getSigningData a b c d st) as [r st'].
    cbn [fst snd] in Hr, Hst. subst r. f_equal. apply IH, Hst.
Qed.

(** ** Percent-encoding *)

Lemma escape_byte_alphabet b :
  Forall (fun c => is_unreserved c = true \/ c = 37%N) (escape_byte b).
Proof.
  clear. destruct b; vm_compute (escape_byte _);
    repeat (constructor; [first [left; reflexivity | right; reflexivity]|]); constructor.
Qed.

Lemma escape_byte_decode b t : percentDecode (escape_byte b ++ t) = b :: percentDecode t.
Proof.
  clear. destruct b;
    first [ reflexivity | destruct t as [|h [|l t']]; reflexivity ].
Qed.

Lemma escape_byte_unreserved b :
  is_unreserved (Byte.to_N b) = true -> escape_byte b = [Byte.to_N b].
Proof. clear. destruct b; vm_compute; intros H; first [reflexivity | discriminate H]. Qed.

(** X10. What [escape] writes: unreserved characters and [%], whatever the
    string. *)
Theorem escape_alphabet (str : jsstring) :
  Forall (fun c => is_unreserved c = true \/ c = 37%N) (escape str).
Proof.
  clear. unfold escape. induction (utf8 str) as [|b bs IH]; [constructor|].
  cbn [flat_map]. apply Forall_app. split; [apply escape_byte_alphabet | exact IH].
Qed.

(** X11. [escape] loses nothing: percent-decoding what it returns gives the
    UTF-8 bytes of the string. *)
Theorem escape_decode (str : jsstring) : percentDecode (escape str) = utf8 str.
Proof.
  clear. unfold escape. induction (utf8 str) as [|b bs IH]; [reflexivity|].
  cbn [flat_map]. rewrite escape_byte_decode, IH. reflexivity.
Qed.

(** X12. [escape] leaves a string of unreserved characters as it is. *)
Theorem escape_unreserved (str : jsstring) :
  Forall (fun c => is_unreserved c = true) str -> escape str = str.
Proof.
  clear. unfold escape. induction 1 as [|c str Hc _ IH]; [reflexivity|].
  assert (Hlt : (c < 128)%N).
  { unfold is_unreserved in Hc.
    repeat (apply orb_true_iff in Hc as [Hc|Hc]);
      rewrite ?andb_true_iff, ?N.leb_le, ?N.eqb_eq in Hc; lia. }
  cbn [utf8]. replace (c <? 128)%N with true by (symmetry; apply N.ltb_lt; exact Hlt).
  unfold utf8_1. cbn [app flat_map]. rewrite IH.
  assert (Hb : Byte.to_N (byte_of_N c) = c).
  { unfold byte_of_N. destruct (Byte.of_N c) as [b|] eqn:E.
    - apply Byte.to_of_N, E.
    - apply Byte.of_N_None_iff in E. lia. }
  rewrite escape_byte_unreserved by (rewrite Hb; exact Hc).
  rewrite Hb. reflexivity.
Qed.

(** ** The canonical headers *)

Lemma obj_set_fresh {V} (k : jsstring) (v : V) (o : list (jsstring * V)) :
  k ∉ o.*1 -> obj_set k v o = o ++ [(k, v)].
Proof.
  clear. induction o as [|[k' v'] o IH]; intros Hk; [reflexivity|].
  cbn [obj_set]. cbn [fmap list_fmap fst] in Hk. apply not_elem_of_cons in Hk as [Hne Hk].
  rewrite bool_decide_eq_false_2 by congruence. rewrite IH by exact Hk. reflexivity.
Qed.

Lemma obj_get_Some {V} (k : jsstring) (v : V) (o : list (jsstring * V)) :
  NoDup o.*1 -> obj_get k o = Some v <-> (k, v) ∈ o.
Proof.
  clear. induction o as [|[k' v'] o IH]; intros Hnd.
  - cbn. split; [discriminate | intros H; inversion H].
  - cbn [fmap list_fmap fst] in Hnd. apply NoDup_cons in Hnd as [Hk' Hnd].
    cbn [obj_get]. rewrite elem_of_cons. case_bool_decide as E.
    + subst k'. split.
      * intros [= ->]. left. reflexivity.
      * intros [[= ->] | Hin]; [reflexivity|].
        exfalso. apply Hk'. apply list_elem_of_fmap. exists (k, v). auto.
    + rewrite (IH Hnd). split; [auto|]. intros [[= -> ->] | Hin]; [congruence | exact Hin].
Qed.

Lemma obj_get_None {V} (k : jsstring) (o : list (jsstring * V)) :
  obj_get k o = None <-> k ∉ o.*1.
Proof.
  clear. induction o as [|[k' v'] o IH].
  - cbn. split; [intros _ H; inversion H | reflexivity].
  - cbn [obj_get fmap list_fmap fst]. rewrite not_elem_of_cons. case_bool_decide as E.
    + split; [discriminate | intros [Hne _]; congruence].
    + rewrite IH. split; [auto | intros [_ H]; exact H].
Qed.

(** A lookup does not depend on the order of the properties. *)
Lemma obj_get_Permutation {V} (k : jsstring) (o o' : list (jsstring * V)) :
  NoDup o.*1 -> o ≡ₚ o' -> obj_get k o = obj_get k o'.
Proof.
  clear. intros Hnd Hp.
  assert (Hnd' : NoDup o'.*1) by (rewrite <- Hp; exact Hnd).
  destruct (obj_get k o) as [v|] eqn:E.
  - symmetry. apply obj_get_Some; [exact Hnd'|]. rewrite <- Hp.
    apply obj_get_Some; assumption.
  - symmetry. apply obj_get_None. rewrite <- Hp. apply obj_get_None, E.
Qed.

Lemma headerNames_normalized headers : (normalizedHeaders headers).*1 = headerNames headers.
Proof.
  unfold normalizedHeaders, headerNames. rewrite <- !list_fmap_compose. reflexivity.
Qed.

Lemma normalizeHeaders_ok headers acc :
  NoDup (acc.*1 ++ headerNames headers) ->
  normalizeHeaders headers acc = Ok (acc ++ normalizedHeaders headers).
Proof.
  revert acc. induction headers as [|[k v] headers IH]; intros acc Hnd.
  - cbn. rewrite app_nil_r. reflexivity.
  - cbn [normalizeHeaders]. unfold headerNames in Hnd. cbn [fmap list_fmap fst] in Hnd.
    assert (Hk : toLowerCase k ∉ acc.*1).
    { apply NoDup_app in Hnd as (_ & Hd & _). intros Hin. apply (Hd _ Hin).
      apply list_elem_of_here. }
    unfold obj_has. rewrite bool_decide_eq_false_2 by exact Hk.
    rewrite (obj_set_fresh _ _ _ Hk).
    change (match v with
            | VArray l => join (lit ",") (trimHeader <$> l)
            | _ => trimHeader (toStr v)
            end) with (canonicalValue v).
    rewrite IH.
    + unfold normalizedHeaders. cbn [fmap list_fmap fst snd]. rewrite <- app_assoc. reflexivity.
    + rewrite fmap_app. cbn [fmap list_fmap fst]. rewrite <- app_assoc. exact Hnd.
Qed.


Lemma getCanonicalHeaders_ok headers :
  NoDup (headerNames headers) ->
  getCanonicalHeaders headers
  = Ok (join [] ((fun k => k ++ lit ":"
                             ++ default (lit "undefined") (obj_get k (normalizedHeaders headers))
                             ++ [10%N])
                 <$> sort (headerNames headers)),
        join (lit ";") (sort (headerNames headers))).
Proof.
  intros Hnd. unfold getCanonicalHeaders.
  rewrite (normalizeHeaders_ok headers []) by exact Hnd.
  cbn [mbind Res_bind app]. unfold obj_keys. rewrite headerNames_normalized. reflexivity.
Qed.


(** X14. The order of the headers does not count: two header objects with the
    same properties in another order have the same canonical headers and the
    same list of signed headers. *)
Theorem getCanonicalHeaders_order (headers headers' : JSObject) :
  NoDup (headerNames headers) -> headers ≡ₚ headers' ->
  getCanonicalHeaders headers = getCanonicalHeaders headers'.
Proof.
  intros Hnd Hp.
  assert (Hnames : headerNames headers ≡ₚ headerNames headers').
  { unfold headerNames. rewrite Hp. reflexivity. }
  assert (Hnd' : NoDup (headerNames headers')) by (rewrite <- Hnames; exact Hnd).
  rewrite !getCanonicalHeaders_ok by assumption.
  assert (Hsort : sort (headerNames headers) = sort (headerNames headers')).
  { apply (Sorted_unique jsle); [apply sort_sorted..|].
    rewrite !sort_permutation. exact Hnames. }
  rewrite <- Hsort. f_equal. f_equal. f_equal.
  apply list_fmap_ext. intros _ k _. f_equal. f_equal. f_equal. f_equal.
  apply obj_get_Permutation.
  - rewrite headerNames_normalized. exact Hnd.
  - unfold normalizedHeaders. rewrite Hp. reflexivity.
Qed.

(** ** Presigned URLs *)

Lemma usp_getAll_cons (k a v : jsstring) (q : list (jsstring * jsstring)) :
  usp_getAll k ((a, v) :: q)
  = if bool_decide (a = k) then v :: usp_getAll k q else usp_getAll k q.
Proof.
  clear. unfold usp_getAll, URLSearchParams. rewrite filter_cons. cbn [fst].
  destruct (decide (a = k)); case_bool_decide; try reflexivity; contradiction.
Qed.

Lemma usp_delete_cons (k a v : jsstring) (q : list (jsstring * jsstring)) :
  usp_delete k ((a, v) :: q)
  = if bool_decide (a = k) then usp_delete k q else (a, v) :: usp_delete k q.
Proof.
  clear. unfold usp_delete, URLSearchParams. rewrite filter_cons. cbn [fst].
  destruct (decide (a <> k)); case_bool_decide; try reflexivity; contradiction.
Qed.

Lemma usp_getAll_delete (k k' : jsstring) (q : list (jsstring * jsstring)) :
  usp_getAll k (usp_delete k' q) = if bool_decide (k = k') then [] else usp_getAll k q.
Proof.
  clear. induction q as [|[a v] q IH]; [case_bool_decide; reflexivity|].
  rewrite usp_delete_cons, (usp_getAll_cons k a v q).
  destruct (bool_decide (a = k')) eqn:Ha.
  - rewrite IH. apply bool_decide_eq_true in Ha.
    repeat case_bool_decide; try reflexivity; congruence.
  - rewrite usp_getAll_cons, IH. apply bool_decide_eq_false in Ha.
    repeat case_bool_decide; try reflexivity; congruence.
Qed.

Lemma usp_getAll_set (k k' v : jsstring) (q : list (jsstring * jsstring)) :
  usp_getAll k (usp_set k' v q) = if bool_decide (k = k') then [v] else usp_getAll k q.
Proof.
  clear. induction q as [|[a w] q IH].
  - cbn [usp_set]. rewrite usp_getAll_cons.
    repeat case_bool_decide; try reflexivity; congruence.
  - cbn [usp_set]. rewrite (usp_getAll_cons k a w q).
    destruct (bool_decide (a = k')) eqn:Ha.
    + rewrite usp_getAll_cons, usp_getAll_delete. apply bool_decide_eq_true in Ha.
      repeat case_bool_decide; try reflexivity; congruence.
    + rewrite usp_getAll_cons, IH. apply bool_decide_eq_false in Ha.
      repeat case_bool_decide; try reflexivity; congruence.
Qed.

Lemma usp_get_delete (k k' : jsstring) (q : list (jsstring * jsstring)) :
  k <> k' -> usp_get k (usp_delete k' q) = usp_get k q.
Proof.
  clear. intros Hne. unfold usp_get. induction q as [|[a w] q IH]; [reflexivity|].
  rewrite usp_delete_cons. cbn [obj_get].
  destruct (bool_decide (a = k')) eqn:Ha.
  - rewrite IH. apply bool_decide_eq_true in Ha.
    case_bool_decide; [congruence | reflexivity].
  - cbn [obj_get]. rewrite IH. reflexivity.
Qed.

Lemma usp_get_set (k k' v : jsstring) (q : list (jsstring * jsstring)) :
  usp_get k (usp_set k' v q) = if bool_decide (k = k') then Some v else usp_get k q.
Proof.
  clear. induction q as [|[a w] q IH].
  - unfold usp_get. cbn [usp_set obj_get].
    repeat case_bool_decide; try reflexivity; congruence.
  - cbn [usp_set]. destruct (bool_decide (a = k')) eqn:Ha.
    + apply bool_decide_eq_true in Ha. subst a.
      destruct (decide (k = k')) as [->|Hne].
      * unfold usp_get. cbn [obj_get]. rewrite !bool_decide_eq_true_2 by reflexivity.
        reflexivity.
      * rewrite (bool_decide_eq_false_2 (k = k')) by exact Hne.
        change (usp_get k ((k', v) :: usp_delete k' q))
          with (if bool_decide (k' = k) then Some v else usp_get k (usp_delete k' q)).
        change (usp_get k ((k', w) :: q))
          with (if bool_decide (k' = k) then Some w else usp_get k q).
        rewrite !bool_decide_eq_false_2 by congruence.
        apply usp_get_delete, Hne.
    + change (usp_get k ((a, w) :: usp_set k' v q))
        with (if bool_decide (a = k) then Some w else usp_get k (usp_set k' v q)).
      change (usp_get k ((a, w) :: q))
        with (if bool_decide (a = k) then Some w else usp_get k q).
      rewrite IH. apply bool_decide_eq_false in Ha.
      repeat case_bool_decide; try reflexivity; congruence.
Qed.

Lemma formatTimestamp_truthy now ts : formatTimestamp now = Ok ts -> falsy (Some ts) = false.
Proof.
  clear. unfold formatTimestamp. destruct (negb _); [discriminate|]. intros [= <-].
  destruct (filter _ _); reflexivity.
Qed.

(** [signRequestRaw] when query signing is asked for. *)
Lemma signRequestRaw_query now credentials method pathname query headers body options :
  truthy (opt_query options) = true ->
  signRequestRaw now credentials method pathname query headers body options
  = (let stamp := usp_get (lit "X-Amz-Date") query in
     '(ts, dated) ←
       (if falsy stamp
        then ts ← formatTimestamp now; mret (ts, [(lit "X-Amz-Date", VString ts)])
        else mret (default [] stamp, []));
     '(signing, credential) ← getSigning ts credentials options;
     cheaders ← getCanonicalHeaders headers;
     let result : JSObject :=
       dated ++ [(lit "X-Amz-Algorithm", VString MAIN_ALGORITHM);
                 (lit "X-Amz-Credential", VString credential);
                 (lit "X-Amz-SignedHeaders", VString cheaders.2)] in
     let creq :=
       getCanonical method pathname
         (usp_delete (lit "X-Amz-Signature")
            (foldl (fun q p => usp_set p.1 (toStr p.2) q) query result))
         cheaders (Some (BodyHash (hashBody body))) options in
     mret (result ++ [(lit "X-Amz-Signature",
                       VString (toHex (signDigest MAIN_ALGORITHM
                                         (toHex (sha256 (utf8 creq))) ts signing)))])).
Proof.
  intros Hq. unfold signRequestRaw. rewrite Hq. cbn [negb andb]. cbv zeta.
  destruct (falsy (usp_get (lit "X-Amz-Date") query)).
  - destruct (formatTimestamp now) as [ts|e]; [|reflexivity].
    cbn [mbind Res_bind mret Res_ret].
    destruct (getSigning ts credentials options) as [[signing credential]|e]; [|reflexivity].
    cbn [mbind Res_bind mret Res_ret].
    destruct (getCanonicalHeaders headers) as [cheaders|e]; reflexivity.
  - cbn [mbind Res_bind mret Res_ret].
    destruct (getSigning _ credentials options) as [[signing credential]|e]; [|reflexivity].
    cbn [mbind Res_bind mret Res_ret].
    destruct (getCanonicalHeaders headers) as [cheaders|e]; reflexivity.
Qed.

(** The values a key has in the query that query signing signs, and in the
    signed query when it is signed again. *)
Lemma signed_query_values (k ts alg cred sh sg : jsstring) (dated : JSObject)
    (query : list (jsstring * jsstring)) :
  dated = [] \/ dated = [(lit "X-Amz-Date", VString ts)] ->
  let result : JSObject :=
    dated ++ [(lit "X-Amz-Algorithm", VString alg); (lit "X-Amz-Credential", VString cred);
              (lit "X-Amz-SignedHeaders", VString sh)] in
  let set_all := foldl (fun q p => usp_set p.1 (toStr p.2) q) in
  usp_getAll k
    (usp_delete (lit "X-Amz-Signature")
       (set_all (set_all query (result ++ [(lit "X-Amz-Signature", VString sg)]))
                [(lit "X-Amz-Algorithm", VString alg); (lit "X-Amz-Credential", VString cred);
                 (lit "X-Amz-SignedHeaders", VString sh)]))
  = usp_getAll k (usp_delete (lit "X-Amz-Signature") (set_all query result)).
Proof.
  clear. intros Hd. cbv zeta.
  destruct Hd as [-> | ->]; cbn [app foldl fst snd toStr];
    rewrite ?usp_getAll_delete, ?usp_getAll_set, ?usp_getAll_delete, ?usp_getAll_set;
    repeat case_bool_decide; try reflexivity; congruence.
Qed.

Lemma getCanonical_query_ext method pathname (q q' : URLSearchParams) cheaders body
    options :
  getCanonicalQuery q = getCanonicalQuery q' ->
  getCanonical method pathname q cheaders body options
  = getCanonical method pathname q' cheaders body options.
Proof. unfold getCanonical. destruct cheaders. intros ->. reflexivity. Qed.

(** X15. A presigned URL verifies. When query signing returns, the query that
    carries the returned parameters (what [signRequest] writes with [set])
    can be signed again at any later time, and the signature computed then is
    the [X-Amz-Signature] the query carries: the parameters of the
    authorization themselves, and the old signature, do not enter the
    signature. *)
Theorem presigned_query_verifies now now' credentials method pathname query headers
    body options result :
  truthy (opt_query options) = true ->
  signRequestRaw now credentials method pathname query headers body options = Ok result ->
  let signed := foldl (fun q p => usp_set p.1 (toStr p.2) q) query result in
  exists result' sig,
    signRequestRaw now' credentials method pathname signed headers body options
      = Ok result' /\
    usp_get (lit "X-Amz-Signature") signed = Some sig /\
    obj_get (lit "X-Amz-Signature") result' = Some (VString sig) /\
    obj_get (lit "X-Amz-Signature") result = Some (VString sig).
Proof.
  intros Hq Hrun signed. subst signed.
  rewrite signRequestRaw_query in Hrun by exact Hq. cbv zeta in Hrun.
  assert (Hcase : exists ts dated,
             (dated = [] \/ dated = [(lit "X-Amz-Date", VString ts)]) /\
             falsy (Some ts) = false /\
             usp_get (lit "X-Amz-Date")
               (foldl (fun q p => usp_set p.1 (toStr p.2) q) query dated) = Some ts /\
             (if falsy (usp_get (lit "X-Amz-Date") query)
              then ts ← formatTimestamp now; mret (ts, [(lit "X-Amz-Date", VString ts)])
              else mret (default [] (usp_get (lit "X-Amz-Date") query), []))
             = Ok (ts, dated)).
  { destruct (falsy (usp_get (lit "X-Amz-Date") query)) eqn:Hts.
    - destruct (formatTimestamp now) as [ts|e] eqn:Hfmt; [|discriminate Hrun].
      exists ts, [(lit "X-Amz-Date", VString ts)].
      split; [right; reflexivity|]. split; [exact (formatTimestamp_truthy _ _ Hfmt)|].
      split; [|reflexivity]. cbn [foldl fst snd toStr]. rewrite usp_get_set.
      rewrite bool_decide_eq_true_2 by reflexivity. reflexivity.
    - destruct (usp_get (lit "X-Amz-Date") query) as [ts|] eqn:Hget; [|discriminate Hts].
      exists ts, []. split; [left; reflexivity|]. split; [exact Hts|].
      split; [exact Hget | reflexivity]. }
  destruct Hcase as (ts & dated & Hdated & Htruthy & Hstamp & Hfirst).
  rewrite Hfirst in Hrun. cbn [mbind Res_bind] in Hrun.
  destruct (getSigning ts credentials options) as [[signing credential]|e] eqn:Hsigning;
    [|discriminate Hrun].
  cbn [mbind Res_bind] in Hrun.
  destruct (getCanonicalHeaders headers) as [cheaders|e] eqn:Hheaders; [|discriminate Hrun].
  cbn [mbind Res_bind mret Res_ret] in Hrun. injection Hrun as <-.
  set (sig := toHex (signDigest MAIN_ALGORITHM _ ts signing)).
  set (result := dated ++ _).
  exists ([(lit "X-Amz-Algorithm", VString MAIN_ALGORITHM);
           (lit "X-Amz-Credential", VString credential);
           (lit "X-Amz-SignedHeaders", VString cheaders.2);
           (lit "X-Amz-Signature", VString sig)]), sig.
  assert (Hsigned : usp_get (lit "X-Amz-Date")
                      (foldl (fun q p => usp_set p.1 (toStr p.2) q) query
                         (result ++ [(lit "X-Amz-Signature", VString sig)])) = Some ts).
  { unfold result. rewrite <- app_assoc, foldl_app. cbn [app foldl fst snd toStr].
    rewrite !usp_get_set.
    rewrite !bool_decide_eq_false_2 by (intros E; vm_compute in E; discriminate E).
    exact Hstamp. }
  split; [|split; [|split]].
  - rewrite signRequestRaw_query by exact Hq. cbv zeta.
    rewrite Hsigned, Htruthy. cbn [mbind Res_bind mret Res_ret default from_option id].
    rewrite Hsigning. cbn [mbind Res_bind]. rewrite Hheaders.
    cbn [mbind Res_bind mret Res_ret app].
    rewrite (getCanonical_query_ext method pathname _
               (usp_delete (lit "X-Amz-Signature")
                  (foldl (fun q p => usp_set p.1 (toStr p.2) q) query result))).
    + reflexivity.
    + apply getCanonicalQuery_ext. intros k.
      pose proof (signed_query_values k ts MAIN_ALGORITHM credential cheaders.2 sig dated
                    query Hdated) as Hv.
      cbv zeta in Hv. unfold result.
      match goal with
      | |- ?X ≡ₚ ?Y => assert (E : X = Y) by exact Hv; rewrite E; reflexivity
      end.
  - rewrite foldl_app. cbn [foldl fst snd toStr]. rewrite usp_get_set.
    rewrite bool_decide_eq_true_2 by reflexivity. reflexivity.
  - clearbody sig. clear. cbn [obj_get].
    rewrite !bool_decide_eq_false_2 by (intros E; vm_compute in E; discriminate E).
    rewrite bool_decide_eq_true_2 by reflexivity. reflexivity.
  - clearbody sig. unfold result. clear -Hdated.
    destruct Hdated as [-> | ->]; cbn [app obj_get];
      rewrite !bool_decide_eq_false_2 by (intros E; vm_compute in E; discriminate E);
      rewrite bool_decide_eq_true_2 by reflexivity; reflexivity.
Qed.

(** ** [signS3ChunkedRequest] and the caller's objects *)

Lemma Inv_writeObject_fresh h0 h l o :
  Inv h0 h -> (h_next h0 <= l)%nat -> Inv h0 (writeObject l o h).2.
Proof.
  intros [(Hn & Hr & Ho & Hp & Hu) Hf] Hl. split.
  - unfold writeObject, Unmutated; simpl. repeat split; try lia; auto;
      intros l' Hl'; rewrite lookup_insert_ne by lia; auto.
  - exact Hf.
Qed.

(** A request object is assigned the value it had in [h0]. *)
Lemma Inv_writeRequest_same h0 h l r :
  Inv h0 h -> h_requests h0 !! l = Some r -> Inv h0 (writeRequest l r h).2.
Proof.
  intros [(Hn & Hr & Ho & Hp & Hu) Hf] Hl. split.
  - unfold writeRequest, Unmutated; simpl. repeat split; auto.
    intros l' Hl'. destruct (decide (l = l')) as [<-|Hne].
    + rewrite lookup_insert_eq. symmetry. exact Hl.
    + rewrite lookup_insert_ne by exact Hne. apply Hr, Hl'.
  - exact Hf.
Qed.

Lemma heap_wf_allocObject h o : heap_wf h -> heap_wf (allocObject o h).2.
Proof.
  intros Hwf l Hl. unfold allocObject in *. cbn [snd h_next h_requests h_urls h_objects
    h_params] in *. destruct (Hwf l ltac:(lia)) as (H1 & H2 & H3 & H4).
  repeat split; try assumption. rewrite lookup_insert_ne by lia. exact H3.
Qed.

Lemma heap_wf_allocRequest h r : heap_wf h -> heap_wf (allocRequest r h).2.
Proof.
  intros Hwf l Hl. unfold allocRequest in *. cbn [snd h_next h_requests h_urls h_objects
    h_params] in *. destruct (Hwf l ltac:(lia)) as (H1 & H2 & H3 & H4).
  repeat split; try assumption. rewrite lookup_insert_ne by lia. exact H1.
Qed.

Lemma heap_wf_writeObject h l o :
  heap_wf h -> (l < h_next h)%nat -> heap_wf (writeObject l o h).2.
Proof.
  intros Hwf Hlt l' Hl. unfold writeObject in *. cbn [snd h_next h_requests h_urls h_objects
    h_params] in *. destruct (Hwf l' Hl) as (H1 & H2 & H3 & H4).
  repeat split; try assumption. rewrite lookup_insert_ne by lia. exact H3.
Qed.

Lemma wp_writeObject l o Q h : Q (Ok tt) (writeObject l o h).2 -> wp (writeObject l o) Q h.
Proof. auto. Qed.
Lemma wp_writeRequest l r Q h : Q (Ok tt) (writeRequest l r h).2 -> wp (writeRequest l r) Q h.
Proof. auto. Qed.
Lemma wp_allocObject o Q h : Q (Ok (h_next h)) (allocObject o h).2 -> wp (allocObject o) Q h.
Proof. auto. Qed.

Lemma wp_readRequest_known l r Q h :
  h_requests h !! l = Some r -> Q (Ok r) h -> wp (readRequest l) Q h.
Proof. unfold wp, readRequest. intros ->. auto. Qed.

Lemma with_url_same r : with_url r (req_url r) = r.
Proof. destruct r. reflexivity. Qed.

(** Without [set], [patchHeaders] assigns to a headers object of its own. *)
Lemma wp_patchHeaders h request extra (Q : Res loc -> Heap -> Prop) :
  heap_wf h ->
  (forall e, Q (Throw e) h) ->
  (forall h', Inv h h' -> heap_wf h' -> h_requests h' = h_requests h ->
              Q (Ok (h_next h)) h') ->
  wp (patchHeaders request extra false) Q h.
Proof.
  intros Hwf HT HQ. unfold patchHeaders.
  apply wp_bind, wp_readRequest; [intros req Hreq | exact HT].
  apply wp_bind, wp_bind.
  apply (wp_cut _ (fun r h' => h' = h)).
  { destruct (req_headers req) as [l|]; cbn [from_option].
    - apply wp_readObject; reflexivity.
    - reflexivity. }
  intros [old|e] h' ->; [|exact (HT e)].
  apply wp_allocObject. cbv beta iota.
  apply wp_bind.
  assert (Hread : readObject (h_next h) (allocObject old h).2 = (Ok old, (allocObject old h).2)).
  { unfold readObject, allocObject. cbn [snd h_objects]. rewrite lookup_insert_eq.
    reflexivity. }
  unfold wp at 1. rewrite Hread. cbn [fst snd].
  apply wp_bind, wp_writeObject. cbv beta iota. apply wp_ret.
  apply HQ.
  - apply Inv_writeObject_fresh; [|unfold allocObject; cbn; lia].
    apply Inv_allocObject, Inv_refl, Hwf.
  - apply heap_wf_writeObject; [apply heap_wf_allocObject, Hwf|].
    unfold allocObject; cbn; lia.
  - reflexivity.
Qed.

(** X16. Payload streaming and the caller's objects. Without the [set] option,
    [signS3ChunkedRequest], whether it returns or throws, leaves the caller's
    request object, its headers object and its query parameters as they are
    (the assignment [originalRequest.url = request.url] writes the reference
    the request already holds), and of the url object changes only a host that
    was missing. *)
Theorem signS3ChunkedRequest_without_set_frame now credentials request bodyLen chunkLen
    options h :
  heap_wf h ->
  truthy (opt_set options) = false ->
  Unmutated h (signS3ChunkedRequest now credentials request bodyLen chunkLen options h).2.
Proof.
  intros Hwf Hset.
  enough (HI : Inv h (signS3ChunkedRequest now credentials request bodyLen chunkLen
                        options h).2) by apply HI.
  pose proof (Inv_refl h Hwf) as HI0.
  as_wp. unfold signS3ChunkedRequest. rewrite Hset.
  apply wp_bind, wp_readRequest; [intros req Hreq | intros; exact HI0].
  apply wp_bind, (wp_cut _ (fun _ h' => h' = h)).
  { destruct (req_headers req) as [l|]; cbn [from_option].
    - apply wp_fmap, wp_readObject; reflexivity.
    - reflexivity. }
  intros [headers|e] h' ->; [|exact HI0].
  apply wp_bind, wp_lift.
  destruct (chunkedLengths bodyLen chunkLen) as [lengths|e]; [|exact HI0].
  destruct (getHeader headers (lit "content-encoding")) as [encodingName encoding].
  cbv zeta.
  apply wp_bind, (wp_cut _ (fun _ h' => h' = h)).
  { destruct (falsy _).
    - apply wp_bind, wp_lift. destruct (formatTimestamp now); reflexivity.
    - reflexivity. }
  intros [[timestamp extra]|e] h' ->; [|exact HI0].
  apply wp_bind, wp_patchHeaders; [exact Hwf | intros; exact HI0 |].
  intros h2 HI2 Hwf2 Hreqs2.
  apply wp_bind, wp_readRequest; [intros req2 Hreq2 | intros; exact HI2].
  assert (req2 = req) as -> by congruence.
  apply wp_bind, wp_allocRequest. cbv beta iota.
  match goal with
  | |- context [allocRequest ?r h2] => set (req' := r); set (h3 := (allocRequest req' h2).2)
  end.
  pose proof (Inv_allocRequest h h2 req' HI2) as HI3. fold h3 in HI3.
  pose proof (heap_wf_allocRequest h2 req' Hwf2) as Hwf3. fold h3 in Hwf3.
  assert (Hreq3 : h_requests h3 !! h_next h2 = Some req').
  { unfold h3, allocRequest. cbn [snd h_requests]. apply lookup_insert_eq. }
  apply wp_bind.
  match goal with
  | |- wp (signS3Request now credentials ?r ?o) _ _ =>
      apply (wp_cut _ (fun _ h' => Inv h h' /\ Inv h3 h'));
        [split; apply (signS3Request_preserves now credentials r o);
           first [exact Hset | exact HI3 | exact (Inv_refl h3 Hwf3)] |]
  end.
  intros [signed|e] h4 [HI4 HI4']; [|exact HI4].
  assert (Hreq4' : h_requests h4 !! h_next h2 = Some req').
  { destruct HI4' as [(_ & Hr & _) _]. rewrite Hr; [exact Hreq3|].
    unfold h3, allocRequest. cbn [snd h_next]. lia. }
  assert (Hlt : (request < h_next h)%nat).
  { destruct (decide (request < h_next h)%nat) as [Hlt|Hge]; [exact Hlt|].
    destruct (Hwf request ltac:(lia)) as (Hnone & _).
    discriminate (eq_trans (eq_sym Hnone) Hreq). }
  assert (Hreq4 : h_requests h4 !! request = Some req).
  { destruct HI4 as [(_ & Hr & _) _]. rewrite Hr; [exact Hreq | exact Hlt]. }
  apply wp_bind, (wp_readRequest_known _ _ _ _ Hreq4').
  apply wp_bind, (wp_readRequest_known _ _ _ _ Hreq4).
  apply wp_bind, wp_writeRequest. cbv beta iota.
  assert (HI5 : Inv h (writeRequest request (with_url req (req_url req')) h4).2).
  { unfold req'. cbn [req_url with_body with_headers]. rewrite with_url_same.
    apply Inv_writeRequest_same; assumption. }
  apply wp_bind, wp_lift.
  destruct (match obj_get (lit "authorization") _ with
            | Some (VString header) => parseAuthorization header
            | _ => Throw (TypeError "header")
            end) as [auth|e]; [|exact HI5].
  destruct (drop 2 (take 4 (split 47%N (auth_credential auth)))) as [|? [|? [|? ?]]];
    first [apply wp_ret | apply wp_throw]; exact HI5.
Qed.

(** ** The canonical URI *)




(** ** [parseAuthorization] of the TypeScript source *)

Lemma lastValue_three name (k1 v1 k2 v2 k3 v3 : jsstring) :
  lastValue name [(k1, v1); (k2, v2); (k3, v3)]
  = if decide (k3 = name) then Some v3
    else if decide (k2 = name) then Some v2
    else if decide (k1 = name) then Some v1 else None.
Proof.
  clear. unfold lastValue. rewrite !filter_cons, filter_nil. cbn [fst].
  destruct (decide (k1 = name)), (decide (k2 = name)), (decide (k3 = name)); reflexivity.
Qed.

(** X18. The TypeScript source takes exactly three fields. A header it accepts
    has, after the algorithm and a space, three fields separated by commas,
    and these are, in some order and with their names and values trimmed,
    [Credential], [SignedHeaders] and [Signature]: a further field or a
    repeated one is refused, where [dist/http.js] accepts it. *)
Theorem parseAuthorization_ts_exact header x :
  parseAuthorization_ts header = Ok x ->
  exists algorithm rest pairs sig,
    split1 header 32%N = Ok (algorithm, rest) /\
    Forall2 (fun raw p => exists n v, split1 raw 61%N = Ok (n, v) /\ p = (trim n, trim v))
            (split 44%N rest) pairs /\
    pairs ≡ₚ [(lit "Credential", auth_credential x);
              (lit "SignedHeaders", auth_signedHeaders x);
              (lit "Signature", sig)] /\
    alnumPairs sig = true /\
    auth_signature x = fromHex sig /\
    auth_algorithm x = trim algorithm.
Proof.
  clear. unfold parseAuthorization_ts. intros Hrun.
  destruct (split1 header 32%N) as [[algorithm rest]|e] eqn:Hsplit; [|discriminate Hrun].
  cbn [mbind Res_bind fst snd] in Hrun.
  destruct (length (split 44%N rest) =? 3)%nat eqn:Hlen; [|discriminate Hrun].
  cbn [negb] in Hrun. apply Nat.eqb_eq in Hlen.
  destruct (mapM _ (split 44%N rest)) as [pairs|e] eqn:Hmap; [|discriminate Hrun].
  cbn [mbind Res_bind] in Hrun.
  apply mapM_Res_ok in Hmap.
  assert (Hfields : Forall2 (fun raw p => exists n v, split1 raw 61%N = Ok (n, v)
                                                      /\ p = (trim n, trim v))
                            (split 44%N rest) pairs).
  { eapply Forall2_impl; [exact Hmap|]. intros raw p Hp. cbv beta in Hp.
    destruct (split1 raw 61%N) as [[n v]|e]; [|discriminate Hp].
    injection Hp as <-. exists n, v. auto. }
  pose proof (Forall2_length _ _ _ Hmap) as Hlen'. rewrite Hlen in Hlen'.
  destruct pairs as [|[k1 v1] [|[k2 v2] [|[k3 v3] [|? ?]]]]; try discriminate Hlen'.
  rewrite !newMap_lookup, !lastValue_three in Hrun.
  exists algorithm, rest, [(k1, v1); (k2, v2); (k3, v3)].
  assert (Hne1 : lit "Signature" <> lit "Credential") by (intros E; vm_compute in E; discriminate E).
  assert (Hne2 : lit "Signature" <> lit "SignedHeaders") by (intros E; vm_compute in E; discriminate E).
  assert (Hne3 : lit "Credential" <> lit "SignedHeaders") by (intros E; vm_compute in E; discriminate E).
  destruct (decide (k3 = lit "Signature")) as [E3|N3];
    destruct (decide (k2 = lit "Signature")) as [E2|N2];
    destruct (decide (k1 = lit "Signature")) as [E1|N1];
    destruct (decide (k3 = lit "Credential")) as [F3|M3];
    destruct (decide (k2 = lit "Credential")) as [F2|M2];
    destruct (decide (k1 = lit "Credential")) as [F1|M1];
    destruct (decide (k3 = lit "SignedHeaders")) as [G3|L3];
    destruct (decide (k2 = lit "SignedHeaders")) as [G2|L2];
    destruct (decide (k1 = lit "SignedHeaders")) as [G1|L1];
    try discriminate Hrun; try congruence;
    match type of Hrun with
    | (if negb (alnumPairs ?sig) then _ else _) = _ =>
        exists sig; destruct (alnumPairs sig) eqn:Hsig; [|discriminate Hrun];
        cbn [negb] in Hrun; injection Hrun as <-;
        cbn [auth_credential auth_signedHeaders auth_signature auth_algorithm];
        subst k1 k2 k3;
        (split; [reflexivity|]); (split; [exact Hfields|]);
        (split; [|auto])
    end.
  all: first
         [ reflexivity
         | apply perm_swap
         | apply perm_skip, perm_swap
         | etransitivity; [apply perm_swap | apply perm_skip, perm_swap]
         | etransitivity; [apply perm_skip, perm_swap | apply perm_swap]
         | etransitivity; [apply perm_swap|];
           etransitivity; [apply perm_skip, perm_swap | apply perm_swap] ].
Qed.


End Program.

(** * The statements at concrete inputs

    The sample runtime stands for the runtime's functions; the statements
    above hold for every runtime. *)

Lemma sample_hmac_length key data : length (sample_hmac key data) = 32%nat.
Proof. reflexivity. Qed.

(** The call contract for a body of 16484 bytes in chunks of 8192. *)
Lemma chunkSigner_call_contract_witness :
  exists l, chunkedLengths 16484 8192 = Ok l /\
            cl_chunks l = 16484 / 8192 /\ chainCalls (cl_chunks l) (cl_lastLength l) = 4.
Proof.
  eexists. split; [reflexivity|]. split; [|reflexivity].
  exact (proj1 (chunkSigner_call_contract sample_sha256 sample_hmac 16484 8192 _
                  {| key := []; scope := [] |} [] [] eq_refl)).
Defined.

(** The invariant after three calls, of which the second is refused. *)
Lemma chunkSigner_invariant_witness :
  exists l, chunkedLengths 16484 8192 = Ok l /\
    let env := signerEnv 16484 8192 l {| key := []; scope := [] |} [] in
    let calls := [callOfLength 8192; callOfLength 7; callOfLength 8192] in
    0 <= dataCount (run sample_sha256 sample_hmac env calls (signerInit [])).2 <= 16484.
Proof.
  eexists. split; [reflexivity|].
  exact (proj1 (chunkSigner_invariant sample_sha256 sample_hmac 16484 8192 _
                  {| key := []; scope := [] |} [] [] eq_refl
                  [callOfLength 8192; callOfLength 7; callOfLength 8192])).
Defined.

(** The framing of the one call of an empty body. *)
Lemma chunkSigner_framing_witness :
  exists l, chunkedLengths 0 8192 = Ok l /\ chainCalls (cl_chunks l) (cl_lastLength l) = 1.
Proof.
  eexists. split; [reflexivity|].
  exact (proj1 (proj2 (chunkSigner_framing sample_sha256 sample_hmac sample_hmac_length
                         0 8192 _ {| key := []; scope := [] |} [] [] eq_refl)
                      eq_refl eq_refl)).
Defined.


(** C4 as it is written fails: a credential that ends in a space comes back
    without the space, and a record with an empty algorithm does not parse. *)
Lemma parseAuthorization_buildAuthorization_counterexample :
  (wellFormedAuthorization
     {| auth_algorithm := lit "AWS4-HMAC-SHA256"; auth_credential := lit "AKID ";
        auth_signedHeaders := lit "host"; auth_signature := [xab; xcd] |} /\
   parseAuthorization
     (buildAuthorization
        {| auth_algorithm := lit "AWS4-HMAC-SHA256"; auth_credential := lit "AKID ";
           auth_signedHeaders := lit "host"; auth_signature := [xab; xcd] |})
   = Ok {| auth_algorithm := lit "AWS4-HMAC-SHA256"; auth_credential := lit "AKID";
           auth_signedHeaders := lit "host"; auth_signature := [xab; xcd] |}) /\
  (wellFormedAuthorization
     {| auth_algorithm := []; auth_credential := lit "AKID";
        auth_signedHeaders := lit "host"; auth_signature := [xab; xcd] |} /\
   parseAuthorization
     (buildAuthorization
        {| auth_algorithm := []; auth_credential := lit "AKID";
           auth_signedHeaders := lit "host"; auth_signature := [xab; xcd] |})
   = Throw InvalidAuthorizationFields).
Proof.
  split; (split; [|vm_compute; reflexivity]);
    unfold wellFormedAuthorization;
    repeat split; try discriminate;
    apply (bool_decide_unpack _); vm_compute; exact I.
Qed.

(** The round trip of a record as [signRequestRaw] builds it. *)
Lemma parseAuthorization_buildAuthorization_witness :
  parseAuthorization
    (buildAuthorization
       {| auth_algorithm := lit "AWS4-HMAC-SHA256";
          auth_credential := lit "AKID/20200101/us-east-1/s3/aws4_request";
          auth_signedHeaders := lit "host;x-amz-date"; auth_signature := [xab; xcd] |})
  = Ok {| auth_algorithm := lit "AWS4-HMAC-SHA256";
          auth_credential := lit "AKID/20200101/us-east-1/s3/aws4_request";
          auth_signedHeaders := lit "host;x-amz-date"; auth_signature := [xab; xcd] |}.
Proof.
  apply parseAuthorization_buildAuthorization.
  - unfold wellFormedAuthorization. repeat split; try discriminate;
      apply (bool_decide_unpack _); vm_compute; exact I.
  - discriminate.
  - reflexivity.
  - reflexivity.
  - reflexivity.
  - reflexivity.
Defined.

(** C5 as it is written fails: a header with a repeated field and a further
    field parses, the last [Credential] giving the value. *)
Lemma parseAuthorization_accepts_extra_fields :
  parseAuthorization
    (lit "AWS4-HMAC-SHA256 Credential=a, Credential=b, SignedHeaders=h, Signature=ab, Extra=1")
  = Ok {| auth_algorithm := lit "AWS4-HMAC-SHA256"; auth_credential := lit "b";
          auth_signedHeaders := lit "h"; auth_signature := [xab] |}.
Proof. vm_compute. reflexivity. Qed.

(** C6 as it is written fails: without [set], for a request whose url is an
    object without a host, [signRequest] and [signS3Request] return and the
    caller's url object has been given a host. *)
Lemma signRequest_mutates_url_object :
  let h0 :=
    {| h_next := 2%nat;
       h_requests := {[ 0%nat := {| req_method := None; req_url := inr 1%nat;
                                    req_headers := None; req_body := None;
                                    req_unsigned := None |} ]};
       h_urls := {[ 1%nat := {| url_host := None; url_pathname := Some (lit "/x");
                                url_searchParams := None |} ]};
       h_objects := ∅; h_params := ∅ |} in
  let credentials :=
    {| accessKey := lit "AKID"; secretKey := lit "secret";
       regionName := Some (lit "us-east-1"); serviceName := Some (lit "s3") |} in
  let options :=
    {| opt_set := None; opt_query := None; opt_setContentHash := None;
       opt_dontNormalize := None; opt_onlyEncodeOnce := None;
       opt_getSigningData := None |} in
  let now := lit "2020-01-02T03:04:05.678Z" in
  let run1 := signRequest sample_sha256 sample_hmac ascii_toLowerCase ascii_toUpperCase
                plain_unescape (fun _ => None) (fun s _ _ => s) (fun _ => None)
                now credentials 0%nat options h0 in
  let run2 := signS3Request sample_sha256 sample_hmac ascii_toLowerCase ascii_toUpperCase
                plain_unescape (fun _ => None) (fun s _ _ => s) (fun _ => None)
                now credentials 0%nat options h0 in
  (is_ok run1.1 = true /\
   h_urls run1.2 !! 1%nat
   = Some {| url_host := Some (lit "s3.us-east-1.amazonaws.com");
             url_pathname := Some (lit "/x"); url_searchParams := None |} /\
   h_urls run1.2 !! 1%nat <> h_urls h0 !! 1%nat) /\
  (is_ok run2.1 = true /\
   h_urls run2.2 !! 1%nat
   = Some {| url_host := Some (lit "s3.us-east-1.amazonaws.com");
             url_pathname := Some (lit "/x"); url_searchParams := None |} /\
   h_urls run2.2 !! 1%nat <> h_urls h0 !! 1%nat).
Proof.
  cbv zeta. split; (split; [vm_compute; reflexivity|]);
    (split; [vm_compute; reflexivity|]); vm_compute; discriminate.
Qed.

(** The frame at the same request: the request object is as it was. *)
Lemma signing_without_set_frame_witness :
  let h0 :=
    {| h_next := 2%nat;
       h_requests := {[ 0%nat := {| req_method := None; req_url := inr 1%nat;
                                    req_headers := None; req_body := None;
                                    req_unsigned := None |} ]};
       h_urls := {[ 1%nat := {| url_host := None; url_pathname := Some (lit "/x");
                                url_searchParams := None |} ]};
       h_objects := ∅; h_params := ∅ |} in
  let credentials :=
    {| accessKey := lit "AKID"; secretKey := lit "secret";
       regionName := Some (lit "us-east-1"); serviceName := Some (lit "s3") |} in
  let options :=
    {| opt_set := None; opt_query := None; opt_setContentHash := None;
       opt_dontNormalize := None; opt_onlyEncodeOnce := None;
       opt_getSigningData := None |} in
  Unmutated h0
    (signRequest sample_sha256 sample_hmac ascii_toLowerCase ascii_toUpperCase
       plain_unescape (fun _ => None) (fun s _ _ => s) (fun _ => None)
       (lit "2020-01-02T03:04:05.678Z") credentials 0%nat options h0).2.
Proof.
  cbv zeta.
  lazymatch goal with
  | |- Unmutated ?h0 (signRequest _ _ _ _ _ _ _ _ ?now ?c ?r ?o _).2 =>
      refine (proj1 (signing_without_set_frame sample_sha256 sample_hmac ascii_toLowerCase
                       ascii_toUpperCase plain_unescape (fun _ => None) (fun s _ _ => s)
                       (fun _ => None) now c r o h0 _ eq_refl))
  end.
  intros l Hl. cbn [h_next h_requests h_urls h_objects h_params] in *.
  rewrite !lookup_singleton_ne by lia. rewrite !lookup_empty. auto.
Defined.

(** Two clocks, one explicit timestamp. *)
Lemma signRequestRaw_deterministic_witness :
  let credentials :=
    {| accessKey := lit "AKID"; secretKey := lit "secret";
       regionName := Some (lit "us-east-1"); serviceName := Some (lit "s3") |} in
  let options :=
    {| opt_set := None; opt_query := None; opt_setContentHash := None;
       opt_dontNormalize := None; opt_onlyEncodeOnce := None;
       opt_getSigningData := None |} in
  let headers : JSObject :=
    [(lit "Host", VString (lit "example.amazonaws.com"));
     (lit "X-Amz-Date", VString (lit "20200102T030405Z"))] in
  signRequestRaw sample_sha256 sample_hmac ascii_toLowerCase ascii_toUpperCase
    plain_unescape (lit "2020-01-02T03:04:05.678Z") credentials (lit "GET") (lit "/")
    [] headers None options
  = signRequestRaw sample_sha256 sample_hmac ascii_toLowerCase ascii_toUpperCase
      plain_unescape (lit "2021-11-12T13:14:15.000Z") credentials (lit "GET") (lit "/")
      [] headers None options.
Proof.
  cbv zeta. apply signRequestRaw_deterministic. vm_compute. reflexivity.
Defined.

(** The date stamp and the timestamp of one clock reading. *)
Lemma getSigningData_timestamp_or_date_witness :
  exists ts ds,
    formatTimestamp (lit "2020-01-02T03:04:05.678Z") = Ok ts /\
    formatDate (lit "2020-01-02T03:04:05.678Z") = Ok ds /\
    getSigningData sample_hmac ts (lit "secret") (lit "us-east-1") (lit "s3")
    = getSigningData sample_hmac ds (lit "secret") (lit "us-east-1") (lit "s3").
Proof.
  destruct (getSigningData_timestamp_or_date sample_hmac (lit "2020-01-02T03:04:05.678Z")
              (lit "secret") (lit "us-east-1") (lit "s3") eq_refl)
    as (ts & ds & H1 & H2 & _ & _ & H3 & _).
  exists ts, ds. auto.
Defined.

(** A body of three bytes written in two buffers. *)
Lemma payloadSigner_checks_length_witness :
  exists l, chunkedLengths 3 8192 = Ok l /\
    exists st,
      runStream sample_sha256 sample_hmac
        (signerEnv 3 8192 l {| key := []; scope := [] |} [])
        [[x01]; [x02; x03]] (streamInit (signerInit []))
      = Some (Ok tt, st).
Proof.
  eexists. split; [reflexivity|].
  destruct (payloadSigner_checks_length sample_sha256 sample_hmac 3 8192 _
              {| key := []; scope := [] |} [] [] [[x01]; [x02; x03]] eq_refl)
    as (r & st & Hrun & Hiff & _).
  exists st. rewrite Hrun. f_equal. f_equal. apply Hiff. reflexivity.
Defined.

(** The same bytes in one buffer and in two. *)
Lemma payloadSigner_output_witness :
  exists l, chunkedLengths 3 8192 = Ok l /\
    let env := signerEnv 3 8192 l {| key := []; scope := [] |} [] in
    exists st1 st2,
      runStream sample_sha256 sample_hmac env [[x01; x02; x03]] (streamInit (signerInit []))
        = Some (Ok tt, st1) /\
      runStream sample_sha256 sample_hmac env [[x01]; [x02; x03]] (streamInit (signerInit []))
        = Some (Ok tt, st2) /\
      wire (ps_pushed st1) = wire (ps_pushed st2).
Proof.
  eexists. split; [reflexivity|]. cbv zeta.
  destruct (payloadSigner_output sample_sha256 sample_hmac 3 8192 _
              {| key := []; scope := [] |} [] [] [[x01; x02; x03]] eq_refl eq_refl)
    as (st1 & H1 & _ & W1).
  destruct (payloadSigner_output sample_sha256 sample_hmac 3 8192 _
              {| key := []; scope := [] |} [] [] [[x01]; [x02; x03]] eq_refl eq_refl)
    as (st2 & H2 & _ & W2).
  exists st1, st2. split; [exact H1|]. split; [exact H2|].
  rewrite W1, W2. reflexivity.
Defined.


(** Two parameters in either order. *)
Lemma getCanonicalQuery_order_witness :
  getCanonicalQuery [(lit "b", lit "1"); (lit "a", lit "2")]
  = getCanonicalQuery [(lit "a", lit "2"); (lit "b", lit "1")].
Proof. apply getCanonicalQuery_order. apply Permutation_swap. Defined.

(** Two calls that differ in the region, and the first one again. *)
Lemma cached_getSigningData_transparent_witness :
  runCache sample_hmac
    [(lit "20200101T000000Z", lit "secret", lit "us-east-1", lit "s3");
     (lit "20200101T000000Z", lit "secret", lit "eu-west-1", lit "s3");
     (lit "20200101T000000Z", lit "secret", lit "us-east-1", lit "s3")]
    makeSimpleCache
  = [Ok (Some (getSigningData sample_hmac (lit "20200101T000000Z") (lit "secret")
                 (lit "us-east-1") (lit "s3")));
     Ok (Some (getSigningData sample_hmac (lit "20200101T000000Z") (lit "secret")
                 (lit "eu-west-1") (lit "s3")));
     Ok (Some (getSigningData sample_hmac (lit "20200101T000000Z") (lit "secret")
                 (lit "us-east-1") (lit "s3")))].
Proof.
  apply (cached_getSigningData_transparent sample_hmac).
  repeat constructor; apply (bool_decide_unpack _); vm_compute; exact I.
Defined.

(** A string of unreserved characters. *)
Lemma escape_unreserved_witness : escape (lit "my-Key_1.txt~") = lit "my-Key_1.txt~".
Proof. apply escape_unreserved. repeat constructor. Defined.

(** Two headers in either order. *)
Lemma getCanonicalHeaders_order_witness :
  getCanonicalHeaders ascii_toLowerCase
    [(lit "X-Amz-Date", VString (lit "20200102T030405Z"));
     (lit "Host", VString (lit "example.amazonaws.com"))]
  = getCanonicalHeaders ascii_toLowerCase
      [(lit "Host", VString (lit "example.amazonaws.com"));
       (lit "X-Amz-Date", VString (lit "20200102T030405Z"))].
Proof.
  apply getCanonicalHeaders_order.
  - apply (bool_decide_unpack _). vm_compute. exact I.
  - apply Permutation_swap.
Defined.

(** A URL presigned at one time and verified a day later. *)
Lemma presigned_query_verifies_witness :
  let credentials :=
    {| accessKey := lit "AKID"; secretKey := lit "secret";
       regionName := Some (lit "us-east-1"); serviceName := Some (lit "s3") |} in
  let options :=
    {| opt_set := None; opt_query := Some true; opt_setContentHash := None;
       opt_dontNormalize := None; opt_onlyEncodeOnce := None;
       opt_getSigningData := None |} in
  let headers : JSObject := [(lit "Host", VString (lit "example.amazonaws.com"))] in
  let query : URLSearchParams := [(lit "versionId", lit "3")] in
  let sign now query :=
    signRequestRaw sample_sha256 sample_hmac ascii_toLowerCase ascii_toUpperCase
      plain_unescape now credentials (lit "GET") (lit "/key") query headers None options in
  exists result result' sig,
    sign (lit "2020-01-02T03:04:05.678Z") query = Ok result /\
    sign (lit "2020-01-03T03:04:05.678Z")
         (foldl (fun q p => usp_set p.1 (toStr p.2) q) query result) = Ok result' /\
    obj_get (lit "X-Amz-Signature") result' = Some (VString sig) /\
    obj_get (lit "X-Amz-Signature") result = Some (VString sig).
Proof.
  cbv zeta.
  match goal with
  | |- exists result result' sig, ?run = Ok result /\ _ =>
      assert (Hrun : exists result, run = Ok result) by (eexists; vm_compute; reflexivity)
  end.
  destruct Hrun as [result Hrun].
  destruct (fun Hq => presigned_query_verifies _ _ _ _ _ _ (lit "2020-01-03T03:04:05.678Z")
                        _ _ _ _ _ _ _ _ Hq Hrun) as (result' & sig & H1 & _ & H3 & H4);
    [reflexivity|].
  exists result, result', sig. auto.
Defined.

(** The frame of payload streaming at a request with a url object. *)
Lemma signS3ChunkedRequest_without_set_frame_witness :
  let h0 :=
    {| h_next := 2%nat;
       h_requests := {[ 0%nat := {| req_method := Some (lit "PUT"); req_url := inr 1%nat;
                                    req_headers := None; req_body := None;
                                    req_unsigned := None |} ]};
       h_urls := {[ 1%nat := {| url_host := None; url_pathname := Some (lit "/key");
                                url_searchParams := None |} ]};
       h_objects := ∅; h_params := ∅ |} in
  let credentials :=
    {| accessKey := lit "AKID"; secretKey := lit "secret";
       regionName := Some (lit "us-east-1"); serviceName := Some (lit "s3") |} in
  let options :=
    {| opt_set := None; opt_query := None; opt_setContentHash := None;
       opt_dontNormalize := None; opt_onlyEncodeOnce := None;
       opt_getSigningData := None |} in
  Unmutated h0
    (signS3ChunkedRequest sample_sha256 sample_hmac ascii_toLowerCase ascii_toUpperCase
       plain_unescape (fun _ => None) (fun s _ _ => s) (fun _ => None)
       (lit "2020-01-02T03:04:05.678Z") credentials 0%nat 3 8192 options h0).2.
Proof.
  cbv zeta.
  lazymatch goal with
  | |- Unmutated ?h0 (signS3ChunkedRequest _ _ _ _ _ _ _ _ ?now ?c ?r ?b ?k ?o _).2 =>
      refine (signS3ChunkedRequest_without_set_frame sample_sha256 sample_hmac
                ascii_toLowerCase ascii_toUpperCase plain_unescape (fun _ => None)
                (fun s _ _ => s) (fun _ => None) now c r b k o h0 _ eq_refl)
  end.
  intros l Hl. cbn [h_next h_requests h_urls h_objects h_params] in *.
  rewrite !lookup_singleton_ne by lia. rewrite !lookup_empty. auto.
Defined.



(** A header with its three fields in another order. *)
Lemma parseAuthorization_ts_exact_witness :
  exists x pairs sig,
    parseAuthorization_ts
      (lit "AWS4-HMAC-SHA256 Signature = abcd, Credential=AKID/scope, SignedHeaders=host")
    = Ok x /\
    pairs ≡ₚ [(lit "Credential", auth_credential x);
              (lit "SignedHeaders", auth_signedHeaders x);
              (lit "Signature", sig)].
Proof.
  assert (Hrun : exists x,
             parseAuthorization_ts
               (lit "AWS4-HMAC-SHA256 Signature = abcd, Credential=AKID/scope, SignedHeaders=host")
             = Ok x) by (eexists; vm_compute; reflexivity).
  destruct Hrun as [x Hrun].
  destruct (parseAuthorization_ts_exact _ _ Hrun)
    as (algorithm & rest & pairs & sig & _ & _ & Hperm & _).
  exists x, pairs, sig. split; [exact Hrun | exact Hperm].
Defined.
